(** * Torrent metadata indexer: bencode decoder, infohash, magnet, file set, matcher

    A shallow embedding of [update_movies_index.py].

    Conventions of the embedding.
    - Python [bytes] is [list ascii]; offsets are [nat] (every offset the
      decoder handles starts at 0 and only grows).
    - Python [int] is [Z].
    - Python [str] is a Rocq [string] holding the UTF-8 encoding of the text.
      UTF-8 is injective and self-synchronising, so equality, emptiness,
      concatenation, splitting at ["/"] and substring tests on the encodings
      agree with the same operations on code points.
    - Python [dict] is an association list in insertion order with unique
      keys; assignment to an existing key overwrites the value in place.
    - Exceptions are the [Raise] outcomes of the [result] type.
    - The recursions that follow the nesting of the input ([_bdecode] and
      the walk of the file tree) take the number of interpreter frames
      that are available and raise [RecursionError] without one. *)

From Stdlib Require Import ZArith Ascii String.
From stdpp Require Import base list strings gmap.

Local Open Scope nat_scope.
Set Warnings "-register-all".

(** ** Bytes *)

Abbreviation bytes := (list ascii).

(** [B "info"] is the literal [b"info"]. *)
Definition B (s : string) : bytes := list_ascii_of_string s.
Arguments B : simpl never.

(** [data[a:b]] for [0 <= a]; Python clamps both ends to the buffer. *)
Definition slice (data : bytes) (a b : nat) : bytes := take (b - a) (drop a data).

Fixpoint find_byte (c : ascii) (l : bytes) : option nat :=
  match l with
  | [] => None
  | x :: l' => if decide (x = c) then Some 0 else S <$> find_byte c l'
  end.

(** [data.index(c, i)]: first position [j >= i] holding [c]; [None] stands
    for the [ValueError] of a failed search. *)
Definition index_from (c : ascii) (data : bytes) (i : nat) : option nat :=
  (λ j, i + j) <$> find_byte c (drop i data).

(** Lexicographic [<=] on bytes, as Python compares [bytes] objects. *)
Fixpoint bytes_leb (x y : bytes) : bool :=
  match x, y with
  | [], _ => true
  | _ :: _, [] => false
  | a :: x', c :: y' =>
      if nat_of_ascii a <? nat_of_ascii c then true
      else if nat_of_ascii c <? nat_of_ascii a then false
      else bytes_leb x' y'
  end.

(** [x or y] on [Optional[bytes]]: [None] and the empty bytes object are
    both falsy. *)
Definition bytes_or (x y : option bytes) : option bytes :=
  match x with
  | Some (_ :: _) => x
  | _ => y
  end.

(** ** [int(...)] on a bytes object, base 10

    CPython's grammar: optional ASCII whitespace, an optional sign, decimal
    digits in which single underscores may separate digits, optional
    trailing whitespace.  [None] stands for [ValueError].  A text with more
    than [max_str_digits] digits is refused as well: this is the
    interpreter's limit on conversions between [str] and [int]
    ([sys.int_info.default_max_str_digits]; the program does not change
    it).  The limit counts the digit characters, leading zeros included,
    and neither the sign, the underscores nor the whitespace. *)

Definition max_str_digits : Z := 4300.

Definition is_space (c : ascii) : bool :=
  let n := nat_of_ascii c in (n =? 32) || ((9 <=? n) && (n <=? 13)).

Definition is_digit (c : ascii) : bool :=
  let n := nat_of_ascii c in (48 <=? n) && (n <=? 57).

Definition digit_val (c : ascii) : Z := Z.of_nat (nat_of_ascii c) - 48.

Fixpoint lstrip (s : bytes) : bytes :=
  match s with
  | c :: s' => if is_space c then lstrip s' else s
  | [] => []
  end.

Fixpoint int_digits (acc : Z) (prev_us : bool) (s : bytes) : option Z :=
  match s with
  | [] => if prev_us then None else Some acc
  | c :: s' =>
      if is_digit c then int_digits (10 * acc + digit_val c) false s'
      else if decide (c = "_"%char) then
        (if prev_us then None else int_digits acc true s')
      else if prev_us then None
      else if forallb is_space s then Some acc else None
  end.

(** The number of digit characters of [s]. *)
Fixpoint count_digits (s : bytes) : Z :=
  match s with
  | [] => 0
  | c :: s' => if is_digit c then (1 + count_digits s')%Z else count_digits s'
  end.

Definition int_of_bytes (s : bytes) : option Z :=
  let s1 := lstrip s in
  let '(neg, s2) :=
    match s1 with
    | "-"%char :: t => (true, t)
    | "+"%char :: t => (false, t)
    | _ => (false, s1)
    end in
  match s2 with
  | c :: _ =>
      if is_digit c
      then
        if (max_str_digits <? count_digits s2)%Z then None
        else (λ n, if neg : bool then (- n)%Z else n) <$> int_digits 0 false s2
      else None
  | [] => None
  end.

(** ** Values and dictionaries *)

Inductive Value : Type :=
  | VInt (n : Z)
  | VBytes (b : bytes)
  | VList (l : list Value)
  | VDict (d : list (bytes * Value)).

Abbreviation dict := (list (bytes * Value)).

(** [d.get(k)] *)
Fixpoint dict_get (k : bytes) (d : dict) : option Value :=
  match d with
  | [] => None
  | (k', v) :: d' => if decide (k' = k) then Some v else dict_get k d'
  end.

(** [k in d] *)
Definition dict_mem (k : bytes) (d : dict) : bool :=
  match dict_get k d with Some _ => true | None => false end.

(** [d[k] = v] *)
Fixpoint dict_set (k : bytes) (v : Value) (d : dict) : dict :=
  match d with
  | [] => [(k, v)]
  | (k', v') :: d' =>
      if decide (k' = k) then (k', v) :: d' else (k', v') :: dict_set k v d'
  end.

(** ** Outcomes *)

Inductive bencode_msg : Type :=
  | UnexpectedEnd                         (* "Unexpected end of data" *)
  | NonBytesKey                           (* "Non-bytes dict key" *)
  | InvalidPrefix (i : nat) (c : bytes)   (* "Invalid bencode prefix at {i}: {c!r}" *)
  | TopLevelNotDict.                      (* "Top-level bencode is not a dict" *)

(** [OutOfFuel] is not a Python exception: it is returned when a bounded
    loop of the model runs out of iterations.  [_bdecode_never_out_of_fuel]
    shows that it is never produced. *)
Inductive exn : Type :=
  | BencodeError (m : bencode_msg)
  | ValueError
  | TypeError
  | RecursionError
  | UnicodeDecodeError
  | OutOfFuel.

Inductive result (A : Type) : Type :=
  | Ok (a : A)
  | Raise (e : exn).
Arguments Ok {A} a.
Arguments Raise {A} e.

(** ** [_bdecode] *)

Abbreviation decoded := (Value * nat * option bytes)%type.

Section loops.
Context (data : bytes) (rec : nat → bool → result decoded).

(** The [while data[i : i + 1] != b"e"] loop of the list branch.  [fuel]
    bounds the number of further iterations. *)
Fixpoint list_loop (capture_info : bool) (fuel i : nat) (lst : list Value)
    (info_slice : option bytes) {struct fuel} : result decoded :=
  if decide (slice data i (i + 1) = B "e") then Ok (VList lst, i + 1, info_slice)
  else
    match rec i capture_info with
    | Raise e => Raise e
    | Ok (v, i', info_sub) =>
        match fuel with
        | 0 => Raise OutOfFuel
        | S fuel' =>
            list_loop capture_info fuel' i' (lst ++ [v]) (bytes_or info_slice info_sub)
        end
    end.

(** The loop of the dict branch. *)
Fixpoint dict_loop (capture_info : bool) (fuel i : nat) (d : dict)
    (info_slice : option bytes) {struct fuel} : result decoded :=
  if decide (slice data i (i + 1) = B "e") then Ok (VDict d, i + 1, info_slice)
  else
    match rec i false with
    | Raise e => Raise e
    | Ok (VBytes k_bytes, i1, _) =>
        if capture_info && bool_decide (k_bytes = B "info") then
          let val_start := i1 in
          match rec i1 false with
          | Raise e => Raise e
          | Ok (v, i2, _) =>
              let val_end := i2 in
              match fuel with
              | 0 => Raise OutOfFuel
              | S fuel' =>
                  dict_loop capture_info fuel' i2 (dict_set k_bytes v d)
                    (Some (slice data val_start val_end))
              end
          end
        else
          match rec i1 capture_info with
          | Raise e => Raise e
          | Ok (v, i2, sub_info) =>
              match fuel with
              | 0 => Raise OutOfFuel
              | S fuel' =>
                  dict_loop capture_info fuel' i2 (dict_set k_bytes v d)
                    (bytes_or info_slice sub_info)
              end
          end
    | Ok (_, _, _) => Raise (BencodeError NonBytesKey)
    end.
End loops.

(** [depth] is the number of interpreter frames still available: the
    recursion of the source is bounded by nothing else, and a call with no
    frame left raises [RecursionError]. *)
Fixpoint _bdecode (depth : nat) (data : bytes) (i : nat) (capture_info : bool)
    {struct depth} : result decoded :=
  match depth with
  | 0 => Raise RecursionError
  | S depth' =>
      if decide (length data ≤ i) then Raise (BencodeError UnexpectedEnd)
      else
        let c := slice data i (i + 1) in
        if decide (c = B "i") then
          match index_from "e" data i with
          | None => Raise ValueError
          | Some j =>
              match int_of_bytes (slice data (i + 1) j) with
              | None => Raise ValueError
              | Some num => Ok (VInt num, j + 1, None)
              end
          end
        else if decide (c = B "l") then
          list_loop data (_bdecode depth' data) capture_info (length data) (i + 1) [] None
        else if decide (c = B "d") then
          dict_loop data (_bdecode depth' data) capture_info (length data) (i + 1) [] None
        else if bytes_leb (B "0") c && bytes_leb c (B "9") then
          match index_from ":" data i with
          | None => Raise ValueError
          | Some j =>
              match int_of_bytes (slice data i j) with
              | None => Raise ValueError
              | Some len =>
                  (* [len] is not negative: the text starts with a digit *)
                  let start := j + 1 in
                  let end_ := start + Z.to_nat len in
                  Ok (VBytes (slice data start end_), end_, None)
              end
          end
        else Raise (BencodeError (InvalidPrefix i c))
  end.

(** ** Text: [bytes.decode("utf-8", errors)] and [urllib.parse.quote]

    [utf8_head] classifies the head of a buffer the way CPython's UTF-8
    decoder does: [Good n] is a well-formed sequence of [n] bytes, [Bad n] a
    malformed range of [n] bytes (an invalid start byte, or a start byte
    with the continuation bytes that precede the offending one; a missing
    byte counts as an offending one). *)

Inductive utf8_chunk : Type := Good (n : nat) | Bad (n : nat).

Definition byte_at (s : bytes) (k : nat) : nat :=
  match s !! k with Some c => nat_of_ascii c | None => 0 end.

Definition cont_at (s : bytes) (k : nat) : bool :=
  match s !! k with
  | Some c => (128 <=? nat_of_ascii c) && (nat_of_ascii c <? 192)
  | None => false
  end.

Definition utf8_head (s : bytes) : utf8_chunk :=
  let b0 := byte_at s 0 in
  let b1 := byte_at s 1 in
  if b0 <? 128 then Good 1
  else if b0 <? 194 then Bad 1
  else if b0 <? 224 then (if cont_at s 1 then Good 2 else Bad 1)
  else if b0 <? 240 then
    if negb (cont_at s 1) || ((b0 =? 224) && (b1 <? 160)) || ((b0 =? 237) && (160 <=? b1))
    then Bad 1
    else if cont_at s 2 then Good 3 else Bad 2
  else if b0 <? 245 then
    if negb (cont_at s 1) || ((b0 =? 240) && (b1 <? 144)) || ((b0 =? 244) && (144 <=? b1))
    then Bad 1
    else if negb (cont_at s 2) then Bad 2
    else if cont_at s 3 then Good 4 else Bad 3
  else Bad 1.

(** [repl] is what a malformed range is replaced by: nothing for
    ["ignore"], U+FFFD for ["replace"].  [skip] counts the bytes of the
    current chunk that are still to be passed over. *)
Fixpoint utf8_decode (repl : bytes) (skip : nat) (s : bytes) : bytes :=
  match s with
  | [] => []
  | _ :: s' =>
      match skip with
      | S skip' => utf8_decode repl skip' s'
      | 0 =>
          match utf8_head s with
          | Good n => take n s ++ utf8_decode repl (n - 1) s'
          | Bad n => repl ++ utf8_decode repl (n - 1) s'
          end
      end
  end.

(** [b.decode("utf-8", "ignore")] *)
Definition decode_ignore (b : bytes) : string :=
  string_of_list_ascii (utf8_decode [] 0 b).

(** [b.decode("utf-8", errors="replace")] *)
Definition decode_replace (b : bytes) : string :=
  string_of_list_ascii
    (utf8_decode [ascii_of_nat 239; ascii_of_nat 191; ascii_of_nat 189] 0 b).

Definition is_alnum (c : ascii) : bool :=
  let n := nat_of_ascii c in
  ((48 <=? n) && (n <=? 57)) || ((65 <=? n) && (n <=? 90)) || ((97 <=? n) && (n <=? 122)).

Definition hex_digit (n : nat) : ascii :=
  if n <? 10 then ascii_of_nat (48 + n) else ascii_of_nat (55 + n).

Fixpoint mem_char (c : ascii) (s : string) : bool :=
  match s with
  | EmptyString => false
  | String x s' => bool_decide (x = c) || mem_char c s'
  end.

(** [quote(s, safe=safe)]: every byte of the UTF-8 encoding outside the
    unreserved set and [safe] becomes [%XX]. *)
Fixpoint quote (safe : string) (s : string) : string :=
  match s with
  | EmptyString => EmptyString
  | String c s' =>
      if is_alnum c || mem_char c "_.-~" || mem_char c safe
      then String c (quote safe s')
      else String "%" (String (hex_digit (nat_of_ascii c / 16))
                         (String (hex_digit (nat_of_ascii c mod 16)) (quote safe s')))
  end.

(** ** [pathlib]: the [name] of a POSIX path built from segments *)

Fixpoint split_slash (cur : string) (s : string) : list string :=
  match s with
  | EmptyString => [cur]
  | String c s' =>
      if decide (c = "/"%char) then cur :: split_slash EmptyString s'
      else split_slash (cur +:+ String c EmptyString) s'
  end.

Definition path_parts (s : string) : list string :=
  filter (λ c, c ≠ EmptyString ∧ c ≠ "."%string) (split_slash EmptyString s).

(** The [name] of the path made of the segments [segs]: an absolute
    segment discards the segments before it; the name is the last
    component, or the empty string when there is none. *)
Definition path_name (segs : list string) : string :=
  let parts :=
    fold_left (λ acc seg, if String.prefix "/" seg then path_parts seg
                          else acc ++ path_parts seg) segs [] in
  default EmptyString (last parts).

(** [needle in hay] on [str] *)
Fixpoint contains (needle hay : string) : bool :=
  String.prefix needle hay ||
  match hay with
  | EmptyString => false
  | String _ hay' => contains needle hay'
  end.

(** [x or y] on [Optional[str]] *)
Definition str_or (x : option string) (y : string) : string :=
  match x with
  | Some (String _ _ as s) => s
  | _ => y
  end.

(** ** [magnet_from_info] *)

(** [s.split(":", 1)[1]]: the text after the first colon. *)
Fixpoint after_colon (s : string) : option string :=
  match s with
  | EmptyString => None
  | String c s' => if decide (c = ":"%char) then Some s' else after_colon s'
  end.

(** The byte-string members of one [announce-list] item. *)
Definition item_trackers (item : Value) : list bytes :=
  match item with
  | VList l => omap (λ x, match x with VBytes t => Some t | _ => None end) l
  | VBytes t => [t]
  | _ => []
  end.

(** The [# dedupe] loop: [seen] starts empty at the call site. *)
Fixpoint dedupe (trackers : list bytes) (seen : gset string) (params : list string)
    : list string :=
  match trackers with
  | [] => params
  | t :: rest =>
      let s := decode_ignore t in
      if bool_decide (s ≠ EmptyString) && bool_decide (s ∉ seen)
      then dedupe rest ({[s]} ∪ seen) (params ++ ["tr=" +:+ quote "/" s])
      else dedupe rest seen params
  end.

(** The [xt] value of [magnet_from_info]; [None] when the function returns
    [None] for the infohash. *)
Definition magnet_xt (infohash : string) : option string :=
  if decide (infohash = EmptyString) then None
  else if String.prefix "btih:" infohash
  then (λ r, "urn:btih:" +:+ r) <$> after_colon infohash
  else if String.prefix "btmh:" infohash
  then (λ r, "urn:btmh:" +:+ r) <$> after_colon infohash
  else None.

(** The list [params] built by [magnet_from_info]. *)
Definition magnet_params (torrent_dict : dict) (infohash display_name : string)
    : option (list string) :=
  match magnet_xt infohash with
  | None => None
  | Some xt =>
      let params := ["xt=" +:+ quote ":" xt] in
      let params :=
        if decide (display_name = EmptyString) then params
        else params ++ ["dn=" +:+ quote "/" display_name] in
      let params :=
        match dict_get (B "announce") torrent_dict with
        | Some (VBytes ann) => params ++ ["tr=" +:+ quote "/" (decode_ignore ann)]
        | _ => params
        end in
      let params :=
        match dict_get (B "announce-list") torrent_dict with
        | Some (VList ann_list) =>
            let trackers := flat_map item_trackers ann_list in
            dedupe trackers ∅ params
        | _ => params
        end in
      Some params
  end.

Definition magnet_from_info (torrent_dict : dict) (infohash display_name : string)
    : option string :=
  (λ params, "magnet:?" +:+ String.concat "&" params)
    <$> magnet_params torrent_dict infohash display_name.

(** ** [torrent_file_list] *)

(** The test of [walk] for the empty key in [v]: key membership for a dict, element membership for a list,
    substring test for bytes (the empty bytes object is a substring of every
    bytes object); an int is not a container and the test raises
    [TypeError]. *)
Definition empty_key_in (v : Value) : result bool :=
  match v with
  | VDict d => Ok (dict_mem [] d)
  | VList l => Ok (existsb (λ x, match x with VBytes [] => true | _ => false end) l)
  | VBytes _ => Ok true
  | VInt _ => Raise TypeError
  end.

Section pathlib.
(** [path_join prefix key] is [str(Path(prefix) / key)], and
    [join_frames prefix key] the number of interpreter frames that
    evaluating it takes: [pathlib] is written in Python and its calls use
    frames like those of the program.  Both are taken from the Python
    runtime. *)
Context (path_join : string → string → string) (join_frames : string → string → nat).

(** [walk], applied to the tree held by [v].  The set [names] of the
    enclosing function is threaded through.  [depth] is the number of
    interpreter frames still available, as for [_bdecode]: a call with no
    frame left raises [RecursionError]; the call takes one frame, and the
    argument [str(Path(prefix) / key)] of a recursive call is evaluated,
    before that call, with the frames that are left. *)
Fixpoint walk_value (depth : nat) (v : Value) (prefix : string) (names : gset string)
    {struct v} : result (gset string) :=
  match v with
  | VDict tree =>
      match depth with
      | 0 => Raise RecursionError
      | S depth' =>
          (fix items (l : dict) (names : gset string) {struct l}
               : result (gset string) :=
             match l with
             | [] => Ok names
             | (k, v) :: rest =>
                 let key := decode_ignore k in
                 match empty_key_in v with
                 | Raise e => Raise e
                 | Ok true => items rest ({[key]} ∪ names)
                 | Ok false =>
                     match v with
                     | VDict _ =>
                         if decide (depth' < join_frames prefix key)
                         then Raise RecursionError
                         else
                           match walk_value depth' v (path_join prefix key) names with
                           | Raise e => Raise e
                           | Ok names' => items rest names'
                           end
                     | _ => items rest names
                     end
                 end
             end) tree names
      end
  | _ => Ok names
  end.

Definition walk (depth : nat) (tree : dict) (prefix : string) (names : gset string)
    : result (gset string) :=
  walk_value depth (VDict tree) prefix names.

(** The name contributed by one element of [info[b"files"]], if any. *)
Definition file_entry_name (f : Value) : option string :=
  match f with
  | VDict f =>
      match dict_get (B "path") f with
      | Some (VList path) =>
          let segs :=
            omap (λ seg, match seg with VBytes s => Some (decode_ignore s) | _ => None end)
                 path in
          match segs with [] => None | _ => Some (path_name segs) end
      | Some (VBytes path) => Some (path_name [decode_ignore path])
      | _ => None
      end
  | _ => None
  end.

(** [depth] is the number of frames available to the call of [walk].  The
    other calls that the body makes ([Path(...).name]) do not nest with the
    input: like every call made from a function body at a fixed distance
    from [main], they are taken to have the frames they need. *)
Definition torrent_file_list (depth : nat) (torrent_dict : dict) : result (gset string) :=
  match dict_get (B "info") torrent_dict with
  | Some (VDict info) =>
      let names : gset string := ∅ in
      (* single-file mode; the [try] swallows a [name] that is not bytes *)
      let names :=
        if dict_mem (B "length") info && dict_mem (B "name") info then
          match dict_get (B "name") info with
          | Some (VBytes nm) => {[path_name [decode_ignore nm]]} ∪ names
          | _ => names
          end
        else names in
      (* multi-file mode *)
      let names :=
        match dict_get (B "files") info with
        | Some (VList files) =>
            fold_left (λ names f,
                         match file_entry_name f with
                         | Some (String _ _ as nm) => {[nm]} ∪ names
                         | _ => names
                         end) files names
        | _ => names
        end in
      (* v2 file tree *)
      match dict_get (B "file tree") info with
      | Some (VDict tree) => walk depth tree EmptyString names
      | _ => Ok names
      end
  | _ => Ok ∅
  end.
End pathlib.

(** ** Torrent records, [decode_torrent_and_infohash], [load_torrents],
    [match_movie_to_torrent] *)

Record torrent : Type := {
  path : string;
  display_name : option string;
  infohash : option string;
  magnet : option string;
  files : gset string
}.

Section runtime.
(** [hashlib.sha1(b).hexdigest()], [hashlib.sha256(b).hexdigest()] and
    [str.lower] are taken from the Python runtime, like [path_join] and
    [join_frames] above. *)
Context (sha1_hexdigest sha256_hexdigest : bytes → string) (lower : string → string).
Context (path_join : string → string → string) (join_frames : string → string → nat).

(** [raw] is [torrent_path.read_bytes()] and [stem] is
    [torrent_path.stem]. *)
Definition decode_torrent_and_infohash (depth : nat) (raw : bytes) (stem : string)
    : result (dict * option string * string) :=
  match _bdecode depth raw 0 true with
  | Raise e => Raise e
  | Ok (VDict val, idx, info_slice) =>
      let info := dict_get (B "info") val in
      let name :=
        match info with
        | Some (VDict info) =>
            match dict_get (B "name") info with
            | Some (VBytes nm) => Some (decode_replace nm)
            | _ => None
            end
        | _ => None
        end in
      match info_slice with
      | None => Ok (val, None, str_or name stem)
      | Some info_slice =>
          let is_v2 :=
            match info with
            | Some (VDict info) =>
                match dict_get (B "meta version") info with
                | Some (VInt n) => bool_decide (n = 2%Z)
                | _ => false
                end
            | _ => false
            end in
          let infohash :=
            if is_v2 then "btmh:1220" +:+ sha256_hexdigest info_slice
            else "btih:" +:+ sha1_hexdigest info_slice in
          Ok (val, Some infohash, str_or name stem)
      end
  | Ok (_, _, _) => Raise (BencodeError TopLevelNotDict)
  end.

(** The body of the [try] of [load_torrents] for one file.  The decoder
    and the walk are both reached through one call from this body, so that
    they have the same number [depth] of frames available. *)
Definition load_torrent (depth : nat) (p stem : string) (raw : bytes) : result torrent :=
  match decode_torrent_and_infohash depth raw stem with
  | Raise e => Raise e
  | Ok (meta, ih, disp) =>
      let magnet :=
        match ih with
        | Some (String _ _ as h) => magnet_from_info meta h disp
        | _ => None
        end in
      match torrent_file_list path_join join_frames depth meta with
      | Raise e => Raise e
      | Ok fs =>
          Ok {| path := p; display_name := Some disp; infohash := ih;
                magnet := magnet; files := set_map lower fs |}
      end
  end.

(** [load_torrents]: a file whose processing raises is skipped. *)
Definition load_torrents (depth : nat) (inputs : list (string * string * bytes))
    : list torrent :=
  omap (λ '(p, stem, raw),
          match load_torrent depth p stem raw with
          | Ok t => Some t
          | Raise _ => None
          end) inputs.

Definition torrent_name (t : torrent) : string :=
  lower (str_or (display_name t) EmptyString).

Definition tier1 (dir_name : string) (t : torrent) : bool :=
  bool_decide (torrent_name t ≠ EmptyString) && bool_decide (torrent_name t = dir_name).

Definition tier2 (dir_name : string) (t : torrent) : bool :=
  bool_decide (torrent_name t ≠ EmptyString)
  && (contains (torrent_name t) dir_name || contains dir_name (torrent_name t)).

Definition tier3 (dir_name : string) (t : torrent) : bool :=
  existsb (λ f, contains dir_name (lower f)) (elements (files t)).

(** [name] is [movie_dir.name]. *)
Definition match_movie_to_torrent (name : string) (torrents : list torrent)
    : option torrent :=
  let dir_name := lower name in
  match find (tier1 dir_name) torrents with
  | Some t => Some t
  | None =>
      match find (tier2 dir_name) torrents with
      | Some t => Some t
      | None => find (tier3 dir_name) torrents
      end
  end.
End runtime.

(** ** Notions used to state the properties *)

(** The decimal value of a sequence of digits. *)
Definition digits_value (ds : bytes) : Z :=
  fold_left (λ acc c, (10 * acc + digit_val c)%Z) ds 0%Z.

(** The entries of a dictionary body in byte order: starting at offset [i],
    a key decodes to the byte string [k], then a value decodes to [v], and
    so on up to offset [i'']. *)
Inductive dict_entries (depth : nat) (data : bytes)
    : nat → list (bytes * Value) → nat → Prop :=
  | entries_nil i : dict_entries depth data i [] i
  | entries_cons i k j s1 v i' s2 es i'' :
      _bdecode depth data i false = Ok (VBytes k, j, s1) →
      _bdecode depth data j false = Ok (v, i', s2) →
      dict_entries depth data i' es i'' →
      dict_entries depth data i ((k, v) :: es) i''.

(** The value of the last entry with key [k]. *)
Definition last_value (k : bytes) (es : list (bytes * Value)) : option Value :=
  snd <$> last (filter (λ kv, kv.1 = k) es).

(** [n] lists nested in one another, and the buffer that encodes them. *)
Fixpoint nest (n : nat) : Value :=
  match n with
  | 0 => VList []
  | S n' => VList [nest n']
  end.

Definition nested (n : nat) : bytes :=
  replicate (S n) "l"%char ++ replicate (S n) "e"%char.

(** The top-level [info] is a dictionary whose [meta version] is the
    integer 2. *)
Definition meta_version_2 (val : dict) : Prop :=
  ∃ info, dict_get (B "info") val = Some (VDict info)
          ∧ dict_get (B "meta version") info = Some (VInt 2).

(** The distinct elements of a list in the order of their first
    occurrence. *)
Fixpoint nub (l : list string) : list string :=
  match l with
  | [] => []
  | x :: l' => x :: filter (λ y, y ≠ x) (nub l')
  end.

(** The decoded texts of the leaves of an [announce-list]. *)
Definition list_trackers (ann_list : list Value) : list string :=
  decode_ignore <$> flat_map item_trackers ann_list.

(** [t] is the first element of [l] that satisfies [p]. *)
Definition first_sat {A} (p : A → bool) (l : list A) (t : A) : Prop :=
  ∃ n, l !! n = Some t ∧ p t = true ∧ ∀ m t', m < n → l !! m = Some t' → p t' = false.

Definition none_sat {A} (p : A → bool) (l : list A) : Prop :=
  ∀ t, t ∈ l → p t = false.

(** ASCII lower-casing; [str.lower] agrees with it on ASCII text. *)
Definition ascii_lower (s : string) : string :=
  string_of_list_ascii
    ((λ c, let n := nat_of_ascii c in
           if (65 <=? n) && (n <=? 90) then ascii_of_nat (n + 32) else c)
       <$> list_ascii_of_string s).

(** What the dict loop knows about [info_slice] at offset [i] with the
    dictionary [d] built so far. *)
Definition span_inv (data : bytes) (rec : nat → bool → result decoded)
    (d : dict) (info : option bytes) (i : nat) : Prop :=
  ∀ v, dict_get (B "info") d = Some v →
    ∃ start end_ s', info = Some (slice data start end_)
      ∧ start < end_ ∧ end_ ≤ i ∧ start < length data
      ∧ rec start false = Ok (v, end_, s').

(** A decoding outcome without its captured span. *)
Definition strip (r : result decoded) : result (Value * nat) :=
  match r with
  | Ok (v, i, _) => Ok (v, i)
  | Raise e => Raise e
  end.

(** Every dictionary inside the value has pairwise distinct keys. *)
Inductive unique_keys : Value → Prop :=
  | uk_int n : unique_keys (VInt n)
  | uk_bytes b : unique_keys (VBytes b)
  | uk_list l : Forall unique_keys l → unique_keys (VList l)
  | uk_dict d :
      NoDup d.*1 → Forall (λ kv, unique_keys kv.2) d → unique_keys (VDict d).

(** One frame of [_bdecode], with [rec] for the calls it makes. *)
Definition decode_frame (rec : nat → bool → result decoded) (data : bytes) (i : nat)
    (capture_info : bool) : result decoded :=
  if decide (length data ≤ i) then Raise (BencodeError UnexpectedEnd)
  else
    let c := slice data i (i + 1) in
    if decide (c = B "i") then
      match index_from "e" data i with
      | None => Raise ValueError
      | Some j =>
          match int_of_bytes (slice data (i + 1) j) with
          | None => Raise ValueError
          | Some num => Ok (VInt num, j + 1, None)
          end
      end
    else if decide (c = B "l") then
      list_loop data rec capture_info (length data) (i + 1) [] None
    else if decide (c = B "d") then
      dict_loop data rec capture_info (length data) (i + 1) [] None
    else if bytes_leb (B "0") c && bytes_leb c (B "9") then
      match index_from ":" data i with
      | None => Raise ValueError
      | Some j =>
          match int_of_bytes (slice data i j) with
          | None => Raise ValueError
          | Some len =>
              let start := j + 1 in
              let end_ := start + Z.to_nat len in
              Ok (VBytes (slice data start end_), end_, None)
          end
      end
    else Raise (BencodeError (InvalidPrefix i c)).

(** ** The encoding that the decoder inverts

    The source has no encoder; [bencode] writes a value the standard way
    (decimal integers, length-prefixed byte strings, items in order) and
    serves to state what the decoder reads back. *)

(** The decimal digits of [n], most significant first, put before [acc]. *)
Fixpoint nat_digits (fuel n : nat) (acc : bytes) : bytes :=
  match fuel with
  | 0 => acc
  | S fuel' =>
      let acc' := ascii_of_nat (48 + n mod 10) :: acc in
      if n <? 10 then acc' else nat_digits fuel' (n / 10) acc'
  end.

Definition nat_bytes (n : nat) : bytes := nat_digits (S n) n [].

Definition int_bytes (z : Z) : bytes :=
  if (z <? 0)%Z then "-"%char :: nat_bytes (Z.to_nat (- z))
  else nat_bytes (Z.to_nat z).

Fixpoint bencode (v : Value) : bytes :=
  match v with
  | VInt n => B "i" ++ int_bytes n ++ B "e"
  | VBytes b => nat_bytes (length b) ++ B ":" ++ b
  | VList l => B "l" ++ flat_map bencode l ++ B "e"
  | VDict d =>
      B "d"
      ++ flat_map (λ kv, (nat_bytes (length kv.1) ++ B ":" ++ kv.1) ++ bencode kv.2) d
      ++ B "e"
  end.

(** The decimal form of [n] has no more digits than [int] accepts. *)
Definition within_digit_limit (n : nat) : Prop :=
  (Z.of_nat (length (nat_bytes n)) ≤ max_str_digits)%Z.

(** Every number that the encoding of the value writes in decimal is within
    the limit: the integers, and the lengths of the byte strings and of the
    keys. *)
Inductive digits_within_limit : Value → Prop :=
  | dl_int n : within_digit_limit (Z.abs_nat n) → digits_within_limit (VInt n)
  | dl_bytes b : within_digit_limit (length b) → digits_within_limit (VBytes b)
  | dl_list l : Forall digits_within_limit l → digits_within_limit (VList l)
  | dl_dict d :
      Forall (λ kv, within_digit_limit (length kv.1) ∧ digits_within_limit kv.2) d →
      digits_within_limit (VDict d).

(** The number of frames the decoder needs for a value. *)
Fixpoint vheight (v : Value) : nat :=
  match v with
  | VInt _ | VBytes _ => 1
  | VList l => S (foldr (λ x m, vheight x `max` m) 0 l)
  | VDict d => S (foldr (λ kv m, vheight kv.2 `max` m) 0 d)
  end.

(** The items of a list body in byte order, from offset [i] up to offset
    [i'']. *)
Inductive list_items (depth : nat) (data : bytes) : nat → list Value → nat → Prop :=
  | items_nil i : list_items depth data i [] i
  | items_cons i v i' s l i'' :
      _bdecode depth data i false = Ok (v, i', s) →
      list_items depth data i' l i'' →
      list_items depth data i (v :: l) i''.

(** What [_bdecode] returns for an encoded value placed anywhere in a
    buffer. *)
Definition reads_back (v : Value) : Prop :=
  ∀ depth (pre post : bytes),
    vheight v ≤ depth →
    _bdecode depth (pre ++ bencode v ++ post) (length pre) false
    = Ok (v, length pre + length (bencode v), None).

(** ** The file tree, stated without the walk *)

(** The empty-key test of [walk] succeeds on [v]. *)
Definition is_leaf_value (v : Value) : bool :=
  match empty_key_in v with
  | Ok true => true
  | _ => false
  end.

(** The decoded keys, at any depth, whose value passes the empty-key test;
    a dictionary that does not pass it is searched in turn. *)
Fixpoint tree_leaves (v : Value) : gset string :=
  match v with
  | VDict d =>
      foldr (λ kv acc,
               (if is_leaf_value kv.2 then {[decode_ignore kv.1]}
                else tree_leaves kv.2) ∪ acc) ∅ d
  | _ => ∅
  end.

(** A file tree of the usual shape: every value is a dictionary, either a
    leaf (it has the empty key) or a directory of the same shape. *)
Fixpoint is_file_tree (v : Value) : bool :=
  match v with
  | VDict d =>
      forallb (λ kv, match kv.2 with
                     | VDict dx => dict_mem [] dx || is_file_tree kv.2
                     | _ => false
                     end) d
  | _ => false
  end.

(** ** [read_file_text] and [write_if_changed]

    The file system is a map from the paths that exist to the bytes of the
    files; every path that exists is taken to be a readable regular file,
    and every path can be written.
    [p.read_text(encoding="utf-8")] decodes the bytes strictly, raising
    [UnicodeDecodeError] on a malformed sequence, and reads in text mode
    with universal newlines: every ["\r\n"] and every other ["\r"] comes
    out as ["\n"].  [p.write_text(content, encoding="utf-8")] writes the
    encoding of the text, a ["\n"] as it is (the line separator of
    POSIX). *)

(** Strict decoding succeeds: no malformed range.  [skip] is as in
    [utf8_decode]. *)
Fixpoint utf8_valid (skip : nat) (s : bytes) : bool :=
  match s with
  | [] => true
  | _ :: s' =>
      match skip with
      | S skip' => utf8_valid skip' s'
      | 0 =>
          match utf8_head s with
          | Good n => utf8_valid (n - 1) s'
          | Bad _ => false
          end
      end
  end.

(** A [string] that stands for a Python [str]: a well-formed encoding. *)
Definition is_str (s : string) : bool := utf8_valid 0 (list_ascii_of_string s).

Fixpoint universal_newlines (s : string) : string :=
  match s with
  | EmptyString => EmptyString
  | String c s' =>
      if decide (c = "013"%char) then
        match s' with
        | String "010"%char s'' => String "010"%char (universal_newlines s'')
        | _ => String "010"%char (universal_newlines s')
        end
      else String c (universal_newlines s')
  end.

(** [p.read_text(encoding="utf-8")] on the bytes [b] of the file. *)
Definition read_text (b : bytes) : result string :=
  if utf8_valid 0 b then Ok (universal_newlines (string_of_list_ascii b))
  else Raise UnicodeDecodeError.

Definition read_file_text (fs : gmap string bytes) (p : string) : result string :=
  match fs !! p with
  | Some b => read_text b
  | None => Ok EmptyString
  end.

(** The outcome and the file system after the call. *)
Definition write_if_changed (fs : gmap string bytes) (p content : string)
    : result bool * gmap string bytes :=
  match read_file_text fs p with
  | Raise e => (Raise e, fs)
  | Ok old =>
      if decide (old = content) then (Ok false, fs)
      else (Ok true, <[p := list_ascii_of_string content]> fs)
  end.

(** ** [walk_movie_directories]

    An entry of the root directory: its name, whether it is a directory,
    and its modification time ([None] when [stat] raises [OSError]).  Times
    are integers; [datetime_min] is [datetime.min]. *)

Record dir_item : Type := {
  item_name : string;
  item_is_dir : bool;
  item_mtime : option Z
}.

(** [a < b] on [str]. *)
Fixpoint str_ltb (a b : string) : bool :=
  match a, b with
  | _, EmptyString => false
  | EmptyString, String _ _ => true
  | String x a', String y b' =>
      if nat_of_ascii x <? nat_of_ascii y then true
      else if nat_of_ascii y <? nat_of_ascii x then false
      else str_ltb a' b'
  end.

Section directories.
Context (lower : string → string).
Context (SKIP_HIDDEN : bool) (IGNORE_DIRS : gset string) (datetime_min : Z).

(** The [for item in root.iterdir()] loop: the directories kept so far and
    the most recent modification time. *)
Fixpoint scan_items (items : list dir_item) (directories : list (dir_item * string))
    (most_recent : Z) : list (dir_item * string) * Z :=
  match items with
  | [] => (directories, most_recent)
  | item :: rest =>
      if negb (item_is_dir item) then scan_items rest directories most_recent
      else if SKIP_HIDDEN && String.prefix "." (item_name item)
      then scan_items rest directories most_recent
      else if bool_decide (item_name item ∈ IGNORE_DIRS)
      then scan_items rest directories most_recent
      else
        let directories := directories ++ [(item, item_name item)] in
        match item_mtime item with
        | Some mtime =>
            if (most_recent <? mtime)%Z then scan_items rest directories mtime
            else scan_items rest directories most_recent
        | None => scan_items rest directories most_recent
        end
  end.

(** [list.sort(key=...)] is a stable sort; inserting each element before
    the first one whose key is not smaller gives the same list. *)
Fixpoint insert_sorted (x : dir_item * string) (l : list (dir_item * string))
    : list (dir_item * string) :=
  match l with
  | [] => [x]
  | y :: l' =>
      if str_ltb (lower y.2) (lower x.2) then y :: insert_sorted x l'
      else x :: y :: l'
  end.

Definition sort_by_lower_name (l : list (dir_item * string)) : list (dir_item * string) :=
  foldr insert_sorted [] l.

Definition walk_movie_directories (items : list dir_item)
    : list (dir_item * string) * Z :=
  let '(directories, most_recent) := scan_items items [] datetime_min in
  (sort_by_lower_name directories, most_recent).

(** The entries that the scan keeps. *)
Definition kept (item : dir_item) : bool :=
  item_is_dir item
  && negb (SKIP_HIDDEN && String.prefix "." (item_name item))
  && negb (bool_decide (item_name item ∈ IGNORE_DIRS)).

(** No element is followed, anywhere later in the list, by one with a
    smaller lower-cased name. *)
Fixpoint ordered (l : list (dir_item * string)) : Prop :=
  match l with
  | [] => True
  | a :: l' =>
      Forall (λ b, str_ltb (lower b.2) (lower a.2) = false) l' ∧ ordered l'
  end.
End directories.

(** The exceptions the decoder can raise on the buffer [data]. *)
Definition decoder_error (data : bytes) (e : exn) : Prop :=
  e = RecursionError ∨ e = ValueError
  ∨ e = BencodeError UnexpectedEnd ∨ e = BencodeError NonBytesKey
  ∨ ∃ j, j < length data ∧ e = BencodeError (InvalidPrefix j (slice data j (j + 1))).

(** ** Basic facts about slices and searches *)

Lemma slice_one (data : bytes) (i : nat) (c : ascii) :
  slice data i (i + 1) = [c] ↔ data !! i = Some c.
Proof.
  unfold slice. replace (i + 1 - i) with 1 by lia.
  assert (data !! i = drop i data !! 0) as ->
    by (rewrite lookup_drop; f_equal; lia).
  destruct (drop i data) as [|x l]; simpl; [|rewrite take_0]; split; congruence.
Qed.

Lemma slice_one_ge (data : bytes) (i : nat) :
  length data ≤ i → slice data i (i + 1) = [].
Proof. intros H. unfold slice. rewrite drop_ge by done. apply take_nil. Qed.

Lemma slice_nonempty (data : bytes) (a b : nat) :
  a < length data → a < b → ∃ x l, slice data a b = x :: l.
Proof.
  intros Ha Hb. unfold slice.
  destruct (drop a data) as [|x l] eqn:E.
  - apply (f_equal length) in E. rewrite length_drop in E. simpl in E. lia.
  - destruct (b - a) as [|n] eqn:En; [lia|]. simpl. eauto.
Qed.

Lemma length_slice (data : bytes) (a b : nat) :
  a ≤ b → b ≤ length data → length (slice data a b) = b - a.
Proof. intros Ha Hb. unfold slice. rewrite length_take, length_drop. lia. Qed.

Lemma index_from_ge (c : ascii) (data : bytes) (i j : nat) :
  index_from c data i = Some j → i ≤ j.
Proof.
  unfold index_from. destruct (find_byte c (drop i data)); simpl; [|done].
  intros [= <-]. lia.
Qed.

Lemma find_byte_lookup (c : ascii) (l : bytes) (j : nat) :
  find_byte c l = Some j → l !! j = Some c.
Proof.
  revert j. induction l as [|x l IH]; intros j; simpl; [done|].
  destruct (decide (x = c)) as [->|].
  - by intros [= <-].
  - destruct (find_byte c l) as [j'|]; simpl; [|done].
    intros [= <-]. simpl. by apply IH.
Qed.

Lemma index_from_lookup (c : ascii) (data : bytes) (i j : nat) :
  index_from c data i = Some j → data !! j = Some c.
Proof.
  unfold index_from. destruct (find_byte c (drop i data)) as [k|] eqn:E; simpl; [|done].
  intros [= <-]. apply find_byte_lookup in E. by rewrite lookup_drop in E.
Qed.

(** ** Progress, fuel and capture independence of the decoder *)

Section loop_facts.
Context (data : bytes) (rec : nat → bool → result decoded).
Hypothesis rec_progress :
  ∀ i c v i' s, rec i c = Ok (v, i', s) → i < length data ∧ i < i'.
Hypothesis rec_fuel : ∀ i c, rec i c ≠ Raise OutOfFuel.

Lemma list_loop_progress cap fuel i lst info v i' s :
  list_loop data rec cap fuel i lst info = Ok (v, i', s) → i < i'.
Proof.
  revert i lst info. induction fuel as [|fuel IH]; intros i lst info; simpl;
    (destruct (decide _); [intros [= <- <- <-]; lia|]);
    destruct (rec i cap) as [[[v1 i1] s1]|e] eqn:E; try done.
  intros H. apply IH in H. apply rec_progress in E. lia.
Qed.

Lemma list_loop_fuel cap fuel i lst info :
  length data ≤ fuel + i →
  list_loop data rec cap fuel i lst info ≠ Raise OutOfFuel.
Proof.
  revert i lst info. induction fuel as [|fuel IH]; intros i lst info Hf; simpl;
    (destruct (decide _); [done|]);
    destruct (rec i cap) as [[[v1 i1] s1]|e] eqn:E;
    try (intros [= ->]; by eapply rec_fuel).
  - apply rec_progress in E. lia.
  - apply rec_progress in E. apply IH. lia.
Qed.

Lemma dict_loop_progress cap fuel i d info v i' s :
  dict_loop data rec cap fuel i d info = Ok (v, i', s) → i < i'.
Proof.
  revert i d info. induction fuel as [|fuel IH]; intros i d info; simpl;
    (destruct (decide _); [intros [= <- <- <-]; lia|]);
    destruct (rec i false) as [[[[] i1] s1]|e] eqn:E; try done;
    destruct (cap && bool_decide _);
    match goal with |- context [rec i1 ?c] =>
      destruct (rec i1 c) as [[[v2 i2] s2]|e] eqn:E2 end; try done.
  all: intros H; apply IH in H; apply rec_progress in E, E2; lia.
Qed.

Lemma dict_loop_fuel cap fuel i d info :
  length data ≤ fuel + i →
  dict_loop data rec cap fuel i d info ≠ Raise OutOfFuel.
Proof.
  revert i d info. induction fuel as [|fuel IH]; intros i d info Hf; simpl;
    (destruct (decide _); [done|]);
    destruct (rec i false) as [[[[] i1] s1]|e] eqn:E;
    try done; try (intros [= ->]; by eapply rec_fuel);
    destruct (cap && bool_decide _);
    match goal with |- context [rec i1 ?c] =>
      destruct (rec i1 c) as [[[v2 i2] s2]|e] eqn:E2 end;
    try (intros [= ->]; by eapply rec_fuel);
    apply rec_progress in E, E2; try lia.
  all: apply IH; lia.
Qed.
End loop_facts.

Lemma _bdecode_progress depth data i cap v i' s :
  _bdecode depth data i cap = Ok (v, i', s) → i < length data ∧ i < i'.
Proof.
  revert i cap v i' s. induction depth as [|depth IH]; intros i cap v i' s; simpl; [done|].
  destruct (decide (length data ≤ i)); [done|].
  repeat (destruct (decide _)).
  - destruct (index_from _ _ _) as [j|] eqn:Ej; [|done].
    destruct (int_of_bytes _); [|done]. intros [= <- <- <-].
    apply index_from_ge in Ej. lia.
  - intros H. apply list_loop_progress in H; [lia|]. exact IH.
  - intros H. apply dict_loop_progress in H; [lia|]. exact IH.
  - destruct (_ && _); [|done].
    destruct (index_from _ _ _) as [j|] eqn:Ej; [|done].
    destruct (int_of_bytes _); [|done]. intros [= <- <- <-].
    apply index_from_ge in Ej. lia.
Qed.

Lemma _bdecode_never_out_of_fuel depth data i cap :
  _bdecode depth data i cap ≠ Raise OutOfFuel.
Proof.
  revert i cap. induction depth as [|depth IH]; intros i cap; simpl; [done|].
  destruct (decide (length data ≤ i)); [done|].
  repeat (destruct (decide _)).
  - destruct (index_from _ _ _); [|done]. by destruct (int_of_bytes _).
  - apply list_loop_fuel; [apply _bdecode_progress | exact IH | lia].
  - apply dict_loop_fuel; [apply _bdecode_progress | exact IH | lia].
  - destruct (_ && _); [|done].
    destruct (index_from _ _ _); [|done]. by destruct (int_of_bytes _).
Qed.

Lemma _bdecode_ok_not_e depth data i cap v i' s :
  _bdecode depth data i cap = Ok (v, i', s) → slice data i (i + 1) ≠ B "e".
Proof.
  destruct depth as [|depth]; simpl; [done|].
  destruct (decide (length data ≤ i)); [done|].
  repeat (destruct (decide _) as [->|]); try done.
  destruct (_ && _) eqn:E; [|done]. intros _ He. rewrite He in E. done.
Qed.

(** A list or a dictionary is only ever returned with its end offset inside
    the buffer. *)
Lemma list_loop_in_bounds data rec cap fuel i lst info v i' s :
  list_loop data rec cap fuel i lst info = Ok (v, i', s) → i' ≤ length data.
Proof.
  revert i lst info. induction fuel as [|fuel IH]; intros i lst info; simpl;
    (destruct (decide _) as [He|];
     [intros [= <- <- <-]; destruct (decide (length data ≤ i)) as [Hl|]; [|lia];
      rewrite slice_one_ge in He by done; done|]);
    destruct (rec i cap) as [[[v1 i1] s1]|e]; try done.
  apply IH.
Qed.

Lemma list_loop_is_list data rec cap fuel i lst info v i' s :
  list_loop data rec cap fuel i lst info = Ok (v, i', s) → ∃ l, v = VList l.
Proof.
  revert i lst info. induction fuel as [|fuel IH]; intros i lst info; simpl;
    (destruct (decide _); [intros [= <- <- <-]; by eauto|]);
    destruct (rec i cap) as [[[v1 i1] s1]|e]; try done.
  apply IH.
Qed.

Lemma dict_loop_in_bounds data rec cap fuel i d info v i' s :
  dict_loop data rec cap fuel i d info = Ok (v, i', s) →
  i' ≤ length data ∧ ∃ d', v = VDict d'.
Proof.
  revert i d info. induction fuel as [|fuel IH]; intros i d info; simpl;
    (destruct (decide _) as [He|];
     [intros [= <- <- <-]; split; [|by eauto];
      destruct (decide (length data ≤ i)) as [Hl|]; [|lia];
      rewrite slice_one_ge in He by done; done|]);
    destruct (rec i false) as [[[[] i1] s1]|e]; try done;
    destruct (cap && bool_decide _);
    match goal with |- context [rec i1 ?c] =>
      destruct (rec i1 c) as [[[v2 i2] s2]|e] end; try done.
  all: apply IH.
Qed.

(** ** Dictionaries *)

Lemma dict_get_set_eq k v (d : dict) : dict_get k (dict_set k v d) = Some v.
Proof.
  induction d as [|[k' v'] d IH]; simpl.
  - by rewrite decide_True.
  - destruct (decide (k' = k)) as [->|Hne]; simpl.
    + by rewrite decide_True.
    + by rewrite decide_False.
Qed.

Lemma dict_get_set_ne k k' v (d : dict) :
  k ≠ k' → dict_get k' (dict_set k v d) = dict_get k' d.
Proof.
  intros Hne. induction d as [|[k0 v0] d IH]; simpl.
  - by rewrite decide_False.
  - destruct (decide (k0 = k)) as [->|Hne0]; simpl.
    + by rewrite !decide_False.
    + destruct (decide (k0 = k')); [done|]. exact IH.
Qed.

(** ** The byte region of [info] *)

Section info_span.
Context (data : bytes) (rec : nat → bool → result decoded).
Hypothesis rec_progress :
  ∀ i c v i' s, rec i c = Ok (v, i', s) → i < length data ∧ i < i'.

Lemma dict_loop_span fuel i d info d' i' info' :
  span_inv data rec d info i →
  dict_loop data rec true fuel i d info = Ok (VDict d', i', info') →
  span_inv data rec d' info' i' ∧ i' ≤ length data.
Proof.
  revert i d info. induction fuel as [|fuel IH]; intros i d info Hinv; simpl;
    (destruct (decide _) as [He|Hne];
     [intros [= <- <- <-]; split;
      [intros v Hv; destruct (Hinv v Hv) as (a & b & s' & ? & ? & ? & ? & ?);
       exists a, b, s'; repeat split; try done; lia
      |destruct (decide (length data ≤ i)) as [Hl|]; [|lia];
       rewrite slice_one_ge in He by done; done]|]);
    destruct (rec i false) as [[[[z|k|l|dd] i1] s1]|e] eqn:E; try done;
    (destruct (bool_decide (k = B "info")) eqn:Ek; simpl;
     [apply bool_decide_eq_true in Ek as ->|apply bool_decide_eq_false in Ek]);
    match goal with |- context [rec i1 ?c] =>
      destruct (rec i1 c) as [[[v2 i2] s2]|e] eqn:E2 end; try done.
  all: pose proof (rec_progress _ _ _ _ _ E) as [? ?];
    pose proof (rec_progress _ _ _ _ _ E2) as [? ?].
  - apply IH. intros v. rewrite dict_get_set_eq. intros [= <-].
    exists i1, i2, s2. repeat split; try done.
  - apply IH. intros v. rewrite dict_get_set_ne by done. intros Hv.
    destruct (Hinv v Hv) as (a & b & s' & -> & ? & ? & ? & ?).
    exists a, b, s'. repeat split; try done; [|lia].
    destruct (slice_nonempty data a b) as (x & l & ->); done.
Qed.
End info_span.

(** C2. When decoding a buffer with capture enabled returns a dictionary
    that has the key [info], the captured span is the slice
    [data[start:end]] of the original buffer, where decoding at [start]
    returns the value stored under [info] and [end] as the next offset; the
    region lies inside the buffer, so the span has exactly [end - start]
    bytes. *)
Theorem info_span_is_original_bytes depth data d i' span v :
  _bdecode (S depth) data 0 true = Ok (VDict d, i', span) →
  dict_get (B "info") d = Some v →
  ∃ start end_ s',
    span = Some (slice data start end_)
    ∧ start < end_ ∧ end_ ≤ length data
    ∧ length (slice data start end_) = end_ - start
    ∧ _bdecode depth data start false = Ok (v, end_, s').
Proof.
  simpl. destruct (decide (length data ≤ 0)); [done|].
  repeat (destruct (decide _)).
  - destruct (index_from _ _ _); [|done]. by destruct (int_of_bytes _).
  - intros H. by apply list_loop_is_list in H as [l [=]].
  - intros H Hv.
    apply dict_loop_span in H as [Hinv Hle].
    + destruct (Hinv v Hv) as (a & b & s' & ? & ? & ? & ? & ?).
      exists a, b, s'. repeat split; try done; [lia|].
      apply length_slice; lia.
    + apply _bdecode_progress.
    + intros v0. done.
  - destruct (_ && _); [|done].
    destruct (index_from _ _ _); [|done]. by destruct (int_of_bytes _).
Qed.

Lemma info_span_is_original_bytes_witness :
  ∃ start end_ s',
    Some (B "d4:name1:xe") = Some (slice (B "d4:infod4:name1:xe1:ali1eee") start end_)
    ∧ start < end_ ∧ end_ ≤ length (B "d4:infod4:name1:xe1:ali1eee")
    ∧ length (slice (B "d4:infod4:name1:xe1:ali1eee") start end_) = end_ - start
    ∧ _bdecode 2 (B "d4:infod4:name1:xe1:ali1eee") start false
      = Ok (VDict [(B "name", VBytes (B "x"))], end_, s').
Proof.
  apply (info_span_is_original_bytes 2 (B "d4:infod4:name1:xe1:ali1eee")
           [(B "info", VDict [(B "name", VBytes (B "x"))]); (B "a", VList [VInt 1])]
           27 (Some (B "d4:name1:xe")) (VDict [(B "name", VBytes (B "x"))]));
    reflexivity.
Defined.

(** ** Integer items *)

Lemma find_byte_app c (s rest : bytes) :
  c ∉ s → find_byte c (s ++ c :: rest) = Some (length s).
Proof.
  induction s as [|x s IH]; simpl; intros Hc.
  - by rewrite decide_True.
  - rewrite decide_False by (intros ->; apply Hc; left).
    rewrite IH; [done|]. intros ?. apply Hc. by right.
Qed.

Lemma int_digits_digits (ds : bytes) (acc : Z) :
  forallb is_digit ds = true →
  int_digits acc false ds = Some (fold_left (λ a c, (10 * a + digit_val c)%Z) ds acc).
Proof.
  revert acc. induction ds as [|c ds IH]; intros acc; simpl; [done|].
  intros [Hc Hds]%andb_prop. rewrite Hc. by apply IH.
Qed.

Lemma int_of_bytes_head (c : ascii) (s : bytes) :
  is_digit c = true →
  int_of_bytes (c :: s)
  = (if (max_str_digits <? count_digits (c :: s))%Z then None
     else int_digits 0 false (c :: s))
  ∧ int_of_bytes ("-"%char :: c :: s)
    = (if (max_str_digits <? count_digits (c :: s))%Z then None
       else Z.opp <$> int_digits 0 false (c :: s)).
Proof.
  intros Hc.
  destruct c as [[] [] [] [] [] [] [] []]; try (by vm_compute in Hc);
    cbv -[int_digits count_digits max_str_digits Z.ltb];
    destruct (_ <? _)%Z; try done; destruct (int_digits _ _ _); done.
Qed.

Lemma count_digits_all (ds : bytes) :
  forallb is_digit ds = true → count_digits ds = Z.of_nat (length ds).
Proof.
  induction ds as [|c ds IH]; [done|]. cbn [forallb count_digits length].
  intros [Hc Hds]%andb_prop. rewrite Hc, IH by done. lia.
Qed.

(** [int] on a non-empty run of digits, with or without a sign: the value
    of the run when it is within the limit, [ValueError] beyond. *)
Lemma int_of_bytes_digits (ds : bytes) :
  ds ≠ [] → forallb is_digit ds = true →
  int_of_bytes ds
  = (if (Z.of_nat (length ds) <=? max_str_digits)%Z
     then Some (fold_left (λ a c, (10 * a + digit_val c)%Z) ds 0%Z) else None)
  ∧ int_of_bytes ("-"%char :: ds)
    = (if (Z.of_nat (length ds) <=? max_str_digits)%Z
       then Some (- fold_left (λ a c, (10 * a + digit_val c)%Z) ds 0)%Z else None).
Proof.
  intros Hne Hds. destruct ds as [|c ds]; [done|].
  pose proof Hds as [Hc _]%andb_prop.
  destruct (int_of_bytes_head c ds Hc) as [-> ->].
  rewrite (count_digits_all _ Hds), (int_digits_digits _ _ Hds).
  rewrite Z.ltb_antisym. by destruct (_ <=? _)%Z.
Qed.

Lemma int_digits_nonneg (s : bytes) : ∀ acc p n,
  (0 ≤ acc)%Z → int_digits acc p s = Some n → (0 ≤ n)%Z.
Proof.
  induction s as [|c s IH]; intros acc p n Hacc; simpl.
  - destruct p; [done|]. by intros [= <-].
  - destruct (is_digit c) eqn:Hc.
    + apply IH. unfold is_digit in Hc. apply andb_prop in Hc as [Hc _].
      apply Nat.leb_le in Hc. unfold digit_val. lia.
    + destruct (decide _); destruct p; try done; [by apply IH|].
      destruct (_ && _); [|done]. by intros [= <-].
Qed.

(** The length prefix of a byte string, which starts with a digit, is never
    negative. *)
Lemma string_length_nonneg (c : ascii) (s : bytes) (n : Z) :
  is_digit c = true → int_of_bytes (c :: s) = Some n → (0 ≤ n)%Z.
Proof.
  intros Hc. rewrite (proj1 (int_of_bytes_head c s Hc)).
  destruct (_ <? _)%Z; [done|]. by apply int_digits_nonneg.
Qed.

Lemma digit_not_e (ds : bytes) : forallb is_digit ds = true → "e"%char ∉ ds.
Proof.
  induction ds as [|c ds IH]; simpl; [intros _; apply not_elem_of_nil|].
  intros [Hc Hds]%andb_prop. apply not_elem_of_cons. split; [|by apply IH].
  intros <-. by vm_compute in Hc.
Qed.

Lemma _bdecode_int_item depth (pre s rest : bytes) cap :
  "e"%char ∉ s →
  _bdecode (S depth) (pre ++ B "i" ++ s ++ B "e" ++ rest) (length pre) cap
  = match int_of_bytes s with
    | Some n => Ok (VInt n, length pre + length s + 2, None)
    | None => Raise ValueError
    end.
Proof.
  intros He. change (B "i" ++ s ++ B "e" ++ rest) with ("i"%char :: s ++ "e"%char :: rest).
  simpl. rewrite decide_False by (rewrite length_app; simpl; lia).
  rewrite (proj2 (slice_one _ _ "i"%char)) by (by apply list_lookup_middle).
  rewrite decide_True by done.
  unfold index_from. rewrite drop_app_length. simpl.
  rewrite find_byte_app by done. simpl.
  assert (slice (pre ++ "i"%char :: s ++ "e"%char :: rest) (length pre + 1)
            (length pre + S (length s)) = s) as ->.
  { unfold slice.
    replace (pre ++ "i"%char :: s ++ "e"%char :: rest)
      with ((pre ++ ["i"%char]) ++ s ++ "e"%char :: rest) by (by rewrite <- app_assoc).
    rewrite drop_app_length' by (rewrite length_app; simpl; lia).
    apply take_app_length'. lia. }
  destruct (int_of_bytes s); [|done]. do 3 f_equal. lia.
Qed.

(** C6 (as the code has it). An integer item [i<digits>e] with a non-empty
    run of decimal digits, no longer than the interpreter's limit for
    [int], decodes to its decimal value, with or without a leading [-] and
    whatever the number of leading zeros; a longer run raises
    [ValueError]; and so does every item whose text between [i] and the
    first [e] is not accepted by [int].  [ValueError] is not a
    [BencodeError]. *)
Theorem int_item_lenient depth (pre ds rest : bytes) cap :
  ds ≠ [] → forallb is_digit ds = true →
  _bdecode (S depth) (pre ++ B "i" ++ ds ++ B "e" ++ rest) (length pre) cap
    = (if (Z.of_nat (length ds) <=? max_str_digits)%Z
       then Ok (VInt (digits_value ds), length pre + length ds + 2, None)
       else Raise ValueError)
  ∧ _bdecode (S depth) (pre ++ B "i" ++ (B "-" ++ ds) ++ B "e" ++ rest) (length pre) cap
    = (if (Z.of_nat (length ds) <=? max_str_digits)%Z
       then Ok (VInt (- digits_value ds), length pre + length (B "-" ++ ds) + 2, None)
       else Raise ValueError)
  ∧ ∀ s : bytes, "e"%char ∉ s → int_of_bytes s = None →
      _bdecode (S depth) (pre ++ B "i" ++ s ++ B "e" ++ rest) (length pre) cap
      = Raise ValueError.
Proof.
  intros Hne Hds.
  destruct (int_of_bytes_digits ds Hne Hds) as [Hpos Hneg].
  pose proof (digit_not_e _ Hds) as He.
  split; [|split].
  - rewrite _bdecode_int_item by done.
    rewrite Hpos. by destruct (_ <=? _)%Z.
  - rewrite _bdecode_int_item
      by (apply not_elem_of_cons; split; [by vm_compute|done]).
    change (B "-" ++ ds) with ("-"%char :: ds).
    rewrite Hneg. by destruct (_ <=? _)%Z.
  - intros s Hs Hnone. rewrite _bdecode_int_item by done. by rewrite Hnone.
Qed.

Lemma int_item_lenient_witness :
  _bdecode 1 (B "i007e") 0 false = Ok (VInt 7, 5, None)
  ∧ _bdecode 1 (B "i-007e") 0 false = Ok (VInt (-7), 6, None)
  ∧ ∀ s : bytes, "e"%char ∉ s → int_of_bytes s = None →
      _bdecode 1 (B "i" ++ s ++ B "e") 0 false = Raise ValueError.
Proof.
  apply (int_item_lenient 0 [] (B "007") [] false); [discriminate|reflexivity].
Defined.

(** A run of 4301 digits is beyond the limit: the item raises
    [ValueError]. *)
Example int_item_beyond_limit :
  _bdecode 1 (B "i" ++ replicate 4301 "1"%char ++ B "e") 0 false = Raise ValueError.
Proof. by vm_compute. Qed.

(** C6, counterexample. The specification has [i007e] rejected for its
    leading zeros and every malformed digit sequence raise a decode error
    of the decoder's own class: the code decodes [i007e] to 7, and [ie] and
    [i1-2e] raise [ValueError]. *)
Lemma int_item_leading_zeros_accepted :
  _bdecode 1 (B "i007e") 0 false = Ok (VInt 7, 5, None)
  ∧ _bdecode 1 (B "ie") 0 false = Raise ValueError
  ∧ _bdecode 1 (B "i1-2e") 0 false = Raise ValueError.
Proof. repeat split; reflexivity. Qed.

(** ** Byte-string items *)

(** Only a byte string can be returned with an end offset past the buffer;
    a list or a dictionary that encloses such an item cannot close, since
    the next item or the terminator is looked for past the buffer. *)
Lemma _bdecode_end_in_bounds depth data i cap v i' s :
  _bdecode depth data i cap = Ok (v, i', s) →
  (∀ b, v ≠ VBytes b) → i' ≤ length data.
Proof.
  destruct depth as [|depth]; simpl; [done|].
  destruct (decide (length data ≤ i)); [done|].
  repeat (destruct (decide _)).
  - destruct (index_from _ _ _) as [j|] eqn:Ej; [|done].
    destruct (int_of_bytes _); [|done]. intros [= <- <- <-] _.
    apply index_from_lookup, lookup_lt_Some in Ej. lia.
  - intros H _. by apply list_loop_in_bounds in H.
  - intros H _. by apply dict_loop_in_bounds in H as [? _].
  - destruct (_ && _); [|done].
    destruct (index_from _ _ _); [|done].
    destruct (int_of_bytes _); [|done]. intros [= <- <- <-] Hv. by destruct (Hv _ eq_refl).
Qed.

Example truncated_string_in_dict :
  _bdecode 2 (B "d1:a5:abcd") 0 true = Raise (BencodeError UnexpectedEnd).
Proof. reflexivity. Qed.

(** C3, the code at the failing input. [5:abcd] declares five bytes and
    supplies four: the decoder returns the four bytes and an end offset
    past the buffer, without raising. *)
Theorem truncated_string_returned_short depth cap :
  _bdecode (S depth) (B "5:abcd") 0 cap = Ok (VBytes (B "abcd"), 7, None)
  ∧ length (B "5:abcd") = 6.
Proof. split; reflexivity. Qed.

(** ** The capture flag does not change the value or the end offset *)

Lemma list_loop_strip data rec cap fuel i lst s1 s2 :
  (∀ i c, strip (rec i c) = strip (rec i false)) →
  strip (list_loop data rec cap fuel i lst s1)
  = strip (list_loop data rec false fuel i lst s2).
Proof.
  intros Hrec. revert i lst s1 s2.
  induction fuel as [|fuel IH]; intros i lst s1 s2; simpl;
    (destruct (decide _); [done|]);
    pose proof (Hrec i cap) as H;
    destruct (rec i cap) as [[[v1 i1] o1]|e1], (rec i false) as [[[v2 i2] o2]|e2];
    simpl in H; try done; injection H as -> ->; solve [done | apply IH].
Qed.

Lemma dict_loop_strip data rec cap fuel i d s1 s2 :
  (∀ i c, strip (rec i c) = strip (rec i false)) →
  strip (dict_loop data rec cap fuel i d s1)
  = strip (dict_loop data rec false fuel i d s2).
Proof.
  intros Hrec. revert i d s1 s2.
  induction fuel as [|fuel IH]; intros i d s1 s2; simpl;
    (destruct (decide _); [done|]);
    destruct (rec i false) as [[[[z|k|l|dd] i1] o1]|e1]; try done;
    (destruct (cap && bool_decide _);
     [destruct (rec i1 false) as [[[v2 i2] o2]|e2]; [|done]
     |pose proof (Hrec i1 cap) as H;
      destruct (rec i1 cap) as [[[v1 j1] p1]|e1], (rec i1 false) as [[[v2 i2] o2]|e2];
      simpl in H; try done; injection H as -> ->]);
    solve [done | apply IH].
Qed.

Lemma _bdecode_strip depth data i cap :
  strip (_bdecode depth data i cap) = strip (_bdecode depth data i false).
Proof.
  revert i cap. induction depth as [|depth IH]; intros i cap; simpl; [done|].
  destruct (decide (length data ≤ i)); [done|].
  repeat (destruct (decide _)); try done.
  - by apply list_loop_strip.
  - by apply dict_loop_strip.
Qed.

Lemma _bdecode_any_capture depth data i cap v i' s :
  _bdecode depth data i false = Ok (v, i', s) →
  ∃ s', _bdecode depth data i cap = Ok (v, i', s').
Proof.
  intros H. pose proof (_bdecode_strip depth data i cap) as E.
  rewrite H in E. destruct (_bdecode depth data i cap) as [[[v1 i1] o1]|e1];
    simpl in E; [|done]. injection E as -> ->. by eauto.
Qed.

(** ** Dictionaries with repeated keys *)

Lemma dict_get_fold k (es : list (bytes * Value)) (d : dict) :
  dict_get k (fold_left (λ d kv, dict_set kv.1 kv.2 d) es d)
  = match last_value k es with
    | Some v => Some v
    | None => dict_get k d
    end.
Proof.
  revert d. induction es as [|[k0 v0] es IH]; intros d; simpl; [done|].
  rewrite IH. unfold last_value. rewrite filter_cons. simpl.
  destruct (decide (k0 = k)) as [->|Hne].
  - rewrite last_cons. destruct (last _); simpl; [done|]. apply dict_get_set_eq.
  - destruct (last _); simpl; [done|]. by apply dict_get_set_ne.
Qed.

Lemma last_value_last k v (es1 es3 : list (bytes * Value)) :
  k ∉ es3.*1 → last_value k (es1 ++ (k, v) :: es3) = Some v.
Proof.
  intros Hk. unfold last_value. rewrite filter_app, filter_cons_True by done.
  assert (filter (λ kv : bytes * Value, kv.1 = k) es3 = []) as ->.
  { induction es3 as [|[k3 v3] es3 IH]; [done|].
    rewrite filter_cons_False.
    - apply IH. intros ?. apply Hk. simpl. by right.
    - simpl. intros ->. apply Hk. simpl. left. }
  by rewrite last_snoc.
Qed.

Lemma dict_loop_entries depth data cap es i iend :
  dict_entries depth data i es iend →
  ∀ fuel d info, data !! iend = Some "e"%char → length data ≤ fuel + i →
  ∃ info', dict_loop data (_bdecode depth data) cap fuel i d info
           = Ok (VDict (fold_left (λ d kv, dict_set kv.1 kv.2 d) es d), iend + 1, info').
Proof.
  induction 1 as [i|i k j s1 v i' s2 es i'' Hk Hv Hes IH]; intros fuel d info He Hf.
  - exists info. destruct fuel; simpl;
      rewrite decide_True by (by apply slice_one); done.
  - pose proof (_bdecode_progress _ _ _ _ _ _ _ Hk) as [? ?].
    pose proof (_bdecode_progress _ _ _ _ _ _ _ Hv) as [? ?].
    destruct fuel as [|fuel]; [lia|]. simpl.
    rewrite decide_False by (by eapply _bdecode_ok_not_e).
    rewrite Hk.
    destruct (cap && bool_decide _).
    + rewrite Hv. apply IH; [done|lia].
    + destruct (_bdecode_any_capture depth data j cap _ _ _ Hv) as [s' ->].
      apply IH; [done|lia].
Qed.

(** C9. A buffer that holds, after a [d], a sequence of key and value items
    closed by [e], in which a key occurs twice (and not again after the
    second occurrence), decodes successfully to a dictionary; the dictionary
    maps that key to the value of the second occurrence, and every key to
    the value of its last occurrence. *)
Theorem duplicate_key_last_wins depth data i cap es iend es1 k v1 es2 v2 es3 :
  data !! i = Some "d"%char →
  dict_entries depth data (i + 1) es iend →
  data !! iend = Some "e"%char →
  es = es1 ++ (k, v1) :: es2 ++ (k, v2) :: es3 →
  k ∉ es3.*1 →
  ∃ d span,
    _bdecode (S depth) data i cap = Ok (VDict d, iend + 1, span)
    ∧ dict_get k d = Some v2
    ∧ ∀ k', dict_get k' d = last_value k' es.
Proof.
  intros Hd Hes He Heq Hk.
  destruct (dict_loop_entries depth data cap es (i + 1) iend Hes
              (length data) [] None He ltac:(lia)) as [info' Hloop].
  eexists _, info'. split; [|split].
  - simpl. apply lookup_lt_Some in Hd as Hlt.
    rewrite decide_False by lia.
    rewrite (proj2 (slice_one _ _ "d"%char)) by done.
    rewrite decide_False by (intros Hx; by vm_compute in Hx).
    rewrite decide_False by (intros Hx; by vm_compute in Hx).
    rewrite decide_True by done. exact Hloop.
  - rewrite dict_get_fold. subst es.
    replace (es1 ++ (k, v1) :: es2 ++ (k, v2) :: es3)
      with ((es1 ++ (k, v1) :: es2) ++ (k, v2) :: es3) by (by rewrite <- app_assoc).
    by rewrite last_value_last.
  - intros k'. rewrite dict_get_fold. by destruct (last_value k' es).
Qed.

Lemma duplicate_key_last_wins_witness :
  ∃ d span,
    _bdecode 2 (B "d1:ai1e1:bi5e1:ai2ee") 0 true = Ok (VDict d, 19 + 1, span)
    ∧ dict_get (B "a") d = Some (VInt 2)
    ∧ ∀ k', dict_get k' d
            = last_value k' [(B "a", VInt 1); (B "b", VInt 5); (B "a", VInt 2)].
Proof.
  apply (duplicate_key_last_wins 1 (B "d1:ai1e1:bi5e1:ai2ee") 0 true
           [(B "a", VInt 1); (B "b", VInt 5); (B "a", VInt 2)] 19
           [] (B "a") (VInt 1) [(B "b", VInt 5)] (VInt 2) []).
  - reflexivity.
  - apply (entries_cons 1 _ 1 (B "a") 4 None (VInt 1) 7 None); [reflexivity..|].
    apply (entries_cons 1 _ 7 (B "b") 10 None (VInt 5) 13 None); [reflexivity..|].
    apply (entries_cons 1 _ 13 (B "a") 16 None (VInt 2) 19 None); [reflexivity..|].
    apply entries_nil.
  - reflexivity.
  - reflexivity.
  - apply not_elem_of_nil.
Defined.

(** ** Nesting depth *)

Lemma list_loop_eq data rec cap fuel i lst info :
  list_loop data rec cap fuel i lst info
  = if decide (slice data i (i + 1) = B "e") then Ok (VList lst, i + 1, info)
    else
      match rec i cap with
      | Raise e => Raise e
      | Ok (v, i', info_sub) =>
          match fuel with
          | 0 => Raise OutOfFuel
          | S fuel' => list_loop data rec cap fuel' i' (lst ++ [v]) (bytes_or info info_sub)
          end
      end.
Proof. by destruct fuel. Qed.

Lemma _bdecode_nested n : ∀ depth (pre post : bytes) cap,
  _bdecode depth (pre ++ replicate (S n) "l"%char ++ replicate (S n) "e"%char ++ post)
    (length pre) cap
  = if decide (n < depth) then Ok (nest n, length pre + 2 * S n, None)
    else Raise RecursionError.
Proof.
  induction n as [|n IH]; intros depth pre post cap;
    (destruct depth as [|depth]; [by rewrite decide_False by lia|]).
  - rewrite decide_True by lia. simpl.
    rewrite decide_False by (rewrite length_app; simpl; lia).
    rewrite (proj2 (slice_one _ _ "l"%char)) by (by apply list_lookup_middle).
    rewrite decide_False by (intros Hx; by vm_compute in Hx).
    rewrite decide_True by done.
    rewrite list_loop_eq.
    rewrite decide_True.
    + do 3 f_equal. lia.
    + apply slice_one. replace (pre ++ "l"%char :: "e"%char :: post)
        with ((pre ++ ["l"%char]) ++ "e"%char :: post) by (by rewrite <- app_assoc).
      apply list_lookup_middle. rewrite length_app. simpl. lia.
  - set (data := pre ++ _).
    assert (data = (pre ++ ["l"%char]) ++ replicate (S n) "l"%char
                     ++ replicate (S n) "e"%char ++ ("e"%char :: post)) as Hdata.
    { unfold data. rewrite (replicate_S_end (S n) "e"%char).
      change (replicate (S (S n)) "l"%char) with ("l"%char :: replicate (S n) "l"%char).
      rewrite <- !app_assoc. done. }
    assert (length pre < length data) as Hlen
      by (unfold data; rewrite length_app; simpl; lia).
    assert (data !! length pre = Some "l"%char) as Hl
      by (by apply list_lookup_middle).
    assert (data !! (length pre + 1) = Some "l"%char) as Hl2.
    { rewrite Hdata. apply list_lookup_middle. rewrite length_app. simpl. lia. }
    assert (data !! (length pre + 1 + 2 * S n) = Some "e"%char) as He.
    { rewrite Hdata. rewrite !app_assoc. apply list_lookup_middle.
      rewrite !length_app, !length_replicate. simpl. lia. }
    pose proof (IH depth (pre ++ ["l"%char]) ("e"%char :: post) cap) as Hrec.
    rewrite <- Hdata in Hrec.
    replace (length (pre ++ ["l"%char])) with (length pre + 1) in Hrec
      by (rewrite length_app; simpl; lia).
    simpl. fold data.
    rewrite decide_False by lia.
    rewrite (proj2 (slice_one _ _ "l"%char)) by done.
    rewrite decide_False by (intros Hx; by vm_compute in Hx).
    rewrite decide_True by done.
    rewrite list_loop_eq.
    rewrite (proj2 (slice_one _ _ "l"%char)) by done.
    rewrite decide_False by (intros Hx; by vm_compute in Hx).
    rewrite Hrec. destruct (decide (n < depth)).
    + rewrite decide_True by lia.
      destruct (length data) as [|fuel] eqn:Hfuel; [lia|].
      rewrite list_loop_eq.
      rewrite decide_True by (by apply slice_one).
      simpl. do 3 f_equal. lia.
    + by rewrite decide_False by lia.
Qed.

(** C8 (as the code has it). The decoder has no nesting bound of its own.
    [n + 1] lists nested in one another decode to the nested value whenever
    more than [n] interpreter frames are available, for every [n]; with
    fewer frames the call raises [RecursionError], which is not a
    [BencodeError].  The function of the model is total, and its bounded
    loops never run out of iterations. *)
Theorem no_decoder_depth_bound n depth cap :
  _bdecode depth (nested n) 0 cap
  = (if decide (n < depth) then Ok (nest n, 2 * S n, None) else Raise RecursionError)
  ∧ ∀ data i, _bdecode depth data i cap ≠ Raise OutOfFuel.
Proof.
  split.
  - pose proof (_bdecode_nested n depth [] [] cap) as H.
    rewrite app_nil_r in H. exact H.
  - intros data i. apply _bdecode_never_out_of_fuel.
Qed.

(** C8, counterexample. No bound exists beyond which every nested input is
    rejected with a decode error: for every candidate bound a deeper input
    decodes successfully; and when the frames run out the outcome is
    [RecursionError]. *)
Lemma depth_bound_absent :
  (¬ ∃ bound, ∀ n depth, bound < n →
       ∃ m, _bdecode depth (nested n) 0 false = Raise (BencodeError m))
  ∧ _bdecode 4 (B "lllleeee") 0 false = Ok (nest 3, 8, None)
  ∧ _bdecode 3 (B "lllleeee") 0 false = Raise RecursionError.
Proof.
  split; [|split; reflexivity].
  intros [bound H]. destruct (H (S bound) (S (S bound)) ltac:(lia)) as [m Hm].
  assert (_bdecode (S (S bound)) (nested (S bound)) 0 false
          = Ok (nest (S bound), 2 * S (S bound), None)) as E.
  { pose proof (_bdecode_nested (S bound) (S (S bound)) [] [] false) as E.
    rewrite app_nil_r in E. rewrite decide_True in E by lia. exact E. }
  rewrite E in Hm. done.
Qed.

(** ** The infohash *)

(** C1. When decoding the file returns a dictionary, the deriver returns
    that dictionary with: no infohash when no span was captured; otherwise
    the tag [btmh:] followed by ["1220"] and the SHA-256 hex digest of the
    span when the top-level [info] is a dictionary whose [meta version] is
    the integer 2, and the tag [btih:] followed by the SHA-1 hex digest of
    the span in every other case. *)
Theorem infohash_classification sha1_hexdigest sha256_hexdigest depth raw stem
    val idx span :
  _bdecode depth raw 0 true = Ok (VDict val, idx, span) →
  ∃ ih name,
    decode_torrent_and_infohash sha1_hexdigest sha256_hexdigest depth raw stem
    = Ok (val, ih, name)
    ∧ (span = None → ih = None)
    ∧ ∀ sl, span = Some sl →
        (meta_version_2 val → ih = Some ("btmh:" +:+ "1220" +:+ sha256_hexdigest sl))
        ∧ (¬ meta_version_2 val → ih = Some ("btih:" +:+ sha1_hexdigest sl)).
Proof.
  intros H. unfold decode_torrent_and_infohash. rewrite H.
  destruct span as [sl|].
  - eexists _, _. split; [reflexivity|]. split; [done|].
    intros ? [= <-]. unfold meta_version_2. split.
    + intros (info & -> & ->). by rewrite bool_decide_eq_true_2.
    + intros Hno.
      destruct (dict_get (B "info") val) as [[| | |info]|]; try done.
      destruct (dict_get (B "meta version") info) as [[n| | |]|] eqn:E; try done.
      destruct (bool_decide (n = 2%Z)) eqn:En; [|done].
      apply bool_decide_eq_true in En as ->. exfalso. apply Hno. by eauto.
  - eexists _, _. split; [reflexivity|]. split; [done|]. intros ? [=].
Qed.

Lemma infohash_classification_witness :
  ∃ ih name,
    decode_torrent_and_infohash (λ _, "sha1") (λ _, "sha256") 3
      (B "d4:infod12:meta versioni2eee") "x"
    = Ok ([(B "info", VDict [(B "meta version", VInt 2)])], ih, name)
    ∧ (Some (B "d12:meta versioni2ee") = None → ih = None)
    ∧ ∀ sl, Some (B "d12:meta versioni2ee") = Some sl →
        (meta_version_2 [(B "info", VDict [(B "meta version", VInt 2)])]
         → ih = Some ("btmh:" +:+ "1220" +:+ "sha256"))
        ∧ (¬ meta_version_2 [(B "info", VDict [(B "meta version", VInt 2)])]
           → ih = Some ("btih:" +:+ "sha1")).
Proof.
  apply (infohash_classification (λ _, "sha1"%string) (λ _, "sha256"%string) 3
           (B "d4:infod12:meta versioni2eee") "x"
           [(B "info", VDict [(B "meta version", VInt 2)])] 28
           (Some (B "d12:meta versioni2ee"))).
  reflexivity.
Defined.

(** ** The matcher *)

Lemma find_first_sat {A} (p : A → bool) (l : list A) (t : A) :
  first_sat p l t → find p l = Some t.
Proof.
  intros (n & Hn & Hp & Hbefore). revert n Hn Hbefore.
  induction l as [|x l IH]; intros n Hn Hbefore; [done|].
  destruct n as [|n]; simpl in *.
  - injection Hn as ->. by rewrite Hp.
  - rewrite (Hbefore 0 x) by (done || lia).
    apply (IH n); [done|]. intros m t' Hm Hl. apply (Hbefore (S m) t'); [lia|done].
Qed.

Lemma find_none_sat {A} (p : A → bool) (l : list A) :
  none_sat p l → find p l = None.
Proof.
  intros Hnone. induction l as [|x l IH]; simpl; [done|].
  rewrite (Hnone x) by left. apply IH. intros t Ht. apply Hnone. by right.
Qed.

(** C7. The matcher returns the first record, in collection order, that
    satisfies tier 1 if there is one; otherwise the first that satisfies
    tier 2 if there is one; otherwise the first that satisfies tier 3 if
    there is one; otherwise nothing.  An exact match is returned even when
    an earlier record satisfies tier 2. *)
Theorem matcher_tier_precedence (lower : string → string) name torrents :
  (∀ t, first_sat (tier1 lower (lower name)) torrents t →
        match_movie_to_torrent lower name torrents = Some t)
  ∧ (∀ t, none_sat (tier1 lower (lower name)) torrents →
          first_sat (tier2 lower (lower name)) torrents t →
          match_movie_to_torrent lower name torrents = Some t)
  ∧ (∀ t, none_sat (tier1 lower (lower name)) torrents →
          none_sat (tier2 lower (lower name)) torrents →
          first_sat (tier3 lower (lower name)) torrents t →
          match_movie_to_torrent lower name torrents = Some t)
  ∧ (none_sat (tier1 lower (lower name)) torrents →
     none_sat (tier2 lower (lower name)) torrents →
     none_sat (tier3 lower (lower name)) torrents →
     match_movie_to_torrent lower name torrents = None).
Proof.
  unfold match_movie_to_torrent. repeat split.
  - intros t H1. by rewrite (find_first_sat _ _ _ H1).
  - intros t H1 H2. by rewrite (find_none_sat _ _ H1), (find_first_sat _ _ _ H2).
  - intros t H1 H2 H3.
    by rewrite (find_none_sat _ _ H1), (find_none_sat _ _ H2), (find_first_sat _ _ _ H3).
  - intros H1 H2 H3.
    by rewrite (find_none_sat _ _ H1), (find_none_sat _ _ H2), (find_none_sat _ _ H3).
Qed.

Lemma matcher_tier_precedence_witness :
  tier2 ascii_lower (ascii_lower "Movie Name")
    {| path := "a.torrent"; display_name := Some "Movie Name Extended";
       infohash := None; magnet := None; files := ∅ |} = true
  ∧ match_movie_to_torrent ascii_lower "Movie Name"
      [ {| path := "a.torrent"; display_name := Some "Movie Name Extended";
           infohash := None; magnet := None; files := ∅ |};
        {| path := "b.torrent"; display_name := Some "Movie Name";
           infohash := None; magnet := None; files := ∅ |} ]
    = Some {| path := "b.torrent"; display_name := Some "Movie Name";
              infohash := None; magnet := None; files := ∅ |}.
Proof.
  split; [reflexivity|].
  apply (proj1 (matcher_tier_precedence ascii_lower "Movie Name" _)).
  exists 1. split; [reflexivity|]. split; [reflexivity|].
  intros m t' Hm Hl. destruct m as [|m]; [|lia].
  injection Hl as <-. reflexivity.
Defined.

(** ** The file set *)

Lemma Value_ind' (P : Value → Prop) :
  (∀ n, P (VInt n)) → (∀ b, P (VBytes b)) →
  (∀ l, Forall P l → P (VList l)) →
  (∀ d, Forall (λ kv, P kv.2) d → P (VDict d)) →
  ∀ v, P v.
Proof.
  intros Hi Hb Hl Hd. fix IH 1. intros [n|b|l|d].
  - apply Hi.
  - apply Hb.
  - apply Hl. induction l as [|x l IHl]; constructor; [apply IH|exact IHl].
  - apply Hd. induction d as [|[k x] d IHd]; constructor; [apply IH|exact IHd].
Qed.

Section walk_facts.
Context (path_join : string → string → string) (join_frames : string → string → nat).

Lemma walk_cons depth k v (rest : dict) prefix names :
  walk path_join join_frames (S depth) ((k, v) :: rest) prefix names
  = match empty_key_in v with
    | Raise e => Raise e
    | Ok true =>
        walk path_join join_frames (S depth) rest prefix ({[decode_ignore k]} ∪ names)
    | Ok false =>
        match v with
        | VDict _ =>
            if decide (depth < join_frames prefix (decode_ignore k))
            then Raise RecursionError
            else
              match walk_value path_join join_frames depth v
                      (path_join prefix (decode_ignore k)) names with
              | Raise e => Raise e
              | Ok names' => walk path_join join_frames (S depth) rest prefix names'
              end
        | _ => walk path_join join_frames (S depth) rest prefix names
        end
    end.
Proof. reflexivity. Qed.

Lemma walk_no_frame (tree : dict) prefix names :
  walk path_join join_frames 0 tree prefix names = Raise RecursionError.
Proof. reflexivity. Qed.

Lemma walk_value_mono v : ∀ depth prefix names r,
  walk_value path_join join_frames depth v prefix names = Ok r → names ⊆ r.
Proof.
  induction v as [n|b|l _|d IHd] using Value_ind';
    try (by intros depth prefix names r [= <-]).
  intros [|depth] prefix; [done|].
  change (∀ names r, walk path_join join_frames (S depth) d prefix names = Ok r
                     → names ⊆ r).
  induction IHd as [|[k v] rest Hv _ IH]; intros names r.
  - by intros [= <-].
  - rewrite walk_cons. simpl in Hv.
    destruct (empty_key_in v) as [[]|]; [| |done].
    + intros H%IH. set_solver.
    + destruct v as [| | |d0]; try apply IH.
      destruct (decide _); [done|].
      destruct (walk_value _ _ depth (VDict d0) _ names) as [names'|] eqn:E; [|done].
      intros H%IH. apply Hv in E. set_solver.
Qed.

Lemma walk_bytes_entry (k b : bytes) (tree : dict) : ∀ depth prefix names r,
  (k, VBytes b) ∈ tree →
  walk path_join join_frames depth tree prefix names = Ok r → decode_ignore k ∈ r.
Proof.
  intros [|depth] prefix; [done|].
  induction tree as [|[k0 v0] rest IH]; intros names r Hin.
  - by apply elem_of_nil in Hin.
  - rewrite walk_cons. apply elem_of_cons in Hin as [[= <- <-]|Hin].
    + simpl. intros H%walk_value_mono. set_solver.
    + destruct (empty_key_in v0) as [[]|]; [| |done].
      * by apply IH.
      * destruct v0 as [| | |d0]; try (by apply IH).
        destruct (decide _); [done|].
        destruct (walk_value _ _ depth (VDict d0) _ names) as [names'|]; [|done].
        by apply IH.
Qed.
End walk_facts.

(** C10. In the file-tree walk the test for the empty key succeeds on
    every byte string, so an entry whose value is a byte string has its key
    added to the set of names, like a file leaf: the walk of such an entry
    continues with the key added; whenever the walk of a tree that holds
    such an entry returns, the returned set contains the key; and so does
    the set returned by [torrent_file_list] when that tree is the
    [file tree] of [info]. *)
Theorem bytes_valued_key_added path_join join_frames depth prefix
    (k b : bytes) (tree : dict) (names : gset string) :
  empty_key_in (VBytes b) = Ok true
  ∧ (∀ rest, walk path_join join_frames depth ((k, VBytes b) :: rest) prefix names
             = walk path_join join_frames depth rest prefix
                 ({[decode_ignore k]} ∪ names))
  ∧ (∀ r, (k, VBytes b) ∈ tree →
          walk path_join join_frames depth tree prefix names = Ok r →
          decode_ignore k ∈ r)
  ∧ ∀ torrent_dict info r,
      (k, VBytes b) ∈ tree →
      dict_get (B "info") torrent_dict = Some (VDict info) →
      dict_get (B "file tree") info = Some (VDict tree) →
      torrent_file_list path_join join_frames depth torrent_dict = Ok r →
      decode_ignore k ∈ r.
Proof.
  split; [done|]. split; [by destruct depth|].
  split; [intros r; apply (walk_bytes_entry _ _ k b)|].
  intros torrent_dict info r Hin Hinfo Htree. unfold torrent_file_list.
  rewrite Hinfo, Htree. by apply (walk_bytes_entry _ _ k b).
Qed.

Lemma bytes_valued_key_added_witness :
  empty_key_in (VBytes (B "x")) = Ok true
  ∧ (∀ rest, walk (λ p k, p +:+ "/" +:+ k) (λ _ _, 5) 8
               ((B "a.txt", VBytes (B "x")) :: rest) EmptyString ∅
             = walk (λ p k, p +:+ "/" +:+ k) (λ _ _, 5) 8 rest EmptyString
                 ({[decode_ignore (B "a.txt")]} ∪ ∅))
  ∧ decode_ignore (B "a.txt")
    ∈ ({["a.txt"%string]} ∪ ({["b"%string]} ∪ ∅) : gset string).
Proof.
  destruct (bytes_valued_key_added (λ p k, p +:+ "/" +:+ k) (λ _ _, 5) 8 EmptyString
              (B "a.txt") (B "x")
              [(B "b", VDict [([], VDict [])]); (B "a.txt", VBytes (B "x"))] ∅)
    as (H1 & H2 & _ & H4).
  split; [exact H1|]. split; [exact H2|].
  apply (H4 [(B "info", VDict [(B "file tree",
               VDict [(B "b", VDict [([], VDict [])]); (B "a.txt", VBytes (B "x"))])])]
            [(B "file tree",
               VDict [(B "b", VDict [([], VDict [])]); (B "a.txt", VBytes (B "x"))])]).
  - apply elem_of_cons. right. apply elem_of_cons. by left.
  - reflexivity.
  - reflexivity.
  - reflexivity.
Defined.

(** C5, the code at the failing input. The file
    [d4:infod9:file treed1:ai5eeee] decodes to a torrent whose file tree
    maps the key [a] to the integer 5; the membership test on the integer
    raises [TypeError], nothing in [torrent_file_list] catches it, and
    [load_torrents] drops the whole record. *)
Theorem file_tree_int_value_raises sha1_hexdigest sha256_hexdigest lower
    path_join join_frames depth p stem :
  _bdecode 4 (B "d4:infod9:file treed1:ai5eeee") 0 true
  = Ok (VDict [(B "info", VDict [(B "file tree", VDict [(B "a", VInt 5)])])], 29,
        Some (B "d9:file treed1:ai5eee"))
  ∧ torrent_file_list path_join join_frames (S depth)
      [(B "info", VDict [(B "file tree", VDict [(B "a", VInt 5)])])]
    = Raise TypeError
  ∧ load_torrents sha1_hexdigest sha256_hexdigest lower path_join join_frames 4
      [(p, stem, B "d4:infod9:file treed1:ai5eeee")] = [].
Proof. repeat split; reflexivity. Qed.

(** ** The magnet parameters *)

Lemma NoDup_nub (l : list string) : NoDup (nub l).
Proof.
  induction l as [|x l IH]; simpl; [constructor|].
  apply NoDup_cons. split.
  - rewrite list_elem_of_filter. by intros [? _].
  - by apply NoDup_filter.
Qed.

Lemma elem_of_nub (l : list string) (x : string) : x ∈ nub l ↔ x ∈ l.
Proof.
  induction l as [|y l IH]; simpl; [done|].
  rewrite !elem_of_cons, list_elem_of_filter, IH.
  destruct (decide (x = y)); tauto.
Qed.

Lemma filter_always {A} (P : A → Prop) `{!∀ x, Decision (P x)} (l : list A) :
  (∀ x, P x) → filter P l = l.
Proof.
  intros HP. induction l as [|x l IH]; [done|].
  rewrite filter_cons_True by done. by rewrite IH.
Qed.

Lemma dedupe_spec (trackers : list bytes) : ∀ (seen : gset string) (params : list string),
  dedupe trackers seen params
  = params ++ ((λ s, "tr=" +:+ quote "/" s)
               <$> filter (λ s, s ∉ seen)
                     (nub (filter (λ s, s ≠ EmptyString) (decode_ignore <$> trackers)))).
Proof.
  induction trackers as [|t rest IH]; intros seen params; simpl.
  - by rewrite app_nil_r.
  - destruct (decide (decode_ignore t = EmptyString)) as [E|E].
    + rewrite (bool_decide_eq_false_2 (decode_ignore t ≠ EmptyString)) by tauto.
      simpl. rewrite filter_cons_False by tauto. apply IH.
    + rewrite (bool_decide_eq_true_2 (decode_ignore t ≠ EmptyString)) by done.
      rewrite filter_cons_True by done. simpl.
      destruct (decide (decode_ignore t ∈ seen)) as [Hin|Hin].
      * rewrite (bool_decide_eq_false_2 (decode_ignore t ∉ seen)) by tauto.
        rewrite filter_cons_False by tauto.
        rewrite IH, list_filter_filter. do 2 f_equal.
        apply list_filter_iff. intros x. split; [|tauto].
        intros Hx. split; [done|]. by intros ->.
      * rewrite (bool_decide_eq_true_2 (decode_ignore t ∉ seen)) by done.
        rewrite filter_cons_True by done.
        rewrite IH, list_filter_filter, fmap_cons, <- app_assoc. simpl.
        do 3 f_equal. apply list_filter_iff. intros x.
        rewrite not_elem_of_union, not_elem_of_singleton. tauto.
Qed.

(** C4 (as the code has it). For an infohash tagged [btih:] or [btmh:],
    and a tracker of [announce] that does not occur again among the leaves
    of [announce-list], the parameters are, in this order: [xt]; [dn], only
    if the display name is not empty; a [tr] for [announce] when it is a
    byte string; then one [tr] for each distinct non-empty decoded text
    among the flattened leaves of [announce-list], in the order of first
    occurrence; no tracker text is emitted twice.  A tracker is
    percent-encoded with ["/"] left as it is.  The result joins the
    parameters with [&] after [magnet:?]. *)
Theorem magnet_params_order (torrent_dict : dict) (tag id display_name : string) :
  tag = "btih:"%string ∨ tag = "btmh:"%string →
  (∀ ann ann_list,
     dict_get (B "announce") torrent_dict = Some (VBytes ann) →
     dict_get (B "announce-list") torrent_dict = Some (VList ann_list) →
     decode_ignore ann ∉ list_trackers ann_list) →
  ∃ (ann_part list_part params : list string),
    magnet_from_info torrent_dict (tag +:+ id) display_name
    = Some ("magnet:?" +:+ String.concat "&" params)
    ∧ params
      = ["xt=" +:+ quote ":" ("urn:" +:+ tag +:+ id)]
        ++ (if decide (display_name = EmptyString) then []
            else ["dn=" +:+ quote "/" display_name])
        ++ ((λ s, "tr=" +:+ quote "/" s) <$> ann_part)
        ++ ((λ s, "tr=" +:+ quote "/" s) <$> list_part)
    ∧ ann_part = match dict_get (B "announce") torrent_dict with
                 | Some (VBytes ann) => [decode_ignore ann]
                 | _ => []
                 end
    ∧ list_part = match dict_get (B "announce-list") torrent_dict with
                  | Some (VList ann_list) =>
                      nub (filter (λ s, s ≠ EmptyString) (list_trackers ann_list))
                  | _ => []
                  end
    ∧ NoDup (ann_part ++ list_part).
Proof.
  intros Htag Hann. eexists _, _, _.
  split; [|split; [reflexivity|split; [reflexivity|split; [reflexivity|]]]].
  - unfold magnet_from_info, magnet_params.
    assert (∀ ps : list string,
      match dict_get (B "announce-list") torrent_dict with
      | Some (VList ann_list) => dedupe (flat_map item_trackers ann_list) ∅ ps
      | _ => ps
      end
      = ps ++ ((λ s, "tr=" +:+ quote "/" s)
               <$> match dict_get (B "announce-list") torrent_dict with
                   | Some (VList ann_list) =>
                       nub (filter (λ s, s ≠ EmptyString) (list_trackers ann_list))
                   | _ => []
                   end)) as Hlist.
    { intros ps. destruct (dict_get (B "announce-list") torrent_dict) as [[| |al|]|];
        try (by rewrite app_nil_r).
      rewrite dedupe_spec. do 2 f_equal. unfold list_trackers.
      apply filter_always. intros x. apply not_elem_of_empty. }
    replace (magnet_xt (tag +:+ id)) with (Some ("urn:" +:+ tag +:+ id))
      by (destruct Htag as [-> | ->]; destruct id; reflexivity).
    cbv zeta. rewrite Hlist. cbn [fmap option_fmap option_map]. do 3 f_equal.
    destruct (decide (display_name = EmptyString));
      destruct (dict_get (B "announce") torrent_dict) as [[| | |]|];
      rewrite <- ?app_assoc; reflexivity.
  - assert (NoDup match dict_get (B "announce-list") torrent_dict with
                  | Some (VList ann_list) =>
                      nub (filter (λ s, s ≠ EmptyString) (list_trackers ann_list))
                  | _ => []
                  end) as Hnd.
    { destruct (dict_get (B "announce-list") torrent_dict) as [[| |al|]|];
        try constructor. apply NoDup_nub. }
    destruct (dict_get (B "announce") torrent_dict) as [[|ann| |]|]; try exact Hnd.
    simpl. apply NoDup_cons. split; [|exact Hnd].
    destruct (dict_get (B "announce-list") torrent_dict) as [[| |al|]|];
      try apply not_elem_of_nil.
    rewrite elem_of_nub, list_elem_of_filter. intros [_ Hin].
    by apply (Hann ann al).
Qed.

Lemma magnet_params_order_witness :
  ∃ (ann_part list_part params : list string),
    magnet_from_info
      [(B "announce", VBytes (B "http://t"));
       (B "announce-list", VList [VList [VBytes (B "http://a"); VBytes (B "http://b")];
                                  VList [VBytes (B "http://a")]])]
      ("btih:" +:+ "abc") "Foo Bar"
    = Some ("magnet:?" +:+ String.concat "&" params)
    ∧ params = ["xt=urn:btih:abc"; "dn=Foo%20Bar"; "tr=http%3A//t";
                "tr=http%3A//a"; "tr=http%3A//b"]%string
    ∧ ann_part = ["http://t"%string]
    ∧ list_part = ["http://a"%string; "http://b"%string]
    ∧ NoDup (ann_part ++ list_part).
Proof.
  destruct (magnet_params_order
              [(B "announce", VBytes (B "http://t"));
               (B "announce-list", VList [VList [VBytes (B "http://a"); VBytes (B "http://b")];
                                          VList [VBytes (B "http://a")]])]
              "btih:" "abc" "Foo Bar" (or_introl eq_refl))
    as (ann_part & list_part & params & H1 & H2 & H3 & H4 & H5).
  - intros ann ann_list Ha Hl. vm_compute in Ha, Hl.
    injection Ha as <-. injection Hl as <-.
    apply (bool_decide_unpack _). by vm_compute.
  - exists ann_part, list_part, params. split; [exact H1|].
    split; [rewrite H2, H3, H4; reflexivity|].
    split; [rewrite H3; reflexivity|]. split; [rewrite H4; reflexivity|exact H5].
Defined.

(** C4, counterexample. For [announce = http://a] and
    [announce-list = [[http://a], [http://b]]] the specification has
    exactly the parameters [tr=http%3A%2F%2Fa] and [tr=http%3A%2F%2Fb]; the code emits
    neither, since ["/"] is left unescaped.  (On this input, where the
    list repeats the tracker of [announce], it also emits that tracker a
    second time.) *)
Lemma tracker_example_output :
  magnet_params
    [(B "announce", VBytes (B "http://a"));
     (B "announce-list", VList [VList [VBytes (B "http://a")]; VList [VBytes (B "http://b")]])]
    "btih:abc" "Foo Bar"
  = Some ["xt=urn:btih:abc"; "dn=Foo%20Bar"; "tr=http%3A//a"; "tr=http%3A//a"; "tr=http%3A//b"]%string
  ∧ magnet_params
      [(B "announce", VBytes (B "http://a"));
       (B "announce-list", VList [VList [VBytes (B "http://a")]; VList [VBytes (B "http://b")]])]
      "btih:abc" "Foo Bar"
    ≠ Some ["xt=urn:btih:abc"; "dn=Foo%20Bar"; "tr=http%3A%2F%2Fa"; "tr=http%3A%2F%2Fb"]%string.
Proof. split; [reflexivity|]. by vm_compute. Qed.

(** ** Further properties of the decoder *)

(** X1. A successful decode starts inside the buffer and returns an end
    offset strictly after its start offset: every item consumes at least
    one byte. *)
Theorem decode_consumes_input depth data i cap v i' s :
  _bdecode depth data i cap = Ok (v, i', s) → i < length data ∧ i < i'.
Proof. apply _bdecode_progress. Qed.

Lemma decode_consumes_input_witness : 0 < length (B "i-42e") ∧ 0 < 5.
Proof.
  apply (decode_consumes_input 1 (B "i-42e") 0 false (VInt (-42)) 5 None).
  reflexivity.
Defined.

Lemma list_loop_no_capture data rec fuel i lst v i' s :
  (∀ i v i' s, rec i false = Ok (v, i', s) → s = None) →
  list_loop data rec false fuel i lst None = Ok (v, i', s) → s = None.
Proof.
  intros Hrec. revert i lst.
  induction fuel as [|fuel IH]; intros i lst; simpl;
    (destruct (decide _); [by intros [= <- <- <-]|]);
    destruct (rec i false) as [[[v1 i1] s1]|e] eqn:E; try done.
  apply Hrec in E as ->. apply IH.
Qed.

Lemma dict_loop_no_capture data rec fuel i d v i' s :
  (∀ i v i' s, rec i false = Ok (v, i', s) → s = None) →
  dict_loop data rec false fuel i d None = Ok (v, i', s) → s = None.
Proof.
  intros Hrec. revert i d.
  induction fuel as [|fuel IH]; intros i d; simpl;
    (destruct (decide _); [by intros [= <- <- <-]|]);
    destruct (rec i false) as [[[[z|k|l|dd] i1] s1]|e]; try done;
    destruct (rec i1 false) as [[[v2 i2] s2]|e] eqn:E2; try done.
  apply Hrec in E2 as ->. apply IH.
Qed.

Lemma _bdecode_no_capture depth data : ∀ i v i' s,
  _bdecode depth data i false = Ok (v, i', s) → s = None.
Proof.
  induction depth as [|depth IH]; intros i v i' s; simpl; [done|].
  destruct (decide (length data ≤ i)); [done|].
  repeat (destruct (decide _)).
  - destruct (index_from _ _ _); [|done].
    destruct (int_of_bytes _); [|done]. by intros [= <- <- <-].
  - by apply list_loop_no_capture.
  - by apply dict_loop_no_capture.
  - destruct (_ && _); [|done]. destruct (index_from _ _ _); [|done].
    destruct (int_of_bytes _); [|done]. by intros [= <- <- <-].
Qed.

(** X2. The capture flag changes nothing but the span: with capture
    enabled the decoder returns the same value and the same end offset, or
    raises the same exception, as without; and without capture no span is
    ever returned. *)
Theorem capture_only_adds_span depth data i :
  strip (_bdecode depth data i true) = strip (_bdecode depth data i false)
  ∧ ∀ v i' s, _bdecode depth data i false = Ok (v, i', s) → s = None.
Proof. split; [apply _bdecode_strip|apply _bdecode_no_capture]. Qed.

(** ** More frames never change an outcome *)

Section more_frames.
Context (data : bytes) (rec rec' : nat → bool → result decoded).
Hypothesis rec_mono :
  ∀ i c r, rec i c = r → r ≠ Raise RecursionError → rec' i c = r.

Lemma list_loop_more_frames cap fuel i lst info r :
  list_loop data rec cap fuel i lst info = r → r ≠ Raise RecursionError →
  list_loop data rec' cap fuel i lst info = r.
Proof.
  revert i lst info. induction fuel as [|fuel IH]; intros i lst info; simpl;
    (destruct (decide _); [done|]);
    destruct (rec i cap) as [[[v1 i1] s1]|e] eqn:E;
    intros Hr Hne;
    try (rewrite (rec_mono _ _ _ E) by done; by auto);
    rewrite (rec_mono _ _ _ E) by (by subst r); done.
Qed.

Lemma dict_loop_more_frames cap fuel i d info r :
  dict_loop data rec cap fuel i d info = r → r ≠ Raise RecursionError →
  dict_loop data rec' cap fuel i d info = r.
Proof.
  revert i d info. induction fuel as [|fuel IH]; intros i d info; simpl;
    (destruct (decide _); [done|]);
    (destruct (rec i false) as [[[[z|k|l|dd] i1] s1]|e] eqn:E;
     [| | | |intros Hr Hne; rewrite (rec_mono _ _ _ E) by (by subst r); done]);
    rewrite (rec_mono _ _ _ E) by done; try done;
    destruct (cap && bool_decide _);
    match goal with |- context [rec i1 ?c] =>
      destruct (rec i1 c) as [[[v2 i2] s2]|e] eqn:E2 end;
    intros Hr Hne;
    try (rewrite (rec_mono _ _ _ E2) by done; by auto);
    rewrite (rec_mono _ _ _ E2) by (by subst r); done.
Qed.
End more_frames.

Lemma _bdecode_S depth data i cap :
  _bdecode (S depth) data i cap = decode_frame (_bdecode depth data) data i cap.
Proof. reflexivity. Qed.

Lemma _bdecode_one_more_frame depth data : ∀ i cap r,
  _bdecode depth data i cap = r → r ≠ Raise RecursionError →
  _bdecode (S depth) data i cap = r.
Proof.
  induction depth as [|depth IH]; intros i cap r; [by intros <-|].
  rewrite !_bdecode_S. unfold decode_frame.
  destruct (decide (length data ≤ i)); [done|].
  repeat (destruct (decide _)); try done.
  - by apply list_loop_more_frames.
  - by apply dict_loop_more_frames.
Qed.

(** X3. An outcome other than [RecursionError] does not depend on the
    number of frames: with more frames available the decoder returns the
    same value, offset and span, or raises the same exception. *)
Theorem more_frames_same_outcome depth depth' data i cap r :
  depth ≤ depth' →
  _bdecode depth data i cap = r → r ≠ Raise RecursionError →
  _bdecode depth' data i cap = r.
Proof.
  induction 1 as [|depth' Hle IH]; [done|].
  intros Hr Hne. apply _bdecode_one_more_frame; [|done]. by apply IH.
Qed.

Lemma more_frames_same_outcome_witness :
  _bdecode 7 (B "d1:ali1eee") 0 true = Ok (VDict [(B "a", VList [VInt 1])], 10, None).
Proof.
  apply (more_frames_same_outcome 3 7 (B "d1:ali1eee") 0 true); [lia|reflexivity|done].
Defined.

(** ** Keys that are not byte strings *)

Lemma dict_loop_eq data rec cap fuel i d info :
  dict_loop data rec cap fuel i d info
  = if decide (slice data i (i + 1) = B "e") then Ok (VDict d, i + 1, info)
    else
      match rec i false with
      | Raise e => Raise e
      | Ok (VBytes k_bytes, i1, _) =>
          if cap && bool_decide (k_bytes = B "info") then
            match rec i1 false with
            | Raise e => Raise e
            | Ok (v, i2, _) =>
                match fuel with
                | 0 => Raise OutOfFuel
                | S fuel' =>
                    dict_loop data rec cap fuel' i2 (dict_set k_bytes v d)
                      (Some (slice data i1 i2))
                end
            end
          else
            match rec i1 cap with
            | Raise e => Raise e
            | Ok (v, i2, sub_info) =>
                match fuel with
                | 0 => Raise OutOfFuel
                | S fuel' =>
                    dict_loop data rec cap fuel' i2 (dict_set k_bytes v d)
                      (bytes_or info sub_info)
                end
            end
      | Ok (_, _, _) => Raise (BencodeError NonBytesKey)
      end.
Proof. by destruct fuel. Qed.

Lemma dict_loop_non_bytes_key depth data cap es i p v j s :
  dict_entries depth data i es p →
  _bdecode depth data p false = Ok (v, j, s) → (∀ b, v ≠ VBytes b) →
  ∀ fuel d info, length data ≤ fuel + i →
  dict_loop data (_bdecode depth data) cap fuel i d info
  = Raise (BencodeError NonBytesKey).
Proof.
  intros Hes Hbad Hv.
  induction Hes as [i|i k j1 s1 v1 i' s2 es i'' Hk Hv1 Hes IH]; intros fuel d info Hf.
  - rewrite dict_loop_eq.
    rewrite decide_False by (by eapply _bdecode_ok_not_e).
    rewrite Hbad. destruct v as [| b | |]; try done. by destruct (Hv b).
  - pose proof (_bdecode_progress _ _ _ _ _ _ _ Hk) as [? ?].
    pose proof (_bdecode_progress _ _ _ _ _ _ _ Hv1) as [? ?].
    destruct fuel as [|fuel]; [lia|].
    rewrite dict_loop_eq.
    rewrite decide_False by (by eapply _bdecode_ok_not_e).
    rewrite Hk.
    destruct (cap && bool_decide _).
    + rewrite Hv1. apply IH; [done|lia].
    + destruct (_bdecode_any_capture depth data j1 cap _ _ _ Hv1) as [s' ->].
      apply IH; [done|lia].
Qed.

(** X4. A dictionary is rejected with the decoder's own error ("Non-bytes
    dict key") as soon as the item at a key position, the first or any
    later one, decodes to anything but a byte string: after [d] and any
    number of well-formed entries, such an item makes the whole decode
    raise, whatever follows it. *)
Theorem non_bytes_key_rejected depth data i cap es p v j s :
  data !! i = Some "d"%char →
  dict_entries depth data (i + 1) es p →
  _bdecode depth data p false = Ok (v, j, s) →
  (∀ b, v ≠ VBytes b) →
  _bdecode (S depth) data i cap = Raise (BencodeError NonBytesKey).
Proof.
  intros Hd Hes Hk Hv. rewrite _bdecode_S. unfold decode_frame.
  apply lookup_lt_Some in Hd as Hlt. rewrite decide_False by lia.
  rewrite (proj2 (slice_one _ _ "d"%char)) by done.
  rewrite decide_False by (intros Hx; by vm_compute in Hx).
  rewrite decide_False by (intros Hx; by vm_compute in Hx).
  rewrite decide_True by done.
  eapply dict_loop_non_bytes_key; [exact Hes|exact Hk|exact Hv|lia].
Qed.

Lemma non_bytes_key_rejected_witness :
  _bdecode 2 (B "d1:ai1ei5ei6ee") 0 true = Raise (BencodeError NonBytesKey).
Proof.
  apply (non_bytes_key_rejected 1 (B "d1:ai1ei5ei6ee") 0 true
           [(B "a", VInt 1)] 7 (VInt 5) 10 None).
  - reflexivity.
  - apply (entries_cons 1 _ 1 (B "a") 4 None (VInt 1) 7 None); [reflexivity..|].
    apply entries_nil.
  - reflexivity.
  - done.
Defined.

(** ** Bytes after the decoded item *)

Lemma slice_app_l (data extra : bytes) (a b : nat) :
  b ≤ length data → slice (data ++ extra) a b = slice data a b.
Proof.
  intros Hb. unfold slice. destruct (decide (a ≤ length data)) as [Ha|Ha].
  - rewrite drop_app_le by done. apply take_app_le. rewrite length_drop. lia.
  - replace (b - a) with 0 by lia. by rewrite !take_0.
Qed.

Lemma find_byte_app_l c (l k : bytes) j :
  find_byte c l = Some j → find_byte c (l ++ k) = Some j.
Proof.
  revert j. induction l as [|x l IH]; intros j; simpl; [done|].
  destruct (decide (x = c)); [done|].
  destruct (find_byte c l) as [j'|]; [|done]. by rewrite (IH j').
Qed.

Lemma index_from_app_l c (data extra : bytes) i j :
  index_from c data i = Some j → index_from c (data ++ extra) i = Some j.
Proof.
  unfold index_from. destruct (decide (i ≤ length data)) as [Hi|Hi].
  - rewrite drop_app_le by done.
    destruct (find_byte c (drop i data)) as [k|] eqn:E; [|done].
    by rewrite (find_byte_app_l _ _ _ _ E).
  - rewrite (drop_ge data) by lia. done.
Qed.

Section extend.
Context (data extra : bytes) (rec rec' : nat → bool → result decoded).
Hypothesis rec_progress :
  ∀ i c v i' s, rec i c = Ok (v, i', s) → i < length data ∧ i < i'.
Hypothesis rec_extend :
  ∀ i c v i' s, rec i c = Ok (v, i', s) → i' ≤ length data →
                rec' i c = Ok (v, i', s).

Lemma list_loop_extend cap fuel : ∀ fuel' i lst info v i' s,
  fuel ≤ fuel' →
  list_loop data rec cap fuel i lst info = Ok (v, i', s) →
  list_loop (data ++ extra) rec' cap fuel' i lst info = Ok (v, i', s).
Proof.
  induction fuel as [|fuel IH]; intros fuel' i lst info v i' s Hf H;
    pose proof (list_loop_in_bounds _ _ _ _ _ _ _ _ _ _ H) as Hb;
    rewrite list_loop_eq in H; rewrite list_loop_eq;
    (destruct (decide (slice data i (i + 1) = B "e")) as [He|He];
     [assert (i < length data)
        by (destruct (decide (length data ≤ i)); [|lia];
            rewrite slice_one_ge in He by done; done);
      rewrite slice_app_l by lia; by rewrite decide_True by done|]);
    destruct (rec i cap) as [[[v1 i1] s1]|e] eqn:E; try done.
  destruct (rec_progress _ _ _ _ _ E) as [? ?].
  rewrite slice_app_l by lia. rewrite decide_False by done.
  pose proof (list_loop_progress data rec rec_progress _ _ _ _ _ _ _ _ H).
  rewrite (rec_extend _ _ _ _ _ E) by lia.
  destruct fuel' as [|fuel']; [lia|]. apply IH; [lia|done].
Qed.

Lemma dict_loop_extend cap fuel : ∀ fuel' i d info v i' s,
  fuel ≤ fuel' →
  dict_loop data rec cap fuel i d info = Ok (v, i', s) →
  dict_loop (data ++ extra) rec' cap fuel' i d info = Ok (v, i', s).
Proof.
  induction fuel as [|fuel IH]; intros fuel' i d info v i' s Hf H;
    pose proof (dict_loop_in_bounds _ _ _ _ _ _ _ _ _ _ H) as [Hb _];
    rewrite dict_loop_eq in H; rewrite dict_loop_eq;
    (destruct (decide (slice data i (i + 1) = B "e")) as [He|He];
     [assert (i < length data)
        by (destruct (decide (length data ≤ i)); [|lia];
            rewrite slice_one_ge in He by done; done);
      rewrite slice_app_l by lia; by rewrite decide_True by done|]);
    destruct (rec i false) as [[[[z|k|l|dd] i1] s1]|e] eqn:E; try done;
    destruct (rec_progress _ _ _ _ _ E) as [? ?];
    (rewrite slice_app_l by lia); (rewrite decide_False by done);
    (destruct (cap && bool_decide (k = B "info")) eqn:Ec);
    match type of H with context [rec i1 ?c] =>
      destruct (rec i1 c) as [[[v2 i2] s2]|e] eqn:E2 end; try done.
  all: destruct (rec_progress _ _ _ _ _ E2) as [? ?].
  all: pose proof (dict_loop_progress data rec rec_progress _ _ _ _ _ _ _ _ H).
  all: rewrite (rec_extend _ _ _ _ _ E) by lia.
  all: rewrite Ec.
  all: rewrite (rec_extend _ _ _ _ _ E2) by lia.
  all: destruct fuel' as [|fuel']; [lia|].
  all: rewrite ?slice_app_l by lia.
  all: apply IH; [lia|done].
Qed.
End extend.

Lemma _bdecode_extend depth data extra : ∀ i cap v i' s,
  _bdecode depth data i cap = Ok (v, i', s) → i' ≤ length data →
  _bdecode depth (data ++ extra) i cap = Ok (v, i', s).
Proof.
  induction depth as [|depth IH]; intros i cap v i' s; [done|].
  rewrite !_bdecode_S. unfold decode_frame.
  destruct (decide (length data ≤ i)); [done|].
  destruct (decide (length (data ++ extra) ≤ i)) as [Hx|_];
    [rewrite length_app in Hx; lia|].
  rewrite (slice_app_l data extra i (i + 1)) by lia.
  repeat (destruct (decide _)).
  - destruct (index_from _ data i) as [j|] eqn:Ej; [|done].
    rewrite (index_from_app_l _ _ _ _ _ Ej).
    destruct (int_of_bytes (slice data _ _)) as [num|] eqn:En; [|done].
    intros [= <- <- <-] Hb. rewrite slice_app_l by lia. by rewrite En.
  - intros H Hb. eapply list_loop_extend; [apply _bdecode_progress|apply IH| |done].
    rewrite length_app. lia.
  - intros H Hb. eapply dict_loop_extend; [apply _bdecode_progress|apply IH| |done].
    rewrite length_app. lia.
  - destruct (_ && _); [|done].
    destruct (index_from _ data i) as [j|] eqn:Ej; [|done].
    rewrite (index_from_app_l _ _ _ _ _ Ej).
    destruct (int_of_bytes (slice data _ _)) as [len|] eqn:En; [|done].
    intros [= <- <- <-] Hb. rewrite slice_app_l by lia. rewrite En.
    by rewrite slice_app_l by lia.
Qed.

(** X5. Bytes that follow a decoded item are not looked at: an item decoded
    inside the buffer decodes to the same outcome when bytes are appended
    to the buffer; and a file that [decode_torrent_and_infohash] accepts
    gives the same dictionary, infohash and display name whatever is
    appended after its top-level dictionary. *)
Theorem trailing_bytes_ignored sha1_hexdigest sha256_hexdigest depth raw stem extra :
  (∀ i cap v i' s,
     _bdecode depth raw i cap = Ok (v, i', s) → i' ≤ length raw →
     _bdecode depth (raw ++ extra) i cap = Ok (v, i', s))
  ∧ ∀ r, decode_torrent_and_infohash sha1_hexdigest sha256_hexdigest depth raw stem
         = Ok r →
         decode_torrent_and_infohash sha1_hexdigest sha256_hexdigest depth
           (raw ++ extra) stem = Ok r.
Proof.
  split; [apply _bdecode_extend|].
  intros r. unfold decode_torrent_and_infohash.
  destruct (_bdecode depth raw 0 true) as [[[v idx] sp]|e] eqn:E; [|done].
  destruct v as [| | |val]; try done.
  rewrite (_bdecode_extend _ _ extra _ _ _ _ _ E); [done|].
  by eapply _bdecode_end_in_bounds.
Qed.

Lemma trailing_bytes_ignored_witness :
  decode_torrent_and_infohash (λ _, "sha1") (λ _, "sha256") 3
    (B "d4:infod4:name1:xee" ++ B "garbage") "stem"
  = Ok ([(B "info", VDict [(B "name", VBytes (B "x"))])], Some ("btih:" +:+ "sha1"), "x"%string).
Proof.
  apply (proj2 (trailing_bytes_ignored (λ _, "sha1"%string) (λ _, "sha256"%string) 3
                  (B "d4:infod4:name1:xee") "stem" (B "garbage"))).
  reflexivity.
Defined.

(** ** Decoded dictionaries have distinct keys *)

Lemma elem_of_dict_set_keys k v (d : dict) x :
  x ∈ (dict_set k v d).*1 ↔ x = k ∨ x ∈ d.*1.
Proof.
  induction d as [|[k' v'] d IH]; simpl.
  - rewrite elem_of_cons, elem_of_nil. tauto.
  - destruct (decide (k' = k)) as [->|Hne]; simpl; rewrite !elem_of_cons; [tauto|].
    rewrite IH. tauto.
Qed.

Lemma dict_set_NoDup k v (d : dict) : NoDup d.*1 → NoDup (dict_set k v d).*1.
Proof.
  induction d as [|[k' v'] d IH]; simpl.
  - intros _. apply NoDup_singleton.
  - intros [Hk Hd]%NoDup_cons. destruct (decide (k' = k)) as [->|Hne]; simpl.
    + by apply NoDup_cons.
    + apply NoDup_cons. split; [|by apply IH].
      rewrite elem_of_dict_set_keys. intros [->|?]; done.
Qed.

Lemma dict_set_Forall (P : Value → Prop) k v (d : dict) :
  P v → Forall (λ kv, P kv.2) d → Forall (λ kv, P kv.2) (dict_set k v d).
Proof.
  intros Hv. induction 1 as [|[k' v'] d Hx Hd IH]; simpl.
  - by repeat constructor.
  - destruct (decide (k' = k)); constructor; done.
Qed.

Section unique.
Context (data : bytes) (rec : nat → bool → result decoded).
Hypothesis rec_unique : ∀ i c v i' s, rec i c = Ok (v, i', s) → unique_keys v.

Lemma list_loop_unique cap fuel : ∀ i lst info v i' s,
  Forall unique_keys lst →
  list_loop data rec cap fuel i lst info = Ok (v, i', s) → unique_keys v.
Proof.
  induction fuel as [|fuel IH]; intros i lst info v i' s Hl; simpl;
    (destruct (decide _); [intros [= <- <- <-]; by constructor|]);
    destruct (rec i cap) as [[[v1 i1] s1]|e] eqn:E; try done.
  apply IH. apply Forall_app. split; [done|].
  repeat constructor. by eapply rec_unique.
Qed.

Lemma dict_loop_unique cap fuel : ∀ i d info v i' s,
  NoDup d.*1 → Forall (λ kv, unique_keys kv.2) d →
  dict_loop data rec cap fuel i d info = Ok (v, i', s) → unique_keys v.
Proof.
  induction fuel as [|fuel IH]; intros i d info v i' s Hk Hd; simpl;
    (destruct (decide _); [intros [= <- <- <-]; by constructor|]);
    destruct (rec i false) as [[[[z|k|l|dd] i1] s1]|e]; try done;
    destruct (cap && bool_decide _);
    match goal with |- context [rec i1 ?c] =>
      destruct (rec i1 c) as [[[v2 i2] s2]|e] eqn:E2 end; try done.
  all: apply IH; [by apply dict_set_NoDup|].
  all: apply dict_set_Forall; [by eapply rec_unique|done].
Qed.
End unique.

Lemma _bdecode_unique_keys depth data : ∀ i cap v i' s,
  _bdecode depth data i cap = Ok (v, i', s) → unique_keys v.
Proof.
  induction depth as [|depth IH]; intros i cap v i' s; [done|].
  rewrite _bdecode_S. unfold decode_frame.
  destruct (decide (length data ≤ i)); [done|].
  repeat (destruct (decide _)).
  - destruct (index_from _ _ _); [|done].
    destruct (int_of_bytes _); [|done]. intros [= <- <- <-]. constructor.
  - apply list_loop_unique; [exact IH|constructor].
  - apply dict_loop_unique; [exact IH|constructor|constructor].
  - destruct (_ && _); [|done]. destruct (index_from _ _ _); [|done].
    destruct (int_of_bytes _); [|done]. intros [= <- <- <-]. constructor.
Qed.

(** X6. Every value the decoder returns has pairwise distinct keys in each
    of its dictionaries, at every nesting level, whatever the input
    repeats. *)
Theorem decoded_keys_unique depth data i cap v i' s :
  _bdecode depth data i cap = Ok (v, i', s) → unique_keys v.
Proof. apply _bdecode_unique_keys. Qed.

Lemma decoded_keys_unique_witness :
  unique_keys (VDict [(B "a", VInt 2); (B "b", VInt 5)]).
Proof.
  apply (decoded_keys_unique 2 (B "d1:ai1e1:bi5e1:ai2ee") 0 true _ 20 None).
  reflexivity.
Defined.

(** ** Reading back an encoded value *)

Lemma digit_char (k : nat) :
  k < 10 →
  is_digit (ascii_of_nat (48 + k)) = true
  ∧ digit_val (ascii_of_nat (48 + k)) = Z.of_nat k.
Proof.
  intros Hk. unfold is_digit, digit_val.
  rewrite nat_ascii_embedding by lia. split; [|lia].
  apply andb_true_intro. split; apply Nat.leb_le; lia.
Qed.

Lemma nat_digits_S fuel n acc :
  nat_digits (S fuel) n acc
  = if n <? 10 then ascii_of_nat (48 + n mod 10) :: acc
    else nat_digits fuel (n / 10) (ascii_of_nat (48 + n mod 10) :: acc).
Proof. reflexivity. Qed.

Lemma nat_digits_digits fuel : ∀ n acc,
  forallb is_digit acc = true → forallb is_digit (nat_digits fuel n acc) = true.
Proof.
  induction fuel as [|fuel IH]; intros n acc Hacc; [done|]. rewrite nat_digits_S.
  assert (forallb is_digit (ascii_of_nat (48 + n mod 10) :: acc) = true) as Hacc'.
  { cbn [forallb]. rewrite Hacc.
    rewrite (proj1 (digit_char (n mod 10) ltac:(apply Nat.mod_upper_bound; lia))). done. }
  destruct (n <? 10); [done|]. by apply IH.
Qed.

Lemma nat_digits_nonempty fuel : ∀ n acc, acc ≠ [] → nat_digits fuel n acc ≠ [].
Proof.
  induction fuel as [|fuel IH]; intros n acc Hacc; [done|]. rewrite nat_digits_S.
  destruct (n <? 10); [done|]. by apply IH.
Qed.

Lemma fold_digits_shift (l : bytes) : ∀ a : Z,
  fold_left (λ a c, (10 * a + digit_val c)%Z) l a
  = (a * 10 ^ Z.of_nat (length l)
     + fold_left (λ a c, (10 * a + digit_val c)%Z) l 0)%Z.
Proof.
  induction l as [|c l IH]; intros a; cbn [length fold_left].
  - change (Z.of_nat 0) with 0%Z. rewrite Z.pow_0_r. lia.
  - rewrite IH. rewrite (IH (10 * 0 + digit_val c)%Z).
    rewrite Nat2Z.inj_succ, Z.pow_succ_r by lia. lia.
Qed.

Lemma nat_digits_value fuel : ∀ n acc,
  n < fuel →
  fold_left (λ a c, (10 * a + digit_val c)%Z) (nat_digits fuel n acc) 0%Z
  = (Z.of_nat n * 10 ^ Z.of_nat (length acc)
     + fold_left (λ a c, (10 * a + digit_val c)%Z) acc 0)%Z.
Proof.
  induction fuel as [|fuel IH]; intros n acc Hn; [lia|]. rewrite nat_digits_S.
  pose proof (Nat.mod_upper_bound n 10 ltac:(lia)) as Hmod.
  destruct (digit_char (n mod 10) Hmod) as [_ Hval].
  pose proof (Nat.div_mod_eq n 10) as Hdm.
  destruct (n <? 10) eqn:Hlt.
  - apply Nat.ltb_lt in Hlt. cbn [fold_left]. rewrite fold_digits_shift.
    rewrite Hval. rewrite Nat.mod_small by done. lia.
  - apply Nat.ltb_ge in Hlt. rewrite IH.
    + cbn [length fold_left]. rewrite (fold_digits_shift acc).
      rewrite Hval. rewrite Nat2Z.inj_succ, Z.pow_succ_r by lia.
      apply (f_equal Z.of_nat) in Hdm.
      rewrite Nat2Z.inj_add, Nat2Z.inj_mul in Hdm. nia.
    + apply Nat.Div0.div_lt_upper_bound. lia.
Qed.

Lemma nat_bytes_value (n : nat) :
  fold_left (λ a c, (10 * a + digit_val c)%Z) (nat_bytes n) 0%Z = Z.of_nat n.
Proof.
  unfold nat_bytes. rewrite nat_digits_value by lia.
  cbn [length fold_left]. change (Z.of_nat 0) with 0%Z.
  rewrite Z.pow_0_r. lia.
Qed.

Lemma nat_bytes_spec (n : nat) :
  within_digit_limit n →
  ∃ c ds, nat_bytes n = c :: ds
    ∧ is_digit c = true
    ∧ forallb is_digit (nat_bytes n) = true
    ∧ int_of_bytes (nat_bytes n) = Some (Z.of_nat n)
    ∧ int_of_bytes ("-"%char :: nat_bytes n) = Some (- Z.of_nat n)%Z.
Proof.
  intros Hlim.
  assert (forallb is_digit (nat_bytes n) = true) as Hd
    by (by apply nat_digits_digits).
  assert (nat_bytes n ≠ []) as Hne.
  { unfold nat_bytes. rewrite nat_digits_S.
    destruct (n <? 10); [done|]. by apply nat_digits_nonempty. }
  destruct (int_of_bytes_digits _ Hne Hd) as [Hpos Hneg].
  apply Z.leb_le in Hlim. rewrite Hlim, nat_bytes_value in Hpos, Hneg.
  destruct (nat_bytes n) as [|c ds] eqn:E; [done|].
  exists c, ds. pose proof Hd as [Hc _]%andb_prop. by repeat split.
Qed.

Lemma digit_not (x : ascii) (ds : bytes) :
  is_digit x = false → forallb is_digit ds = true → x ∉ ds.
Proof.
  intros Hx. induction ds as [|c ds IH]; simpl; [intros _; apply not_elem_of_nil|].
  intros [Hc Hds]%andb_prop. apply not_elem_of_cons. split; [|by apply IH].
  intros ->. congruence.
Qed.

Lemma int_bytes_spec (z : Z) :
  within_digit_limit (Z.abs_nat z) →
  ("e"%char ∉ int_bytes z) ∧ int_of_bytes (int_bytes z) = Some z.
Proof.
  intros Hlim. unfold int_bytes. destruct (z <? 0)%Z eqn:Hz.
  - apply Z.ltb_lt in Hz.
    replace (Z.to_nat (- z)) with (Z.abs_nat z) by lia.
    destruct (nat_bytes_spec _ Hlim) as (c & ds & E & Hc & Hd & _ & Hv).
    split.
    + apply not_elem_of_cons. split; [done|]. by apply digit_not.
    + rewrite Hv. f_equal. lia.
  - apply Z.ltb_ge in Hz.
    replace (Z.to_nat z) with (Z.abs_nat z) by lia.
    destruct (nat_bytes_spec _ Hlim) as (c & ds & E & Hc & Hd & Hv & _).
    split; [by apply digit_not|]. rewrite Hv. f_equal. lia.
Qed.

Lemma digit_dispatch (c : ascii) :
  is_digit c = true →
  [c] ≠ B "i" ∧ [c] ≠ B "l" ∧ [c] ≠ B "d"
  ∧ (bytes_leb (B "0") [c] && bytes_leb [c] (B "9")) = true.
Proof.
  intros Hc.
  destruct c as [[] [] [] [] [] [] [] []]; try (by vm_compute in Hc);
    repeat split; try (intros Hx; by vm_compute in Hx); by vm_compute.
Qed.

Lemma _bdecode_string_item depth (pre b post : bytes) cap :
  within_digit_limit (length b) →
  _bdecode (S depth) (pre ++ (nat_bytes (length b) ++ B ":" ++ b) ++ post)
    (length pre) cap
  = Ok (VBytes b, length pre + length (nat_bytes (length b) ++ B ":" ++ b), None).
Proof.
  intros Hlim.
  destruct (nat_bytes_spec (length b) Hlim) as (c & ds & E & Hc & Hd & Hv & _).
  destruct (digit_dispatch c Hc) as (Hi & Hl & Hdd & Hleb).
  set (digits := nat_bytes (length b)) in *.
  assert (pre ++ (digits ++ B ":" ++ b) ++ post
          = pre ++ digits ++ ":"%char :: b ++ post) as ->
    by (by rewrite <- !app_assoc).
  set (data := pre ++ digits ++ ":"%char :: b ++ post).
  assert (length pre < length data)
    by (unfold data; rewrite E, length_app; simpl; lia).
  assert (data !! length pre = Some c)
    by (unfold data; rewrite E; by apply list_lookup_middle).
  rewrite _bdecode_S. unfold decode_frame.
  rewrite decide_False by lia.
  rewrite (proj2 (slice_one _ _ c)) by done.
  rewrite !decide_False by done. rewrite Hleb.
  assert (index_from ":" data (length pre) = Some (length pre + length digits)) as ->.
  { unfold index_from, data. rewrite drop_app_length.
    rewrite find_byte_app by (by apply digit_not). done. }
  assert (slice data (length pre) (length pre + length digits) = digits) as ->.
  { unfold slice, data. rewrite drop_app_length.
    apply take_app_length'. lia. }
  rewrite Hv. rewrite Nat2Z.id.
  assert (slice data (length pre + length digits + 1)
            (length pre + length digits + 1 + length b) = b) as ->.
  { unfold slice, data.
    replace (pre ++ digits ++ ":"%char :: b ++ post)
      with ((pre ++ digits ++ [":"%char]) ++ b ++ post)
      by (by rewrite <- !app_assoc).
    rewrite drop_app_length' by (rewrite !length_app; simpl; lia).
    apply take_app_length'. lia. }
  do 3 f_equal. rewrite !length_app. simpl. lia.
Qed.

Lemma list_loop_items depth data cap l i iend :
  list_items depth data i l iend →
  ∀ fuel lst info, data !! iend = Some "e"%char → length data ≤ fuel + i →
  ∃ info', list_loop data (_bdecode depth data) cap fuel i lst info
           = Ok (VList (lst ++ l), iend + 1, info').
Proof.
  induction 1 as [i|i v i' s l i'' Hv Hl IH]; intros fuel lst info He Hf.
  - exists info. rewrite list_loop_eq, app_nil_r.
    by rewrite decide_True by (by apply slice_one).
  - pose proof (_bdecode_progress _ _ _ _ _ _ _ Hv) as [? ?].
    rewrite list_loop_eq.
    rewrite decide_False by (by eapply _bdecode_ok_not_e).
    destruct (_bdecode_any_capture depth data i cap _ _ _ Hv) as [s' ->].
    destruct fuel as [|fuel]; [lia|].
    destruct (IH fuel (lst ++ [v]) (bytes_or info s') He ltac:(lia)) as [info' ->].
    exists info'. by rewrite <- app_assoc.
Qed.

Lemma dict_set_fresh k v (d : dict) : k ∉ d.*1 → dict_set k v d = d ++ [(k, v)].
Proof.
  induction d as [|[k' v'] d IH]; simpl; [done|].
  intros [Hne Hk]%not_elem_of_cons. rewrite decide_False by done. by rewrite IH.
Qed.

Lemma fold_dict_set_fresh (es : list (bytes * Value)) : ∀ d : dict,
  NoDup (d.*1 ++ es.*1) →
  fold_left (λ d kv, dict_set kv.1 kv.2 d) es d = d ++ es.
Proof.
  induction es as [|[k v] es IH]; intros d Hnd; simpl.
  - by rewrite app_nil_r.
  - simpl in Hnd. rewrite dict_set_fresh.
    + rewrite IH; [by rewrite <- app_assoc|].
      rewrite fmap_app. simpl. by rewrite <- app_assoc.
    + apply NoDup_app in Hnd as (_ & Hdisj & _). intros Hk.
      apply (Hdisj k Hk). left.
Qed.

Lemma vheight_pos (v : Value) : 1 ≤ vheight v.
Proof. destruct v; simpl; lia. Qed.

Lemma vheight_item (l : list Value) (x : Value) :
  x ∈ l → vheight x ≤ foldr (λ x m, vheight x `max` m) 0 l.
Proof.
  induction l as [|y l IH]; [by intros ?%elem_of_nil|].
  intros [->|Hx]%elem_of_cons; simpl; [lia|]. specialize (IH Hx). lia.
Qed.

Lemma vheight_entry (d : dict) (kv : bytes * Value) :
  kv ∈ d → vheight kv.2 ≤ foldr (λ kv m, vheight kv.2 `max` m) 0 d.
Proof.
  induction d as [|y d IH]; [by intros ?%elem_of_nil|].
  intros [->|Hx]%elem_of_cons; simpl; [lia|]. specialize (IH Hx). lia.
Qed.

Lemma items_chain depth (l : list Value) : ∀ pre post : bytes,
  Forall reads_back l →
  (∀ x, x ∈ l → vheight x ≤ depth) →
  list_items depth (pre ++ flat_map bencode l ++ post) (length pre) l
    (length pre + length (flat_map bencode l)).
Proof.
  induction l as [|x l IH]; intros pre post Hl Hh.
  - simpl. rewrite Nat.add_0_r. constructor.
  - apply Forall_cons in Hl as [Hx Hl]. simpl flat_map.
    rewrite <- app_assoc.
    eapply items_cons.
    + apply Hx. apply Hh. left.
    + replace (pre ++ bencode x ++ flat_map bencode l ++ post)
        with ((pre ++ bencode x) ++ flat_map bencode l ++ post)
        by (by rewrite <- app_assoc).
      replace (length pre + length (bencode x ++ flat_map bencode l))
        with (length (pre ++ bencode x) + length (flat_map bencode l))
        by (rewrite !length_app; lia).
      replace (length pre + length (bencode x)) with (length (pre ++ bencode x))
        by (rewrite length_app; lia).
      apply IH; [done|]. intros y Hy. apply Hh. by right.
Qed.

Lemma entries_chain depth (d : dict) : ∀ pre post : bytes,
  Forall (λ kv, within_digit_limit (length kv.1)) d →
  Forall (λ kv, reads_back kv.2) d →
  (∀ kv, kv ∈ d → vheight kv.2 ≤ depth) →
  dict_entries depth
    (pre ++ flat_map (λ kv, (nat_bytes (length kv.1) ++ B ":" ++ kv.1) ++ bencode kv.2) d
         ++ post)
    (length pre) d
    (length pre
     + length (flat_map (λ kv, (nat_bytes (length kv.1) ++ B ":" ++ kv.1)
                               ++ bencode kv.2) d)).
Proof.
  induction d as [|[k v] d IH]; intros pre post Hlim Hl Hh.
  - simpl. rewrite Nat.add_0_r. constructor.
  - apply Forall_cons in Hl as [Hx Hl]. simpl in Hx.
    apply Forall_cons in Hlim as [Hk Hlim]. simpl in Hk.
    pose proof (Hh (k, v) ltac:(left)) as Hv. simpl in Hv.
    pose proof (vheight_pos v) as Hpos.
    destruct depth as [|depth']; [lia|].
    set (enc := λ kv : bytes * Value,
           (nat_bytes (length kv.1) ++ B ":" ++ kv.1) ++ bencode kv.2) in *.
    pose (key := nat_bytes (length k) ++ B ":" ++ k).
    change (flat_map enc ((k, v) :: d)) with ((key ++ bencode v) ++ flat_map enc d).
    set (rest := flat_map enc d).
    eapply (entries_cons _ _ _ k (length pre + length key) None v
              (length pre + length key + length (bencode v)) None).
    + replace (pre ++ ((key ++ bencode v) ++ rest) ++ post)
        with (pre ++ key ++ (bencode v ++ rest ++ post))
        by (by rewrite <- !app_assoc).
      by apply _bdecode_string_item.
    + replace (pre ++ ((key ++ bencode v) ++ rest) ++ post)
        with ((pre ++ key) ++ bencode v ++ (rest ++ post))
        by (by rewrite <- !app_assoc).
      replace (length pre + length key) with (length (pre ++ key))
        by (rewrite length_app; lia).
      by apply Hx.
    + replace (pre ++ ((key ++ bencode v) ++ rest) ++ post)
        with ((pre ++ key ++ bencode v) ++ rest ++ post)
        by (by rewrite <- !app_assoc).
      replace (length pre + length ((key ++ bencode v) ++ rest))
        with (length (pre ++ key ++ bencode v) + length rest)
        by (rewrite !length_app; lia).
      replace (length pre + length key + length (bencode v))
        with (length (pre ++ key ++ bencode v))
        by (rewrite !length_app; lia).
      apply IH; [done|done|]. intros y Hy. apply Hh. by right.
Qed.

Lemma bencode_reads_back (v : Value) :
  unique_keys v → digits_within_limit v → reads_back v.
Proof.
  induction v as [n|b|l IHl|d IHd] using Value_ind';
    intros Huk Hlim depth pre post Hh.
  - destruct depth as [|depth]; [simpl in Hh; lia|].
    inversion Hlim as [n' Hn| | |]; subst.
    destruct (int_bytes_spec n Hn) as [He Hv].
    change (bencode (VInt n)) with (B "i" ++ int_bytes n ++ B "e").
    replace (pre ++ (B "i" ++ int_bytes n ++ B "e") ++ post)
      with (pre ++ B "i" ++ int_bytes n ++ B "e" ++ post)
      by (by rewrite <- !app_assoc).
    rewrite _bdecode_int_item by done. rewrite Hv.
    do 3 f_equal. rewrite !length_app. simpl. lia.
  - destruct depth as [|depth]; [simpl in Hh; lia|].
    inversion Hlim as [|b' Hb| |]; subst.
    by apply _bdecode_string_item.
  - destruct depth as [|depth]; [simpl in Hh; lia|].
    inversion Huk as [| |l' Hl|]; subst.
    inversion Hlim as [| |l' Hl'|]; subst.
    assert (Forall reads_back l) as Hrb.
    { apply Forall_forall. intros x Hx.
      rewrite Forall_forall in IHl, Hl, Hl'. by apply IHl; [|apply Hl|apply Hl']. }
    change (bencode (VList l)) with (B "l" ++ flat_map bencode l ++ B "e").
    set (body := flat_map bencode l).
    set (data := pre ++ (B "l" ++ body ++ B "e") ++ post).
    assert (data = (pre ++ ["l"%char]) ++ body ++ "e"%char :: post) as Hdata
      by (unfold data; by rewrite <- !app_assoc).
    assert (data !! length pre = Some "l"%char) as Hl0
      by (unfold data; by apply list_lookup_middle).
    assert (data !! (length (pre ++ ["l"%char]) + length body) = Some "e"%char) as He.
    { rewrite Hdata, app_assoc. apply list_lookup_middle. rewrite !length_app. lia. }
    pose proof (items_chain depth l (pre ++ ["l"%char]) ("e"%char :: post) Hrb) as Hch.
    fold body in Hch. rewrite <- Hdata in Hch.
    destruct (list_loop_items depth data false l _ _
                (Hch ltac:(intros x Hx; apply vheight_item in Hx; simpl in Hh; lia))
                (length data) [] None He ltac:(lia)) as [info' Hloop].
    assert (_bdecode (S depth) data (length pre) false
            = Ok (VList l, length (pre ++ ["l"%char]) + length body + 1, info')) as Hres.
    { rewrite _bdecode_S. unfold decode_frame.
      apply lookup_lt_Some in Hl0 as Hlt. rewrite decide_False by lia.
      rewrite (proj2 (slice_one _ _ "l"%char)) by done.
      rewrite decide_False by (intros Hx; by vm_compute in Hx).
      rewrite decide_True by done.
      replace (length pre + 1) with (length (pre ++ ["l"%char]))
        by (rewrite length_app; simpl; lia).
      exact Hloop. }
    rewrite Hres. rewrite (_bdecode_no_capture _ _ _ _ _ _ Hres).
    do 3 f_equal. rewrite !length_app. simpl. lia.
  - destruct depth as [|depth]; [simpl in Hh; lia|].
    inversion Huk as [| | |d' Hnd Hl]; subst.
    inversion Hlim as [| | |d' Hl']; subst.
    assert (Forall (λ kv, reads_back kv.2) d) as Hrb.
    { apply Forall_forall. intros x Hx.
      rewrite Forall_forall in IHd, Hl, Hl'.
      by apply IHd; [|apply Hl|apply Hl']. }
    assert (Forall (λ kv, within_digit_limit (length kv.1)) d) as Hkeys
      by (eapply Forall_impl; [exact Hl'|by intros ? [? _]]).
    set (body := flat_map (λ kv, (nat_bytes (length kv.1) ++ B ":" ++ kv.1)
                                 ++ bencode kv.2) d).
    change (bencode (VDict d)) with (B "d" ++ body ++ B "e").
    set (data := pre ++ (B "d" ++ body ++ B "e") ++ post).
    assert (data = (pre ++ ["d"%char]) ++ body ++ "e"%char :: post) as Hdata
      by (unfold data; by rewrite <- !app_assoc).
    assert (data !! length pre = Some "d"%char) as Hl0
      by (unfold data; by apply list_lookup_middle).
    assert (data !! (length (pre ++ ["d"%char]) + length body) = Some "e"%char) as He.
    { rewrite Hdata, app_assoc. apply list_lookup_middle. rewrite !length_app. lia. }
    pose proof (entries_chain depth d (pre ++ ["d"%char]) ("e"%char :: post)
                  Hkeys Hrb) as Hch.
    fold body in Hch. rewrite <- Hdata in Hch.
    destruct (dict_loop_entries depth data false d _ _
                (Hch ltac:(intros x Hx; apply vheight_entry in Hx; simpl in Hh; lia))
                (length data) [] None He ltac:(lia)) as [info' Hloop].
    rewrite fold_dict_set_fresh in Hloop by done. simpl in Hloop.
    assert (_bdecode (S depth) data (length pre) false
            = Ok (VDict d, length (pre ++ ["d"%char]) + length body + 1, info')) as Hres.
    { rewrite _bdecode_S. unfold decode_frame.
      apply lookup_lt_Some in Hl0 as Hlt. rewrite decide_False by lia.
      rewrite (proj2 (slice_one _ _ "d"%char)) by done.
      rewrite decide_False by (intros Hx; by vm_compute in Hx).
      rewrite decide_False by (intros Hx; by vm_compute in Hx).
      rewrite decide_True by done.
      replace (length pre + 1) with (length (pre ++ ["d"%char]))
        by (rewrite length_app; simpl; lia).
      exact Hloop. }
    rewrite Hres. rewrite (_bdecode_no_capture _ _ _ _ _ _ Hres).
    do 3 f_equal. rewrite !length_app. simpl. lia.
Qed.

(** X7. Round trip. The decoder reads back from its encoding every value
    whose dictionaries have distinct keys and whose decimal numbers (the
    integers, and the lengths of the byte strings and keys) have no more
    digits than [int] accepts: placed anywhere in a buffer, the encoding
    decodes to that value and to the offset just after it, given as many
    frames as the value is deep; with or without capture. *)
Theorem decode_bencode (v : Value) depth (pre post : bytes) cap :
  unique_keys v → digits_within_limit v → vheight v ≤ depth →
  strip (_bdecode depth (pre ++ bencode v ++ post) (length pre) cap)
  = Ok (v, length pre + length (bencode v)).
Proof.
  intros Huk Hlim Hh. rewrite _bdecode_strip.
  by rewrite (bencode_reads_back v Huk Hlim depth pre post Hh).
Qed.

Lemma decode_bencode_witness :
  strip (_bdecode 3 (B "d4:infod4:name1:xe1:ali-7eee") 0 true)
  = Ok (VDict [(B "info", VDict [(B "name", VBytes (B "x"))]);
               (B "a", VList [VInt (-7)])], 28).
Proof.
  apply (decode_bencode
           (VDict [(B "info", VDict [(B "name", VBytes (B "x"))]);
                   (B "a", VList [VInt (-7)])]) 3 [] [] true).
  - apply (_bdecode_unique_keys 3 (B "d4:infod4:name1:xe1:ali-7eee") 0 true _ 28
             (Some (B "d4:name1:xe"))). reflexivity.
  - repeat (constructor; try (split; [by vm_compute|]); try (by vm_compute)).
  - vm_compute. lia.
Defined.

(** ** Percent-encoding *)

Lemma quote_cons safe c s :
  quote safe (String c s)
  = if is_alnum c || mem_char c "_.-~" || mem_char c safe
    then String c (quote safe s)
    else String "%" (String (hex_digit (nat_of_ascii c / 16))
                       (String (hex_digit (nat_of_ascii c mod 16)) (quote safe s))).
Proof. reflexivity. Qed.

Lemma hex_digit_alnum (c : ascii) :
  is_alnum (hex_digit (nat_of_ascii c / 16)) = true
  ∧ is_alnum (hex_digit (nat_of_ascii c mod 16)) = true.
Proof. destruct c as [[] [] [] [] [] [] [] []]; by vm_compute. Qed.

Lemma quote_alphabet safe s c :
  c ∈ list_ascii_of_string (quote safe s) →
  c = "%"%char ∨ is_alnum c = true ∨ mem_char c "_.-~" = true ∨ mem_char c safe = true.
Proof.
  induction s as [|x s IH]; [by intros ?%elem_of_nil|].
  rewrite quote_cons.
  destruct (is_alnum x || mem_char x "_.-~" || mem_char x safe) eqn:E;
    cbn [list_ascii_of_string]; rewrite !elem_of_cons.
  - intros [->|Hc]; [|by apply IH].
    apply orb_prop in E as [[E|E]%orb_prop|E]; auto.
  - destruct (hex_digit_alnum x) as [Hhi Hlo].
    intros [->|[->|[->|Hc]]]; auto.
Qed.

(** X8. [quote] only ever emits ["%"], ASCII letters and digits, the
    characters [_.-~] and the characters declared safe; with the default
    safe set (["/"]) its output therefore holds no [&], [=], [?], [#] or
    space, whatever the text: a display name or a tracker cannot break out
    of its parameter. *)
Theorem quote_never_emits_separators (safe s : string) :
  (∀ c, c ∈ list_ascii_of_string (quote safe s) →
        c = "%"%char ∨ is_alnum c = true ∨ mem_char c "_.-~" = true
        ∨ mem_char c safe = true)
  ∧ ∀ c, mem_char c "&=?# " = true → c ∉ list_ascii_of_string (quote "/" s).
Proof.
  split; [intros c; apply quote_alphabet|].
  intros c Hsep Hin. apply quote_alphabet in Hin.
  cbn [mem_char] in Hsep.
  repeat (apply orb_prop in Hsep as [Hsep|Hsep];
          [apply bool_decide_eq_true in Hsep as <-;
           destruct Hin as [?|[?|[?|?]]]; done|]).
  done.
Qed.

(** ** When there is a magnet link *)

Lemma prefix_split (p s : string) :
  String.prefix p s = true → ∃ r, s = p +:+ r.
Proof.
  revert s. induction p as [|a p IH]; intros s; [by exists s|].
  destruct s as [|b s]; [done|]. simpl.
  destruct (ascii_dec a b) as [->|]; [|done].
  intros [r ->]%IH. by exists r.
Qed.

Lemma magnet_xt_None (infohash : string) :
  magnet_xt infohash = None
  ↔ String.prefix "btih:" infohash = false ∧ String.prefix "btmh:" infohash = false.
Proof.
  unfold magnet_xt. destruct (decide (infohash = EmptyString)) as [->|Hne]; [done|].
  destruct (String.prefix "btih:" infohash) eqn:E1.
  - apply prefix_split in E1 as [r ->]. split; [done|]. by intros [? _].
  - destruct (String.prefix "btmh:" infohash) eqn:E2; [|done].
    apply prefix_split in E2 as [r ->]. split; [done|]. by intros [_ ?].
Qed.

Lemma magnet_params_head torrent_dict infohash display_name :
  match magnet_xt infohash with
  | None => magnet_params torrent_dict infohash display_name = None
  | Some xt =>
      ∃ tail, magnet_params torrent_dict infohash display_name
              = Some (("xt=" +:+ quote ":" xt) :: tail)
  end.
Proof.
  unfold magnet_params. destruct (magnet_xt infohash) as [xt|]; [|done].
  cbv zeta.
  destruct (decide (display_name = EmptyString));
    destruct (dict_get (B "announce") torrent_dict) as [[| | |]|];
    destruct (dict_get (B "announce-list") torrent_dict) as [[| | |]|];
    rewrite ?dedupe_spec; cbn [app]; eauto.
Qed.

(** X9. [magnet_from_info] returns nothing exactly when the infohash starts
    with neither [btih:] nor [btmh:] (an empty infohash included); every
    link it returns starts with [magnet:?xt=urn:bt]. *)
Theorem magnet_absent_iff torrent_dict infohash display_name :
  (magnet_from_info torrent_dict infohash display_name = None
   ↔ String.prefix "btih:" infohash = false ∧ String.prefix "btmh:" infohash = false)
  ∧ ∀ m, magnet_from_info torrent_dict infohash display_name = Some m →
         String.prefix "magnet:?xt=urn:bt" m = true.
Proof.
  pose proof (magnet_params_head torrent_dict infohash display_name) as Hp.
  unfold magnet_from_info. split.
  - rewrite <- magnet_xt_None.
    destruct (magnet_xt infohash) as [xt|]; [|by rewrite Hp].
    destruct Hp as [tail ->]. done.
  - intros m. destruct (magnet_xt infohash) as [xt|] eqn:Ext; [|by rewrite Hp].
    destruct Hp as [tail ->]. intros [= <-].
    unfold magnet_xt in Ext.
    destruct (decide (infohash = EmptyString)); [done|].
    destruct (String.prefix "btih:" infohash) eqn:E1.
    + apply prefix_split in E1 as [r ->]. injection Ext as <-.
      destruct tail; reflexivity.
    + destruct (String.prefix "btmh:" infohash) eqn:E2; [|done].
      apply prefix_split in E2 as [r ->]. injection Ext as <-.
      destruct tail; reflexivity.
Qed.

Lemma magnet_tagged torrent_dict tag rest display_name :
  tag = "btih:"%string ∨ tag = "btmh:"%string →
  is_Some (magnet_from_info torrent_dict (tag +:+ rest) display_name).
Proof.
  intros Htag.
  pose proof (magnet_params_head torrent_dict (tag +:+ rest) display_name) as Hp.
  unfold magnet_from_info.
  destruct (magnet_xt (tag +:+ rest)) as [xt|] eqn:Ext.
  - destruct Hp as [tail ->]. by eexists.
  - apply magnet_xt_None in Ext as [E1 E2].
    destruct Htag as [-> | ->]; destruct rest; done.
Qed.

(** X10. In a record built by [load_torrent] the magnet link is present
    exactly when the infohash is; the record keeps the path it was given;
    and its display name is not empty when the file stem is not. *)
Theorem loaded_record_consistent sha1_hexdigest sha256_hexdigest lower
    path_join join_frames depth p stem raw t :
  load_torrent sha1_hexdigest sha256_hexdigest lower path_join join_frames
    depth p stem raw = Ok t →
  (is_Some (infohash t) ↔ is_Some (magnet t))
  ∧ path t = p
  ∧ ∃ name, display_name t = Some name ∧ (stem ≠ EmptyString → name ≠ EmptyString).
Proof.
  unfold load_torrent, decode_torrent_and_infohash.
  destruct (_bdecode depth raw 0 true) as [[[v idx] sp]|e]; [|done].
  destruct v as [| | |val]; try done.
  set (name := match dict_get (B "info") val with
               | Some (VDict info) =>
                   match dict_get (B "name") info with
                   | Some (VBytes nm) => Some (decode_replace nm)
                   | _ => None
                   end
               | _ => None
               end).
  assert (stem ≠ EmptyString → str_or name stem ≠ EmptyString) as Hname
    by (by destruct name as [[|]|]).
  destruct sp as [sl|].
  - match goal with |- context [if ?b then _ else _] => destruct b end;
      destruct (torrent_file_list _ _ _ val); intros [= <-];
      cbn [infohash magnet path display_name];
      (split; [|split; [done|by eexists]]).
    + destruct (magnet_tagged val "btmh:" ("1220" +:+ sha256_hexdigest sl)
                  (str_or name stem) ltac:(by right)) as [m Hm].
      change ("btmh:" +:+ "1220" +:+ sha256_hexdigest sl)
        with ("btmh:1220" +:+ sha256_hexdigest sl) in Hm.
      cbn [String.append] in *. rewrite Hm. split; by eexists.
    + destruct (magnet_tagged val "btih:" (sha1_hexdigest sl)
                  (str_or name stem) ltac:(by left)) as [m Hm].
      cbn [String.append] in *. rewrite Hm. split; by eexists.
  - destruct (torrent_file_list _ _ _ val); intros [= <-];
      cbn [infohash magnet path display_name].
    split; [|split; [done|by eexists]]. split; by intros [? [=]].
Qed.

Lemma loaded_record_consistent_witness :
  ∃ t, load_torrent (λ _, "aa") (λ _, "bb") ascii_lower
         (λ p k, p +:+ "/" +:+ k) (λ _ _, 5) 3 "x.torrent" "x"
         (B "d4:infod6:lengthi1e4:name1:Aee") = Ok t
       ∧ (is_Some (infohash t) ↔ is_Some (magnet t))
       ∧ path t = "x.torrent"%string
       ∧ ∃ name, display_name t = Some name
                 ∧ ("x"%string ≠ EmptyString → name ≠ EmptyString).
Proof.
  eexists. split; [reflexivity|].
  apply (loaded_record_consistent (λ _, "aa"%string) (λ _, "bb"%string) ascii_lower
           (λ p k, p +:+ "/" +:+ k) (λ _ _, 5) 3
           "x.torrent" "x" (B "d4:infod6:lengthi1e4:name1:Aee")).
  reflexivity.
Defined.

(** ** The file tree *)

Set Warnings "-clear-no-such-hyp".

Section tree_facts.
Context (path_join : string → string → string) (join_frames : string → string → nat).

Lemma walk_leaves (v : Value) : ∀ depth tree prefix names r,
  v = VDict tree →
  walk path_join join_frames depth tree prefix names = Ok r →
  r = tree_leaves v ∪ names.
Proof.
  induction v as [n|b|l _|d IHd] using Value_ind';
    intros depth tree prefix names r [=].
  subst tree. destruct depth as [|depth]; [done|]. revert names r.
  induction IHd as [|[k v] rest Hv _ IH]; intros names r.
  - intros [= <-]. simpl. set_solver.
  - rewrite walk_cons. simpl in Hv.
    change (tree_leaves (VDict ((k, v) :: rest)))
      with ((if is_leaf_value v then {[decode_ignore k]} else tree_leaves v)
            ∪ tree_leaves (VDict rest)).
    unfold is_leaf_value.
    destruct (empty_key_in v) as [[]|]; [| |done].
    + intros ->%IH. set_solver.
    + destruct v as [| | |d0].
      * intros ->%IH. simpl. set_solver.
      * intros ->%IH. simpl. set_solver.
      * intros ->%IH. simpl. set_solver.
      * destruct (decide _); [done|].
        destruct (walk_value _ _ depth (VDict d0) _ names) as [names'|] eqn:E; [|done].
        intros ->%IH. rewrite (Hv depth d0 _ names names' eq_refl E). set_solver.
Qed.

(** The walk raises nothing but [TypeError] and [RecursionError]. *)
Lemma walk_value_raises (v : Value) : ∀ depth prefix names e,
  walk_value path_join join_frames depth v prefix names = Raise e →
  e = TypeError ∨ e = RecursionError.
Proof.
  induction v as [n|b|l _|d IHd] using Value_ind'; try done.
  intros [|depth] prefix; [by intros names e [= <-]; right|].
  change (∀ names e, walk path_join join_frames (S depth) d prefix names = Raise e
                     → e = TypeError ∨ e = RecursionError).
  induction IHd as [|[k v] rest Hv _ IH]; intros names e; [done|].
  rewrite walk_cons. simpl in Hv.
  destruct (empty_key_in v) as [[]|e'] eqn:E.
  - apply IH.
  - destruct v as [| | |d0]; try apply IH.
    destruct (decide _); [by intros [= <-]; right|].
    destruct (walk_value _ _ depth (VDict d0) _ names) as [names'|e''] eqn:E'.
    + apply IH.
    + intros [= <-]. by eapply Hv.
  - intros [= <-]. left. destruct v; simpl in E; congruence.
Qed.

(** On a tree of the usual shape the membership test never raises. *)
Lemma walk_file_tree (v : Value) : ∀ depth tree prefix names,
  v = VDict tree → is_file_tree v = true →
  walk path_join join_frames depth tree prefix names ≠ Raise TypeError.
Proof.
  induction v as [n|b|l _|d IHd] using Value_ind'; intros depth tree prefix names [=].
  subst tree. destruct depth as [|depth]; [done|]. revert names.
  induction IHd as [|[k v] rest Hv _ IH]; intros names Hft; [done|].
  rewrite walk_cons. simpl in Hv.
  change (is_file_tree (VDict ((k, v) :: rest)))
    with (match v with
          | VDict dx => dict_mem [] dx || is_file_tree v
          | _ => false
          end && is_file_tree (VDict rest)) in Hft.
  apply andb_prop in Hft as [Hhead Hrest].
  destruct v as [| | |d0]; try done. simpl empty_key_in.
  destruct (dict_mem [] d0) eqn:Hm; [by apply IH|].
  simpl in Hhead. destruct (decide _); [done|].
  pose proof (Hv depth d0 (path_join prefix (decode_ignore k)) names eq_refl Hhead) as Hsub.
  change (walk_value path_join join_frames depth (VDict d0)
            (path_join prefix (decode_ignore k)) names)
    with (walk path_join join_frames depth d0 (path_join prefix (decode_ignore k)) names).
  destruct (walk _ _ depth d0 _ names) as [names'|e]; [by apply IH|congruence].
Qed.

(** With as many frames as the decoder needs for the tree, and those that
    [pathlib] needs on top, the walk does not run out of frames. *)
Lemma walk_enough_frames (c : nat) (v : Value) :
  (∀ p k, join_frames p k ≤ c) →
  ∀ depth tree prefix names,
    v = VDict tree → vheight v + c ≤ depth →
    walk path_join join_frames depth tree prefix names ≠ Raise RecursionError.
Proof.
  intros Hc.
  induction v as [n|b|l _|d IHd] using Value_ind'; intros depth tree prefix names [=].
  subst tree. destruct depth as [|depth]; [simpl; lia|].
  intros Hh. revert names.
  assert (∀ kv, kv ∈ d → vheight kv.2 + c ≤ depth) as Hd.
  { intros kv Hkv. apply vheight_entry in Hkv. simpl in Hh. lia. }
  clear Hh.
  induction IHd as [|[k v] rest Hv _ IH]; intros names; [done|].
  rewrite walk_cons. simpl in Hv.
  assert (∀ names, walk path_join join_frames (S depth) rest prefix names
                   ≠ Raise RecursionError) as Hrest
    by (apply IH; intros kv Hkv; apply Hd; by right).
  pose proof (Hd (k, v) ltac:(left)) as Hkv. simpl in Hkv.
  destruct (empty_key_in v) as [[]|e] eqn:E; [done| |].
  - destruct v as [| | |d0]; try done.
    pose proof (Hc prefix (decode_ignore k)). pose proof (vheight_pos (VDict d0)).
    rewrite decide_False by lia.
    pose proof (Hv depth d0 (path_join prefix (decode_ignore k)) names eq_refl Hkv) as Hsub.
    change (walk_value path_join join_frames depth (VDict d0)
              (path_join prefix (decode_ignore k)) names)
      with (walk path_join join_frames depth d0 (path_join prefix (decode_ignore k)) names).
    destruct (walk _ _ depth d0 _ names) as [names'|e]; [done|congruence].
  - destruct v; simpl in E; congruence.
Qed.
End tree_facts.

(** X11. Whenever the file-tree walk returns, it returns the names it was
    given together with the decoded keys, at any depth, whose value passes
    the empty-key test, and nothing else: a directory contributes its files
    and not its own name.  On a tree of the usual shape (every value a
    dictionary, leaf or directory) the walk either returns that set or runs
    out of frames; and it returns it when it has the frames that the
    decoder needs for the tree and those that [pathlib] needs on top. *)
Theorem walk_collects_leaves path_join join_frames depth (tree : dict)
    (prefix : string) (names : gset string) :
  (∀ r, walk path_join join_frames depth tree prefix names = Ok r →
        r = tree_leaves (VDict tree) ∪ names)
  ∧ (is_file_tree (VDict tree) = true →
     (walk path_join join_frames depth tree prefix names
      = Ok (tree_leaves (VDict tree) ∪ names)
      ∨ walk path_join join_frames depth tree prefix names = Raise RecursionError)
     ∧ ∀ c, (∀ p k, join_frames p k ≤ c) → vheight (VDict tree) + c ≤ depth →
            walk path_join join_frames depth tree prefix names
            = Ok (tree_leaves (VDict tree) ∪ names)).
Proof.
  split; [intros r; by apply walk_leaves|].
  intros Hft.
  pose proof (walk_file_tree path_join join_frames (VDict tree) depth tree prefix names
                eq_refl Hft) as Hty.
  pose proof (walk_leaves path_join join_frames (VDict tree) depth tree prefix names)
    as Hleaves.
  pose proof (walk_value_raises path_join join_frames (VDict tree) depth prefix names)
    as Hraise.
  change (walk_value path_join join_frames depth (VDict tree) prefix names)
    with (walk path_join join_frames depth tree prefix names) in Hraise.
  split.
  - destruct (walk _ _ depth tree prefix names) as [r|e].
    + left. f_equal. by apply Hleaves.
    + right. destruct (Hraise e eq_refl) as [->| ->]; done.
  - intros c Hc Hh.
    pose proof (walk_enough_frames path_join join_frames c (VDict tree) Hc
                  depth tree prefix names eq_refl Hh) as Hrec.
    destruct (walk _ _ depth tree prefix names) as [r|e].
    + f_equal. by apply Hleaves.
    + destruct (Hraise e eq_refl) as [->| ->]; done.
Qed.

Lemma walk_collects_leaves_witness :
  walk (λ p k, p +:+ "/" +:+ k) (λ _ _, 5) 10
    [(B "sub", VDict [(B "file.txt", VDict [([], VDict [(B "length", VInt 3)])])])]
    EmptyString ∅
  = Ok (tree_leaves (VDict [(B "sub", VDict [(B "file.txt",
                                VDict [([], VDict [(B "length", VInt 3)])])])]) ∪ ∅)
  ∧ tree_leaves (VDict [(B "sub", VDict [(B "file.txt",
                          VDict [([], VDict [(B "length", VInt 3)])])])])
    = {["file.txt"%string]}.
Proof.
  split; [|reflexivity].
  apply (proj2 (walk_collects_leaves (λ p k, p +:+ "/" +:+ k) (λ _ _, 5) 10
                  [(B "sub", VDict [(B "file.txt",
                                     VDict [([], VDict [(B "length", VInt 3)])])])]
                  EmptyString ∅) eq_refl) with (c := 5).
  - intros _ _. lia.
  - vm_compute. lia.
Defined.

(** The walk runs out of frames where the decoder does not: a file tree
    that the decoder reads with the frames it has can make
    [torrent_file_list] raise [RecursionError], since every directory level
    takes a frame for [walk] and the frames of [pathlib] on top. *)
Example walk_out_of_frames :
  _bdecode 5 (B "d4:infod9:file treed1:ad1:bdeeeee") 0 false
  = Ok (VDict [(B "info", VDict [(B "file tree",
                 VDict [(B "a", VDict [(B "b", VDict [])])])])], 33, None)
  ∧ torrent_file_list (λ p k, p +:+ "/" +:+ k) (λ _ _, 5) 5
      [(B "info", VDict [(B "file tree",
          VDict [(B "a", VDict [(B "b", VDict [])])])])]
    = Raise RecursionError.
Proof. split; reflexivity. Qed.

(** X12. [torrent_file_list] can raise nothing but [TypeError] and
    [RecursionError], and only when [info] is a dictionary that holds a
    dictionary under [file tree]: without a file tree it always returns a
    set.  [TypeError] needs a tree that is not of the usual shape, and
    [RecursionError] a walk with fewer frames than the decoder needs for
    the tree plus those that [pathlib] needs. *)
Theorem file_list_raises_only_from_tree path_join join_frames depth
    (torrent_dict : dict) (e : exn) :
  torrent_file_list path_join join_frames depth torrent_dict = Raise e →
  (e = TypeError ∨ e = RecursionError)
  ∧ ∃ info tree, dict_get (B "info") torrent_dict = Some (VDict info)
                 ∧ dict_get (B "file tree") info = Some (VDict tree)
                 ∧ (e = TypeError → is_file_tree (VDict tree) = false)
                 ∧ (e = RecursionError →
                    ∀ c, (∀ p k, join_frames p k ≤ c) →
                         depth < vheight (VDict tree) + c).
Proof.
  unfold torrent_file_list.
  destruct (dict_get (B "info") torrent_dict) as [[| | |info]|] eqn:E1; try done.
  destruct (dict_get (B "file tree") info) as [[| | |tree]|] eqn:E2; try done.
  intros H. split; [by eapply walk_value_raises|].
  exists info, tree. split; [done|]. split; [done|]. split.
  - intros ->. destruct (is_file_tree (VDict tree)) eqn:Hft; [|done].
    by eapply walk_file_tree in H.
  - intros -> c Hc. destruct (decide (depth < vheight (VDict tree) + c)); [done|].
    eapply (walk_enough_frames _ _ c (VDict tree)) in H; [done|done|done|lia].
Qed.

Lemma file_list_raises_only_from_tree_witness :
  (TypeError = TypeError ∨ TypeError = RecursionError)
  ∧ ∃ info tree,
      dict_get (B "info") [(B "info", VDict [(B "file tree", VDict [(B "a", VInt 5)])])]
      = Some (VDict info)
      ∧ dict_get (B "file tree") info = Some (VDict tree)
      ∧ (TypeError = TypeError → is_file_tree (VDict tree) = false)
      ∧ (TypeError = RecursionError →
         ∀ c, (∀ p k : string, 5 ≤ c) → 1 < vheight (VDict tree) + c).
Proof.
  apply (file_list_raises_only_from_tree (λ p k, p +:+ "/" +:+ k) (λ _ _, 5) 1
           [(B "info", VDict [(B "file tree", VDict [(B "a", VInt 5)])])] TypeError).
  reflexivity.
Defined.

(** ** More on the matcher *)

Lemma prefix_refl (s : string) : String.prefix s s = true.
Proof.
  induction s as [|a s IH]; [done|]. simpl.
  by destruct (ascii_dec a a).
Qed.

Lemma contains_refl (s : string) : contains s s = true.
Proof.
  assert (contains s s = String.prefix s s || match s with
                                               | EmptyString => false
                                               | String _ s' => contains s s'
                                               end) as -> by (by destruct s).
  by rewrite prefix_refl.
Qed.

(** X13. The matcher never makes up a record: what it returns is one of the
    given records and satisfies one of the three tiers; when it returns
    nothing, no given record satisfies any tier.  Every record that
    satisfies tier 1 also satisfies tier 2, so the tiers differ in
    precedence only. *)
Theorem matcher_sound (lower : string → string) name torrents :
  (∀ t, match_movie_to_torrent lower name torrents = Some t →
        t ∈ torrents
        ∧ (tier1 lower (lower name) t = true ∨ tier2 lower (lower name) t = true
           ∨ tier3 lower (lower name) t = true))
  ∧ (match_movie_to_torrent lower name torrents = None →
     ∀ t, t ∈ torrents →
          tier1 lower (lower name) t = false ∧ tier2 lower (lower name) t = false
          ∧ tier3 lower (lower name) t = false)
  ∧ ∀ t, tier1 lower (lower name) t = true → tier2 lower (lower name) t = true.
Proof.
  unfold match_movie_to_torrent. split; [|split].
  - intros t Ht.
    destruct (find (tier1 lower (lower name)) torrents) as [t1|] eqn:E1.
    { injection Ht as ->. apply find_some in E1 as [Hin Hp].
      split; [by apply list_elem_of_In|auto]. }
    destruct (find (tier2 lower (lower name)) torrents) as [t2|] eqn:E2.
    { injection Ht as ->. apply find_some in E2 as [Hin Hp].
      split; [by apply list_elem_of_In|auto]. }
    apply find_some in Ht as [Hin Hp]. split; [by apply list_elem_of_In|auto].
  - intros Hnone t Hin. apply list_elem_of_In in Hin.
    destruct (find (tier1 lower (lower name)) torrents) as [t1|] eqn:E1; [done|].
    destruct (find (tier2 lower (lower name)) torrents) as [t2|] eqn:E2; [done|].
    repeat split.
    + by apply (find_none _ _ E1).
    + by apply (find_none _ _ E2).
    + by apply (find_none _ _ Hnone).
  - intros t. unfold tier1, tier2. intros [Hne Heq]%andb_prop.
    apply bool_decide_eq_true in Heq. rewrite Hne, <- Heq, contains_refl. done.
Qed.

Lemma matcher_sound_witness :
  tier2 ascii_lower (ascii_lower "Movie Name")
    {| path := "b.torrent"; display_name := Some "MOVIE name";
       infohash := None; magnet := None; files := ∅ |} = true.
Proof.
  apply (proj2 (proj2 (matcher_sound ascii_lower "Movie Name" []))).
  reflexivity.
Defined.

(** ** Writing a file only when it changed *)

Lemma universal_newlines_no_cr (n : nat) : ∀ s,
  String.length s ≤ n → mem_char "013" (universal_newlines s) = false.
Proof.
  induction n as [|n IH]; intros [|c s] Hn; simpl in *; try done; try lia.
  destruct (decide (c = "013"%char)) as [->|Hc].
  - destruct s as [|c' s]; [done|].
    destruct c' as [[] [] [] [] [] [] [] []];
      cbn [mem_char]; rewrite bool_decide_eq_false_2 by done;
      apply IH; simpl in *; lia.
  - cbn [mem_char]. rewrite bool_decide_eq_false_2 by done. apply IH. lia.
Qed.

(** Reading gives back the text as it is exactly when the text holds no
    carriage return. *)
Lemma universal_newlines_fixed (s : string) :
  universal_newlines s = s ↔ mem_char "013" s = false.
Proof.
  split.
  - intros <-. by apply (universal_newlines_no_cr (String.length s)).
  - induction s as [|c s IH]; [done|]. cbn [mem_char].
    intros [Hc Hs]%orb_false_elim. apply bool_decide_eq_false in Hc.
    simpl. rewrite decide_False by done. by rewrite IH.
Qed.

Lemma read_text_written (content : string) :
  is_str content = true →
  read_text (list_ascii_of_string content) = Ok (universal_newlines content).
Proof.
  unfold is_str, read_text. intros ->. by rewrite string_of_list_ascii_of_string.
Qed.

(** X14. [write_if_changed] leaves every other path untouched.  It raises,
    with [UnicodeDecodeError] and without writing, exactly when the file
    exists and does not hold well-formed UTF-8.  It reports no change, and
    writes nothing, exactly when the file already reads as the content (a
    missing file reads as empty, so an empty content does not create it).
    After a call that returns, the file reads as the content with its
    newlines translated; and repeating the call leaves the file system as
    it is, but reports a change again exactly when the content holds a
    carriage return: such a content never reads back as itself. *)
Theorem write_if_changed_spec (fs fs' : gmap string bytes) (p content : string)
    (r : result bool) :
  is_str content = true →
  write_if_changed fs p content = (r, fs') →
  (∀ q, q ≠ p → fs' !! q = fs !! q)
  ∧ (∀ e, r = Raise e ↔
          e = UnicodeDecodeError ∧ ∃ b, fs !! p = Some b ∧ utf8_valid 0 b = false)
  ∧ (r = Ok false ↔ read_file_text fs p = Ok content)
  ∧ (r ≠ Ok true → fs' = fs)
  ∧ ∀ b, r = Ok b →
      read_file_text fs' p = Ok (universal_newlines content)
      ∧ write_if_changed fs' p content = (Ok (mem_char "013" content), fs').
Proof.
  intros Hstr.
  assert (∀ e, read_file_text fs p = Raise e ↔
               e = UnicodeDecodeError
               ∧ ∃ b, fs !! p = Some b ∧ utf8_valid 0 b = false) as Hraise.
  { intros e. unfold read_file_text, read_text.
    destruct (fs !! p) as [b0|]; [|by split; [|intros [_ (? & ? & _)]]].
    destruct (utf8_valid 0 b0) eqn:Hv.
    - split; [done|]. intros [_ (b & [= <-] & ?)]. congruence.
    - split; [intros [= <-]; by eauto|by intros [-> _]]. }
  unfold write_if_changed.
  destruct (read_file_text fs p) as [old|e0] eqn:Hread.
  - destruct (decide (old = content)) as [->|Hne]; intros [= <- <-].
    + assert (mem_char "013" content = false) as Hcr.
      { unfold read_file_text in Hread. destruct (fs !! p) as [b0|].
        - unfold read_text in Hread. destruct (utf8_valid 0 b0); [|done].
          injection Hread as <-.
          by apply (universal_newlines_no_cr (String.length (string_of_list_ascii b0))).
        - by injection Hread as <-. }
      split; [done|]. split; [intros e; by rewrite <- Hraise|].
      split; [done|]. split; [done|].
      intros b _. rewrite Hread, decide_True by done.
      rewrite (proj2 (universal_newlines_fixed content) Hcr), Hcr. done.
    + split; [by intros q Hq; rewrite lookup_insert_ne|].
      split; [intros e; by rewrite <- Hraise|].
      split; [split; [done|by intros [= ->]]|]. split; [done|].
      intros b _. unfold read_file_text. rewrite lookup_insert_eq.
      rewrite read_text_written by done. split; [done|].
      destruct (decide (universal_newlines content = content)) as [Hfix|Hfix].
      * by rewrite (proj1 (universal_newlines_fixed content) Hfix).
      * rewrite insert_insert_eq.
        destruct (mem_char "013" content) eqn:Hcr; [done|].
        by apply universal_newlines_fixed in Hcr.
  - intros [= <- <-]. split; [done|]. split.
    + intros e. rewrite <- Hraise. split; congruence.
    + split; [done|]. by split.
Qed.

Lemma write_if_changed_spec_witness :
  read_file_text
    (<["movies.md"%string :=
         list_ascii_of_string (String "a" (String "013" (String "010" "b")))]> ∅)
    "movies.md"
  = Ok (String "a" (String "010" "b"))
  ∧ write_if_changed
      (<["movies.md"%string :=
           list_ascii_of_string (String "a" (String "013" (String "010" "b")))]> ∅)
      "movies.md" (String "a" (String "013" (String "010" "b")))
    = (Ok true,
       <["movies.md"%string :=
           list_ascii_of_string (String "a" (String "013" (String "010" "b")))]> ∅).
Proof.
  destruct (write_if_changed_spec ∅
              (<["movies.md"%string :=
                   list_ascii_of_string (String "a" (String "013" (String "010" "b")))]> ∅)
              "movies.md" (String "a" (String "013" (String "010" "b"))) (Ok true))
    as (_ & _ & _ & _ & H).
  - reflexivity.
  - unfold write_if_changed, read_file_text. rewrite lookup_empty.
    by rewrite decide_False.
  - exact (H true eq_refl).
Defined.

(** ** Scanning and sorting the movie directories *)

Lemma str_ltb_asym (a : string) : ∀ b, str_ltb a b = true → str_ltb b a = false.
Proof.
  induction a as [|x a IH]; intros [|y b]; simpl; try done.
  destruct (Nat.ltb_spec (nat_of_ascii x) (nat_of_ascii y)),
           (Nat.ltb_spec (nat_of_ascii y) (nat_of_ascii x)); try done; try lia.
  apply IH.
Qed.

Lemma str_leb_trans (a : string) : ∀ b c,
  str_ltb b a = false → str_ltb c b = false → str_ltb c a = false.
Proof.
  induction a as [|x a IH]; intros [|y b] [|z c]; simpl; try done.
  destruct (Nat.ltb_spec (nat_of_ascii y) (nat_of_ascii x)),
           (Nat.ltb_spec (nat_of_ascii x) (nat_of_ascii y)),
           (Nat.ltb_spec (nat_of_ascii z) (nat_of_ascii y)),
           (Nat.ltb_spec (nat_of_ascii y) (nat_of_ascii z)),
           (Nat.ltb_spec (nat_of_ascii z) (nat_of_ascii x)),
           (Nat.ltb_spec (nat_of_ascii x) (nat_of_ascii z));
    try done; try lia.
  apply IH.
Qed.

Section directories_facts.
Context (lower : string → string).
Context (SKIP_HIDDEN : bool) (IGNORE_DIRS : gset string) (datetime_min : Z).

Lemma insert_sorted_perm x (l : list (dir_item * string)) :
  insert_sorted lower x l ≡ₚ x :: l.
Proof.
  induction l as [|y l IH]; simpl; [done|].
  destruct (str_ltb _ _); [|done]. rewrite IH. apply Permutation_swap.
Qed.

Lemma insert_sorted_ordered x (l : list (dir_item * string)) :
  ordered lower l → ordered lower (insert_sorted lower x l).
Proof.
  induction l as [|y l IH]; simpl; [by intros _; split; [constructor|]|].
  intros [Hy Hl]. destruct (str_ltb (lower y.2) (lower x.2)) eqn:E; simpl.
  - split; [|by apply IH].
    rewrite insert_sorted_perm. constructor; [by apply str_ltb_asym|done].
  - split; [|done]. constructor; [done|].
    eapply Forall_impl; [exact Hy|]. intros z Hz. simpl in Hz.
    by eapply str_leb_trans.
Qed.

Lemma sort_by_lower_name_spec (l : list (dir_item * string)) :
  sort_by_lower_name lower l ≡ₚ l ∧ ordered lower (sort_by_lower_name lower l).
Proof.
  induction l as [|x l [IHp IHo]]; simpl; [done|]. split.
  - by rewrite insert_sorted_perm, IHp.
  - by apply insert_sorted_ordered.
Qed.

Lemma scan_items_spec (items : list dir_item) : ∀ directories most_recent,
  ∃ most_recent',
    scan_items SKIP_HIDDEN IGNORE_DIRS items directories most_recent
    = (directories
       ++ ((λ item, (item, item_name item))
           <$> filter (λ item, kept SKIP_HIDDEN IGNORE_DIRS item = true) items),
       most_recent')
    ∧ (most_recent ≤ most_recent')%Z
    ∧ (∀ item m, item ∈ items → kept SKIP_HIDDEN IGNORE_DIRS item = true →
                 item_mtime item = Some m → (m ≤ most_recent')%Z)
    ∧ (most_recent' = most_recent
       ∨ ∃ item, item ∈ items ∧ kept SKIP_HIDDEN IGNORE_DIRS item = true
                 ∧ item_mtime item = Some most_recent').
Proof.
  induction items as [|item rest IH]; intros directories most_recent.
  - exists most_recent. simpl. rewrite app_nil_r.
    split; [done|]. split; [lia|]. split; [|by left].
    by intros ? ? ?%elem_of_nil.
  - simpl scan_items. unfold kept at 1.
    destruct (item_is_dir item) eqn:Hd; simpl negb; cbn [andb];
      [destruct (SKIP_HIDDEN && String.prefix "." (item_name item)) eqn:Hh; cbn [negb andb];
       [|destruct (bool_decide (item_name item ∈ IGNORE_DIRS)) eqn:Hi; cbn [negb andb]]|].
    4: {
      destruct (IH directories most_recent) as (mr & -> & ? & Hall & Hex).
      exists mr. rewrite filter_cons_False
        by (unfold kept; rewrite Hd; done).
      split; [done|]. split; [done|]. split.
      - intros it m [->|Hin]%elem_of_cons Hk; [|by eauto].
        unfold kept in Hk. by rewrite Hd in Hk.
      - destruct Hex as [?|(it & ? & ? & ?)]; [by left|right].
        exists it. rewrite elem_of_cons. auto. }
    1: {
      destruct (IH directories most_recent) as (mr & -> & ? & Hall & Hex).
      exists mr. rewrite filter_cons_False
        by (unfold kept; rewrite Hd, Hh; done).
      split; [done|]. split; [done|]. split.
      - intros it m [->|Hin]%elem_of_cons Hk; [|by eauto].
        unfold kept in Hk. by rewrite Hd, Hh in Hk.
      - destruct Hex as [?|(it & ? & ? & ?)]; [by left|right].
        exists it. rewrite elem_of_cons. auto. }
    1: {
      destruct (IH directories most_recent) as (mr & -> & ? & Hall & Hex).
      exists mr. rewrite filter_cons_False
        by (unfold kept; rewrite Hd, Hh, Hi; done).
      split; [done|]. split; [done|]. split.
      - intros it m [->|Hin]%elem_of_cons Hk; [|by eauto].
        unfold kept in Hk. by rewrite Hd, Hh, Hi in Hk.
      - destruct Hex as [?|(it & ? & ? & ?)]; [by left|right].
        exists it. rewrite elem_of_cons. auto. }
    assert (kept SKIP_HIDDEN IGNORE_DIRS item = true) as Hk
      by (unfold kept; rewrite Hd, Hh, Hi; done).
    rewrite filter_cons_True by done. rewrite fmap_cons.
    destruct (item_mtime item) as [mtime|] eqn:Hm;
      [destruct (most_recent <? mtime)%Z eqn:Hlt|].
    + apply Z.ltb_lt in Hlt.
      destruct (IH (directories ++ [(item, item_name item)]) mtime)
        as (mr & -> & ? & Hall & Hex).
      exists mr. rewrite <- app_assoc. split; [done|]. split; [lia|]. split.
      * intros it m [->|Hin]%elem_of_cons Hk' Hm'; [|by eauto].
        rewrite Hm in Hm'. injection Hm' as <-. lia.
      * right. destruct Hex as [->|(it & ? & ? & ?)].
        -- exists item. rewrite elem_of_cons. auto.
        -- exists it. rewrite elem_of_cons. auto.
    + apply Z.ltb_ge in Hlt.
      destruct (IH (directories ++ [(item, item_name item)]) most_recent)
        as (mr & -> & ? & Hall & Hex).
      exists mr. rewrite <- app_assoc. split; [done|]. split; [lia|]. split.
      * intros it m [->|Hin]%elem_of_cons Hk' Hm'; [|by eauto].
        rewrite Hm in Hm'. injection Hm' as <-. lia.
      * destruct Hex as [?|(it & ? & ? & ?)]; [by left|right].
        exists it. rewrite elem_of_cons. auto.
    + destruct (IH (directories ++ [(item, item_name item)]) most_recent)
        as (mr & -> & ? & Hall & Hex).
      exists mr. rewrite <- app_assoc. split; [done|]. split; [lia|]. split.
      * intros it m [->|Hin]%elem_of_cons Hk' Hm'; [|by eauto]. congruence.
      * destruct Hex as [?|(it & ? & ? & ?)]; [by left|right].
        exists it. rewrite elem_of_cons. auto.
Qed.
End directories_facts.

(** X15. [walk_movie_directories] returns exactly the entries that are
    directories, not hidden (when hidden ones are skipped) and not ignored,
    each with its name, rearranged so that no entry is followed by one
    with a smaller lower-cased name.  The time it returns is the latest
    modification time among those entries, or [datetime.min] when none has
    a later one; entries that are skipped or whose time cannot be read do
    not count. *)
Theorem walk_movie_directories_spec (lower : string → string) SKIP_HIDDEN IGNORE_DIRS
    datetime_min (items : list dir_item) :
  (walk_movie_directories lower SKIP_HIDDEN IGNORE_DIRS datetime_min items).1
    ≡ₚ ((λ item, (item, item_name item))
        <$> filter (λ item, kept SKIP_HIDDEN IGNORE_DIRS item = true) items)
  ∧ ordered lower
      (walk_movie_directories lower SKIP_HIDDEN IGNORE_DIRS datetime_min items).1
  ∧ (datetime_min
     ≤ (walk_movie_directories lower SKIP_HIDDEN IGNORE_DIRS datetime_min items).2)%Z
  ∧ (∀ item m, item ∈ items → kept SKIP_HIDDEN IGNORE_DIRS item = true →
       item_mtime item = Some m →
       (m ≤ (walk_movie_directories lower SKIP_HIDDEN IGNORE_DIRS datetime_min items).2)%Z)
  ∧ ((walk_movie_directories lower SKIP_HIDDEN IGNORE_DIRS datetime_min items).2
       = datetime_min
     ∨ ∃ item, item ∈ items ∧ kept SKIP_HIDDEN IGNORE_DIRS item = true
         ∧ item_mtime item
           = Some (walk_movie_directories lower SKIP_HIDDEN IGNORE_DIRS
                     datetime_min items).2).
Proof.
  unfold walk_movie_directories.
  destruct (scan_items_spec SKIP_HIDDEN IGNORE_DIRS items [] datetime_min)
    as (mr & -> & Hle & Hall & Hex).
  cbn [fst snd]. rewrite app_nil_l.
  destruct (sort_by_lower_name_spec lower
              ((λ item, (item, item_name item))
               <$> filter (λ item, kept SKIP_HIDDEN IGNORE_DIRS item = true) items))
    as [Hp Ho].
  repeat split; done.
Qed.

(** ** What the decoder can raise *)

Section errors.
Context (data : bytes) (rec : nat → bool → result decoded).
Hypothesis rec_error : ∀ i c e, rec i c = Raise e → decoder_error data e.
Hypothesis rec_progress :
  ∀ i c v i' s, rec i c = Ok (v, i', s) → i < length data ∧ i < i'.

Lemma list_loop_error cap fuel : ∀ i lst info e,
  length data ≤ fuel + i →
  list_loop data rec cap fuel i lst info = Raise e → decoder_error data e.
Proof.
  induction fuel as [|fuel IH]; intros i lst info e Hf; simpl;
    (destruct (decide _); [done|]);
    destruct (rec i cap) as [[[v1 i1] s1]|e1] eqn:E;
    try (intros [= <-]; by eapply rec_error).
  - apply rec_progress in E. lia.
  - apply rec_progress in E. apply IH. lia.
Qed.

Lemma dict_loop_error cap fuel : ∀ i d info e,
  length data ≤ fuel + i →
  dict_loop data rec cap fuel i d info = Raise e → decoder_error data e.
Proof.
  induction fuel as [|fuel IH]; intros i d info e Hf; simpl;
    (destruct (decide _); [done|]);
    destruct (rec i false) as [[[[z|k|l|dd] i1] s1]|e1] eqn:E;
    try (intros [= <-]; by eapply rec_error);
    try (intros [= <-]; unfold decoder_error; by auto);
    destruct (cap && bool_decide _);
    match goal with |- context [rec i1 ?c] =>
      destruct (rec i1 c) as [[[v2 i2] s2]|e2] eqn:E2 end;
    try (intros [= <-]; by eapply rec_error);
    apply rec_progress in E, E2; try lia.
  all: apply IH; lia.
Qed.
End errors.

Lemma _bdecode_error depth data : ∀ i cap e,
  _bdecode depth data i cap = Raise e → decoder_error data e.
Proof.
  induction depth as [|depth IH]; intros i cap e.
  - intros [= <-]. by left.
  - rewrite _bdecode_S. unfold decode_frame.
    destruct (decide (length data ≤ i)); [intros [= <-]; unfold decoder_error; by auto|].
    repeat (destruct (decide _)).
    + destruct (index_from _ _ _); [|intros [= <-]; unfold decoder_error; by auto].
      destruct (int_of_bytes _); [done|intros [= <-]; unfold decoder_error; by auto].
    + apply list_loop_error; [exact IH|apply _bdecode_progress|lia].
    + apply dict_loop_error; [exact IH|apply _bdecode_progress|lia].
    + destruct (_ && _).
      * destruct (index_from _ _ _); [|intros [= <-]; unfold decoder_error; by auto].
        destruct (int_of_bytes _); [done|intros [= <-]; unfold decoder_error; by auto].
      * intros [= <-]. do 4 right. exists i. split; [lia|done].
Qed.

(** X16. The decoder raises nothing but [RecursionError], [ValueError] and
    its own [BencodeError] with the messages "Unexpected end of data",
    "Non-bytes dict key" and "Invalid bencode prefix"; the last one names
    an offset inside the buffer and the byte found there.
    [decode_torrent_and_infohash] adds "Top-level bencode is not a dict"
    and nothing else. *)
Theorem decoder_raises_only sha1_hexdigest sha256_hexdigest depth data stem :
  (∀ i cap e, _bdecode depth data i cap = Raise e → decoder_error data e)
  ∧ ∀ e, decode_torrent_and_infohash sha1_hexdigest sha256_hexdigest depth data stem
         = Raise e →
         decoder_error data e ∨ e = BencodeError TopLevelNotDict.
Proof.
  split; [apply _bdecode_error|].
  intros e. unfold decode_torrent_and_infohash.
  destruct (_bdecode depth data 0 true) as [[[v idx] sp]|e'] eqn:E.
  - destruct v; try (intros [= <-]; by right). by destruct sp.
  - intros [= <-]. left. by eapply _bdecode_error.
Qed.

(** ** Names from the single-file and multi-file layouts *)

Lemma mem_char_app c (a b : string) :
  mem_char c (a +:+ b) = mem_char c a || mem_char c b.
Proof.
  induction a as [|x a IH]; [done|].
  change (String x a +:+ b) with (String x (a +:+ b)).
  cbn [mem_char]. by rewrite IH, orb_assoc.
Qed.

Lemma split_slash_no_slash (s : string) : ∀ cur,
  mem_char "/" cur = false →
  Forall (λ c, mem_char "/" c = false) (split_slash cur s).
Proof.
  induction s as [|x s IH]; intros cur Hcur; simpl.
  - by repeat constructor.
  - destruct (decide (x = "/"%char)) as [->|Hx].
    + constructor; [done|]. by apply IH.
    + apply IH. rewrite mem_char_app, Hcur. cbn [mem_char orb].
      rewrite bool_decide_eq_false_2 by done. done.
Qed.

Lemma path_name_no_slash (segs : list string) :
  mem_char "/" (path_name segs) = false.
Proof.
  unfold path_name.
  assert (∀ acc : list string,
            Forall (λ c, mem_char "/" c = false) acc →
            Forall (λ c, mem_char "/" c = false)
              (fold_left (λ acc seg, if String.prefix "/" seg then path_parts seg
                                     else acc ++ path_parts seg) segs acc)) as H.
  { induction segs as [|seg segs IH]; intros acc Hacc; simpl; [done|].
    assert (Forall (λ c, mem_char "/" c = false) (path_parts seg)) as Hparts.
    { unfold path_parts. apply Forall_forall. intros c [_ Hc]%list_elem_of_filter.
      revert c Hc. apply Forall_forall. by apply split_slash_no_slash. }
    apply IH. destruct (String.prefix "/" seg); [done|]. by apply Forall_app. }
  specialize (H [] ltac:(constructor)).
  destruct (last _) as [c|] eqn:E; simpl; [|done].
  apply last_Some_elem_of in E. by eapply Forall_forall in H.
Qed.

Lemma files_names_no_slash (files : list Value) : ∀ names : gset string,
  (∀ x, x ∈ names → mem_char "/" x = false) →
  ∀ x, x ∈ fold_left (λ names f,
                        match file_entry_name f with
                        | Some (String _ _ as nm) => {[nm]} ∪ names
                        | _ => names
                        end) files names →
       mem_char "/" x = false.
Proof.
  induction files as [|f files IH]; intros names H1; [done|].
  simpl. apply IH. intros x.
  destruct (file_entry_name f) as [[|a nm]|] eqn:Ef; try apply H1.
  intros [->%elem_of_singleton|?]%elem_of_union; [|by apply H1].
  unfold file_entry_name in Ef.
  destruct f as [| | |fd]; try done.
  destruct (dict_get (B "path") fd) as [[| pb | pl |]|]; try done.
  - injection Ef as <-. apply path_name_no_slash.
  - destruct (omap _ pl); [done|]. injection Ef as <-. apply path_name_no_slash.
Qed.

(** X17. Every name that [torrent_file_list] returns comes either from the
    file tree or from the single-file and multi-file layouts, and a name
    from those two layouts is a last path component: it holds no ["/"]. *)
Theorem file_names_are_leaves path_join join_frames depth
    (torrent_dict : dict) (r : gset string) (n : string) :
  torrent_file_list path_join join_frames depth torrent_dict = Ok r → n ∈ r →
  mem_char "/" n = false
  ∨ ∃ info tree, dict_get (B "info") torrent_dict = Some (VDict info)
                 ∧ dict_get (B "file tree") info = Some (VDict tree)
                 ∧ n ∈ tree_leaves (VDict tree).
Proof.
  unfold torrent_file_list.
  destruct (dict_get (B "info") torrent_dict) as [[| | |info]|] eqn:E1;
    try (intros [= <-] Hn; by apply elem_of_empty in Hn).
  set (names1 := if dict_mem (B "length") info && dict_mem (B "name") info
                 then match dict_get (B "name") info with
                      | Some (VBytes nm) => {[path_name [decode_ignore nm]]} ∪ ∅
                      | _ => ∅
                      end
                 else (∅ : gset string)).
  assert (∀ x, x ∈ names1 → mem_char "/" x = false) as H1.
  { unfold names1. intros x.
    destruct (_ && _); [|by intros ?%elem_of_empty].
    destruct (dict_get (B "name") info) as [[| nm | |]|];
      try (by intros ?%elem_of_empty).
    intros [->%elem_of_singleton|?%elem_of_empty]%elem_of_union; [|done].
    apply path_name_no_slash. }
  set (names2 := match dict_get (B "files") info with
                 | Some (VList files) => fold_left _ files names1
                 | _ => names1
                 end).
  assert (∀ x, x ∈ names2 → mem_char "/" x = false) as H2.
  { unfold names2. destruct (dict_get (B "files") info) as [[| |files|]|]; try done.
    by apply files_names_no_slash. }
  clearbody names2.
  destruct (dict_get (B "file tree") info) as [[| | |tree]|] eqn:E2;
    try (intros [= <-] Hn; left; by apply H2).
  intros Hw Hn. apply walk_leaves with (v := VDict tree) in Hw; [|done].
  subst r. apply elem_of_union in Hn as [Hn|Hn]; [right; by eauto|left; by apply H2].
Qed.

Lemma file_names_are_leaves_witness :
  mem_char "/" "c.mkv" = false
  ∨ ∃ info tree,
      dict_get (B "info")
        [(B "info", VDict [(B "files",
            VList [VDict [(B "path", VList [VBytes (B "a/b"); VBytes (B "c.mkv")])]])])]
      = Some (VDict info)
      ∧ dict_get (B "file tree") info = Some (VDict tree)
      ∧ "c.mkv"%string ∈ tree_leaves (VDict tree).
Proof.
  apply (file_names_are_leaves (λ p k, p +:+ "/" +:+ k) (λ _ _, 5) 3
           [(B "info", VDict [(B "files",
               VList [VDict [(B "path", VList [VBytes (B "a/b"); VBytes (B "c.mkv")])]])])]
           {["c.mkv"%string]} "c.mkv").
  - reflexivity.
  - by apply elem_of_singleton.
Defined.

(** ** The infohash of an encoded torrent *)

Lemma dict_loop_keep_span depth data es i iend :
  dict_entries depth data i es iend →
  B "info" ∉ es.*1 →
  data !! iend = Some "e"%char →
  ∀ fuel d x l, length data ≤ fuel + i →
  dict_loop data (_bdecode depth data) true fuel i d (Some (x :: l))
  = Ok (VDict (fold_left (λ d kv, dict_set kv.1 kv.2 d) es d), iend + 1, Some (x :: l)).
Proof.
  induction 1 as [i|i k j s1 v i' s2 es i'' Hk Hv Hes IH]; intros Hinfo He fuel d x l Hf.
  - rewrite dict_loop_eq. by rewrite decide_True by (by apply slice_one).
  - pose proof (_bdecode_progress _ _ _ _ _ _ _ Hk) as [? ?].
    pose proof (_bdecode_progress _ _ _ _ _ _ _ Hv) as [? ?].
    destruct fuel as [|fuel]; [lia|].
    rewrite dict_loop_eq.
    rewrite decide_False by (by eapply _bdecode_ok_not_e).
    rewrite Hk. simpl in Hinfo. apply not_elem_of_cons in Hinfo as [Hne Hinfo].
    rewrite bool_decide_eq_false_2 by done. cbn [andb].
    destruct (_bdecode_any_capture depth data j true _ _ _ Hv) as [s' ->].
    cbn [bytes_or]. apply IH; [done|done|lia].
Qed.

Lemma dict_loop_capture_info depth data es1 i p :
  dict_entries depth data i es1 p →
  ∀ j s1 v q s2 es2 iend,
    _bdecode depth data p false = Ok (VBytes (B "info"), j, s1) →
    _bdecode depth data j false = Ok (v, q, s2) →
    dict_entries depth data q es2 iend →
    B "info" ∉ es2.*1 →
    data !! iend = Some "e"%char →
    ∀ fuel d info, length data ≤ fuel + i →
    dict_loop data (_bdecode depth data) true fuel i d info
    = Ok (VDict (fold_left (λ d kv, dict_set kv.1 kv.2 d)
                   (es1 ++ (B "info", v) :: es2) d),
          iend + 1, Some (slice data j q)).
Proof.
  induction 1 as [i|i k j0 s0 v0 i' s0' es i'' Hk0 Hv0 Hes IH];
    intros j s1 v q s2 es2 iend Hk Hv Hes2 Hinfo He fuel d info Hf.
  - pose proof (_bdecode_progress _ _ _ _ _ _ _ Hk) as [? ?].
    pose proof (_bdecode_progress _ _ _ _ _ _ _ Hv) as [? ?].
    destruct fuel as [|fuel]; [lia|].
    rewrite dict_loop_eq.
    rewrite decide_False by (by eapply _bdecode_ok_not_e).
    rewrite Hk, bool_decide_eq_true_2 by done. cbn [andb]. rewrite Hv.
    destruct (slice_nonempty data j q) as (x & l & ->); [done|done|].
    simpl. apply dict_loop_keep_span; [done|done|done|lia].
  - pose proof (_bdecode_progress _ _ _ _ _ _ _ Hk0) as [? ?].
    pose proof (_bdecode_progress _ _ _ _ _ _ _ Hv0) as [? ?].
    destruct fuel as [|fuel]; [lia|].
    rewrite dict_loop_eq.
    rewrite decide_False by (by eapply _bdecode_ok_not_e).
    rewrite Hk0. simpl.
    destruct (bool_decide (k = B "info")).
    + rewrite Hv0. eapply IH; eauto. lia.
    + destruct (_bdecode_any_capture depth data j0 true _ _ _ Hv0) as [s' ->].
      eapply IH; eauto. lia.
Qed.

Lemma dict_get_split k v (d : dict) :
  dict_get k d = Some v → ∃ es1 es2, d = es1 ++ (k, v) :: es2.
Proof.
  induction d as [|[k' v'] d IH]; simpl; [done|].
  destruct (decide (k' = k)) as [->|Hne].
  - intros [= ->]. by exists [], d.
  - intros (es1 & es2 & ->)%IH. by exists ((k', v') :: es1), es2.
Qed.

Lemma dict_get_elem_of k v (d : dict) : dict_get k d = Some v → (k, v) ∈ d.
Proof.
  intros (es1 & es2 & ->)%dict_get_split. apply elem_of_app. right. left.
Qed.

(** With capture, the encoding of a dictionary that has the key [info]
    decodes to the dictionary and to the encoding of the value of [info]
    as the span. *)
Lemma _bdecode_encoded_info depth (es1 es2 : dict) (v : Value) :
  unique_keys (VDict (es1 ++ (B "info", v) :: es2)) →
  digits_within_limit (VDict (es1 ++ (B "info", v) :: es2)) →
  vheight (VDict (es1 ++ (B "info", v) :: es2)) ≤ depth →
  _bdecode depth (bencode (VDict (es1 ++ (B "info", v) :: es2))) 0 true
  = Ok (VDict (es1 ++ (B "info", v) :: es2),
        length (bencode (VDict (es1 ++ (B "info", v) :: es2))), Some (bencode v)).
Proof.
  intros Huk Hlim Hh.
  inversion Huk as [| | |d' Hnd Hl]; subst.
  inversion Hlim as [| | |d' Hl']; subst.
  destruct depth as [|depth]; [simpl in Hh; lia|].
  assert (∀ kv, kv ∈ es1 ++ (B "info", v) :: es2 → vheight kv.2 ≤ depth) as Hhd.
  { intros kv Hkv. apply vheight_entry in Hkv. simpl in Hh. lia. }
  assert (∀ es, es ⊆ es1 ++ (B "info", v) :: es2 →
                Forall (λ kv, within_digit_limit (length kv.1)) es
                ∧ Forall (λ kv, reads_back kv.2) es
                ∧ ∀ kv, kv ∈ es → vheight kv.2 ≤ depth) as Hsub.
  { intros es Hes. rewrite !Forall_forall. rewrite Forall_forall in Hl, Hl'.
    split; [|split].
    - intros kv Hkv. by apply Hl', Hes.
    - intros kv Hkv. apply bencode_reads_back; [by apply Hl, Hes|by apply Hl', Hes].
    - intros kv Hkv. by apply Hhd, Hes. }
  destruct (Hsub es1) as (Hk1 & Hr1 & Hh1); [set_solver|].
  destruct (Hsub es2) as (Hk2 & Hr2 & Hh2); [set_solver|].
  destruct (Hsub [(B "info", v)]) as (Hk0 & Hr0 & Hh0); [set_solver|].
  apply Forall_inv in Hk0, Hr0. simpl in Hk0, Hr0.
  specialize (Hh0 _ ltac:(left)). simpl in Hh0.
  pose proof (vheight_pos v) as Hpos.
  destruct depth as [|depth']; [lia|].
  set (enc := λ kv : bytes * Value,
         (nat_bytes (length kv.1) ++ B ":" ++ kv.1) ++ bencode kv.2) in *.
  set (key := nat_bytes (length (B "info")) ++ B ":" ++ B "info").
  set (body1 := flat_map enc es1). set (body2 := flat_map enc es2).
  assert (bencode (VDict (es1 ++ (B "info", v) :: es2))
          = ["d"%char] ++ body1 ++ key ++ bencode v ++ body2 ++ ["e"%char]) as Hdata.
  { change (bencode (VDict (es1 ++ (B "info", v) :: es2)))
      with (B "d" ++ flat_map enc (es1 ++ (B "info", v) :: es2) ++ B "e").
    rewrite flat_map_app.
    change (flat_map enc ((B "info", v) :: es2)) with ((key ++ bencode v) ++ body2).
    by rewrite <- !app_assoc. }
  rewrite Hdata. set (data := ["d"%char] ++ body1 ++ key ++ bencode v ++ body2 ++ ["e"%char]).
  (* the entries before [info] *)
  pose proof (entries_chain (S depth') es1 ["d"%char]
                (key ++ bencode v ++ body2 ++ ["e"%char]) Hk1 Hr1 Hh1) as Hc1.
  fold enc body1 data in Hc1.
  (* the key *)
  pose proof (_bdecode_string_item depth' (["d"%char] ++ body1) (B "info")
                (bencode v ++ body2 ++ ["e"%char]) false Hk0) as Hkey.
  fold key in Hkey.
  replace ((["d"%char] ++ body1) ++ key ++ bencode v ++ body2 ++ ["e"%char])
    with data in Hkey by (unfold data; by rewrite <- !app_assoc).
  (* the value *)
  pose proof (Hr0 (S depth') ((["d"%char] ++ body1) ++ key) (body2 ++ ["e"%char]) Hh0)
    as Hval.
  replace (((["d"%char] ++ body1) ++ key) ++ bencode v ++ body2 ++ ["e"%char])
    with data in Hval by (unfold data; by rewrite <- !app_assoc).
  (* the entries after [info] *)
  pose proof (entries_chain (S depth') es2 (((["d"%char] ++ body1) ++ key) ++ bencode v)
                ["e"%char] Hk2 Hr2 Hh2) as Hc2.
  fold enc body2 in Hc2.
  replace ((((["d"%char] ++ body1) ++ key) ++ bencode v) ++ body2 ++ ["e"%char])
    with data in Hc2 by (unfold data; by rewrite <- !app_assoc).
  set (p := length (["d"%char] ++ body1)) in *.
  set (j := length ((["d"%char] ++ body1) ++ key)) in *.
  set (q := length (((["d"%char] ++ body1) ++ key) ++ bencode v)) in *.
  assert (length ["d"%char] + length body1 = p) as Hp
    by (unfold p; by rewrite length_app).
  assert (p + length key = j) as Hj by (unfold j, p; by rewrite !length_app).
  assert (j + length (bencode v) = q) as Hq by (unfold q, j; by rewrite !length_app).
  rewrite Hp in Hc1. rewrite Hj in Hkey. rewrite Hq in Hval.
  assert (data !! (q + length body2) = Some "e"%char) as He.
  { unfold data, q.
    replace (["d"%char] ++ body1 ++ key ++ bencode v ++ body2 ++ ["e"%char])
      with (((((["d"%char] ++ body1) ++ key) ++ bencode v) ++ body2) ++ ["e"%char])
      by (by rewrite <- !app_assoc).
    rewrite <- length_app. by apply list_lookup_middle. }
  assert (B "info" ∉ es2.*1) as Hfresh.
  { rewrite fmap_app, fmap_cons in Hnd. apply NoDup_app in Hnd as (_ & _ & Hnd).
    by apply NoDup_cons in Hnd as [? _]. }
  assert (slice data j q = bencode v) as Hslice.
  { unfold slice, data, j, q.
    replace (["d"%char] ++ body1 ++ key ++ bencode v ++ body2 ++ ["e"%char])
      with (((["d"%char] ++ body1) ++ key) ++ bencode v ++ body2 ++ ["e"%char])
      by (by rewrite <- !app_assoc).
    rewrite drop_app_length. apply take_app_length'. rewrite !length_app. lia. }
  pose proof (dict_loop_capture_info (S depth') data es1 1 p Hc1 j None v q None es2
                (q + length body2) Hkey Hval Hc2 Hfresh He (length data) [] None
                ltac:(lia)) as Hloop.
  rewrite fold_dict_set_fresh in Hloop by done. rewrite Hslice in Hloop.
  simpl app in Hloop.
  rewrite _bdecode_S. unfold decode_frame.
  assert (data !! 0 = Some "d"%char) as Hd0 by done.
  apply lookup_lt_Some in Hd0 as Hlt. rewrite decide_False by lia.
  rewrite (proj2 (slice_one _ _ "d"%char)) by done.
  rewrite decide_False by (intros Hx; by vm_compute in Hx).
  rewrite decide_False by (intros Hx; by vm_compute in Hx).
  rewrite decide_True by done.
  change (0 + 1) with 1. rewrite Hloop. do 3 f_equal.
  unfold data, q, j. rewrite !length_app. simpl. lia.
Qed.

Lemma vheight_get k v (d : dict) :
  dict_get k d = Some v → vheight v < vheight (VDict d).
Proof.
  intros H%dict_get_elem_of. apply vheight_entry in H. simpl in *. lia.
Qed.

(** A file tree of the usual shape that sits in a dictionary read by the
    decoder is walked without an exception, given the frames of the decoder
    and those of [pathlib]. *)
Lemma torrent_file_list_returns path_join join_frames depth c (meta : dict) :
  (∀ a b, join_frames a b ≤ c) → vheight (VDict meta) + c ≤ depth →
  (∀ info tree, dict_get (B "info") meta = Some (VDict info) →
                dict_get (B "file tree") info = Some (VDict tree) →
                is_file_tree (VDict tree) = true) →
  ∃ fs, torrent_file_list path_join join_frames depth meta = Ok fs.
Proof.
  intros Hc Hh Hshape. unfold torrent_file_list.
  destruct (dict_get (B "info") meta) as [[| | |info]|] eqn:E1; try by eexists.
  destruct (dict_get (B "file tree") info) as [[| | |tree]|] eqn:E2; try by eexists.
  apply vheight_get in E1 as Hh1. apply vheight_get in E2 as Hh2.
  match goal with |- ∃ fs, ?w = Ok fs => destruct w as [r|e] eqn:Hw end; [by eexists|].
  exfalso. destruct (walk_value_raises _ _ _ _ _ _ _ Hw) as [-> | ->].
  - by eapply walk_file_tree in Hw; [|done|eapply Hshape].
  - eapply (walk_enough_frames _ _ c (VDict tree)) in Hw; [done|done|done|lia].
Qed.

(** X18. A file that holds the encoding of a torrent dictionary is never
    skipped by [load_torrents], and its infohash is the digest of the
    encoding of the value of [info], byte for byte.  The dictionary has
    distinct keys, decimal numbers that [int] accepts, the key [info], and
    a file tree, if any, of the usual shape; the frames are those that the
    decoder needs for the dictionary and those that [pathlib] needs on
    top; the stem of the file name is text.  The record keeps the path,
    carries a magnet link, and its
    infohash is tagged [btmh:1220] with the SHA-256 digest when [info] is a
    dictionary whose [meta version] is 2, and [btih:] with the SHA-1 digest
    otherwise. *)
Theorem encoded_torrent_loaded sha1_hexdigest sha256_hexdigest lower
    path_join join_frames depth c p stem (meta : dict) (vinfo : Value) :
  unique_keys (VDict meta) → digits_within_limit (VDict meta) →
  (∀ a b, join_frames a b ≤ c) → vheight (VDict meta) + c ≤ depth →
  dict_get (B "info") meta = Some vinfo →
  (∀ info tree, dict_get (B "info") meta = Some (VDict info) →
                dict_get (B "file tree") info = Some (VDict tree) →
                is_file_tree (VDict tree) = true) →
  is_str stem = true →
  ∃ t,
    load_torrents sha1_hexdigest sha256_hexdigest lower path_join join_frames depth
      [(p, stem, bencode (VDict meta))] = [t]
    ∧ path t = p ∧ is_Some (magnet t)
    ∧ (meta_version_2 meta →
       infohash t = Some ("btmh:1220" +:+ sha256_hexdigest (bencode vinfo)))
    ∧ (¬ meta_version_2 meta →
       infohash t = Some ("btih:" +:+ sha1_hexdigest (bencode vinfo))).
Proof.
  intros Huk Hlim Hc Hh Hinfo Hshape _.
  destruct (torrent_file_list_returns path_join join_frames depth c meta Hc Hh Hshape)
    as [fs Hfs].
  destruct (dict_get_split _ _ _ Hinfo) as (es1 & es2 & ->).
  pose proof (_bdecode_encoded_info depth es1 es2 vinfo Huk Hlim ltac:(lia)) as Hdec.
  set (meta := es1 ++ (B "info", vinfo) :: es2) in *.
  unfold load_torrents, load_torrent, decode_torrent_and_infohash.
  cbn [omap list_omap]. rewrite Hdec, Hinfo, Hfs.
  set (name := str_or _ stem).
  assert (∀ h, (h = "btmh:1220" +:+ sha256_hexdigest (bencode vinfo)
                ∨ h = "btih:" +:+ sha1_hexdigest (bencode vinfo)) →
               ∃ m, match h with
                    | String _ _ => magnet_from_info meta h name
                    | EmptyString => None
                    end = Some m) as Hmag.
  { intros h [-> | ->].
    - destruct (magnet_tagged meta "btmh:" ("1220" +:+ sha256_hexdigest (bencode vinfo))
                  name ltac:(by right)) as [m Hm]. by exists m.
    - destruct (magnet_tagged meta "btih:" (sha1_hexdigest (bencode vinfo))
                  name ltac:(by left)) as [m Hm]. by exists m. }
  match goal with |- context [if ?b then _ else _] => destruct b eqn:Hv2 end.
  - destruct (Hmag _ (or_introl eq_refl)) as [m Hm].
    eexists. split; [reflexivity|]. cbn [path magnet infohash].
    split; [done|]. split; [rewrite Hm; by eexists|]. split; [done|].
    intros Hno. exfalso. apply Hno. unfold meta_version_2. rewrite Hinfo.
    destruct vinfo as [| | |info]; try done.
    destruct (dict_get (B "meta version") info) as [[n| | |]|] eqn:E; try done.
    apply bool_decide_eq_true in Hv2 as ->. by eauto.
  - destruct (Hmag _ (or_intror eq_refl)) as [m Hm].
    eexists. split; [reflexivity|]. cbn [path magnet infohash].
    split; [done|]. split; [rewrite Hm; by eexists|]. split; [|done].
    unfold meta_version_2. rewrite Hinfo. intros (info & [= ->] & Hmv).
    rewrite Hmv in Hv2. done.
Qed.

Lemma encoded_torrent_loaded_witness :
  ∃ t,
    load_torrents (λ b, string_of_list_ascii b) (λ _, "bb") ascii_lower
      (λ a b, a +:+ "/" +:+ b) (λ _ _, 5) 8
      [("x.torrent"%string, "x"%string,
        B "d8:announce8:http://t4:infod6:lengthi3e4:name1:Aee")] = [t]
    ∧ path t = "x.torrent"%string ∧ is_Some (magnet t)
    ∧ (meta_version_2 [(B "announce", VBytes (B "http://t"));
                       (B "info", VDict [(B "length", VInt 3);
                                         (B "name", VBytes (B "A"))])] →
       infohash t = Some ("btmh:1220" +:+ "bb"))
    ∧ (¬ meta_version_2 [(B "announce", VBytes (B "http://t"));
                         (B "info", VDict [(B "length", VInt 3);
                                           (B "name", VBytes (B "A"))])] →
       infohash t = Some ("btih:" +:+ "d6:lengthi3e4:name1:Ae")).
Proof.
  apply (encoded_torrent_loaded (λ b, string_of_list_ascii b) (λ _, "bb"%string)
           ascii_lower (λ a b, a +:+ "/" +:+ b) (λ _ _, 5) 8 5 "x.torrent" "x"
           [(B "announce", VBytes (B "http://t"));
            (B "info", VDict [(B "length", VInt 3); (B "name", VBytes (B "A"))])]
           (VDict [(B "length", VInt 3); (B "name", VBytes (B "A"))])).
  - apply (_bdecode_unique_keys 3
             (B "d8:announce8:http://t4:infod6:lengthi3e4:name1:Aee") 0 true _ 50
             (Some (B "d6:lengthi3e4:name1:Ae"))). reflexivity.
  - repeat (constructor; try (split; [by vm_compute|]); try (by vm_compute)).
  - intros _ _. lia.
  - vm_compute. lia.
  - reflexivity.
  - intros info tree [= <-] Htree. by vm_compute in Htree.
  - reflexivity.
Defined.
